(** * libmateui: accelerator map, window chrome, session inhibitors, menu models

    A shallow embedding of the stateful parts of libmateui
    (src/mate-ui-accel.c, src/mate-ui-window.c, src/mate-ui-session.c,
    src/mate-ui-menu.c), of the duration formatting of src/mate-ui-util.c
    and of the combo box mapping of src/mate-ui-settings.c, and the
    properties proved about them.

    Conventions of the embedding:
    - a [const gchar *] is an [option (list ascii)]: [None] is the NULL
      pointer, [Some s] a NUL-terminated string whose bytes before the
      terminator are [s] (so [s] holds no NUL byte, see [c_string]);
    - an object pointer is an [option GObject]; the runtime class of the
      object decides the [GTK_IS_...] checks;
    - the GLib/GTK functions the library calls are modelled by their
      documented behaviour, in [Module GLib]. *)

From Stdlib Require Import Ascii String ZArith NArith.
From Stdlib Require DecimalString DecimalN.
From stdpp Require Import base option list gmap.

Local Open Scope char_scope.
Local Open Scope list_scope.

(** ** GLib: strings, string utilities, hash tables, files *)

Module GLib.

(** A string literal of the source. *)
Definition lit (s : string) : list ascii := list_ascii_of_string s.

Definition NUL : ascii := "000".

(** The bytes of a buffer seen through a [gchar *]: everything before
    the first NUL. *)
Fixpoint c_str (buf : list ascii) : list ascii :=
  match buf with
  | [] => []
  | c :: buf' => if Ascii.eqb c NUL then [] else c :: c_str buf'
  end.

(** Well-formed string contents: no embedded NUL. *)
Definition c_string (s : list ascii) : Prop := NUL ∉ s.

(** [g_ascii_isspace]: space, form feed, newline, carriage return and
    horizontal tab (the vertical tab is not in GLib's table). *)
Definition g_ascii_isspace (c : ascii) : bool :=
  match N_of_ascii c with
  | 32%N | 9%N | 10%N | 12%N | 13%N => true
  | _ => false
  end.

(** [g_strchug]: skip the leading white space. *)
Fixpoint g_strchug (s : list ascii) : list ascii :=
  match s with
  | [] => []
  | c :: s' => if g_ascii_isspace c then g_strchug s' else s
  end.

(** [g_strchomp]: cut the trailing white space, scanning from the end. *)
Definition g_strchomp (s : list ascii) : list ascii :=
  reverse (g_strchug (reverse s)).

(** [g_strstrip(s)] is the macro [g_strchomp (g_strchug (s))]. *)
Definition g_strstrip (s : list ascii) : list ascii :=
  g_strchomp (g_strchug s).

(** The token loop of [g_strsplit] for a one-character delimiter:
    [splits] is the number of cuts still allowed ([None]: no limit).
    The head of the result is the token under construction. *)
Fixpoint split_tokens (d : ascii) (splits : option nat) (s : list ascii)
  : list (list ascii) :=
  match s with
  | [] => [[]]
  | c :: s' =>
      let keep :=
        match split_tokens d splits s' with
        | t :: ts => (c :: t) :: ts
        | [] => [[c]]
        end in
      if Ascii.eqb c d then
        match splits with
        | None => [] :: split_tokens d None s'
        | Some (S n) => [] :: split_tokens d (Some n) s'
        | Some O => keep
        end
      else keep
  end.

(** [g_strsplit (string, delimiter, max_tokens)], both call sites of the
    library passing a one-character delimiter.  A [max_tokens] below 1
    splits completely; otherwise the last of the [max_tokens] tokens is
    the unsplit remainder.  Splitting the empty string gives the empty
    vector. *)
Definition g_strsplit (s : list ascii) (d : ascii) (max_tokens : Z)
  : list (list ascii) :=
  match s with
  | [] => []
  | _ :: _ =>
      split_tokens d
        (if (max_tokens <? 1)%Z then None
         else Some (Z.to_nat (max_tokens - 1))) s
  end.

(** *** GHashTable

    A hash table is the sequence of its nodes; [key_equal] is the
    [GEqualFunc] given to [g_hash_table_new_full].  Insertion looks the
    key up first: an existing node keeps its key and takes the new
    value, otherwise a node is added. *)
Definition GHashTable (K V : Type) : Type := list (K * V).

Section HashTable.
Context {K V : Type}.
Variable key_equal : K → K → bool.

Definition g_hash_table_new_full : GHashTable K V := [].

Fixpoint g_hash_table_lookup (t : GHashTable K V) (k : K) : option V :=
  match t with
  | [] => None
  | (k', v) :: t' =>
      if key_equal k' k then Some v else g_hash_table_lookup t' k
  end.

Fixpoint g_hash_table_insert (t : GHashTable K V) (k : K) (v : V)
  : GHashTable K V :=
  match t with
  | [] => [(k, v)]
  | (k', v') :: t' =>
      if key_equal k' k then (k', v) :: t'
      else (k', v') :: g_hash_table_insert t' k v
  end.

Fixpoint g_hash_table_remove (t : GHashTable K V) (k : K)
  : GHashTable K V :=
  match t with
  | [] => []
  | (k', v') :: t' =>
      if key_equal k' k then t'
      else (k', v') :: g_hash_table_remove t' k
  end.
End HashTable.

(** The order in which a [GHashTableIter] walks a table is not
    specified: an iteration order is any function that lists the nodes
    of a table, each once. *)
Definition iteration_order {K V : Type}
    (order : GHashTable K V → list (K * V)) : Prop :=
  ∀ t, order t ≡ₚ t.

(** [g_str_equal]: comparison of the contents. *)
Definition g_str_equal (a b : list ascii) : bool :=
  bool_decide (a = b).

(** *** Files

    The file system maps a file name to the bytes of the file;
    [fs_writable] tells whether a write to that name succeeds. *)
Record FileSystem := {
  fs_files : gmap (list ascii) (list ascii);
  fs_writable : list ascii → bool
}.

Definition g_file_get_contents (fs : FileSystem) (filename : list ascii)
  : option (list ascii) :=
  fs_files fs !! filename.

Definition g_file_set_contents (fs : FileSystem) (filename : list ascii)
    (contents : list ascii) : FileSystem * bool :=
  if fs_writable fs filename
  then ({| fs_files := <[filename := contents]> (fs_files fs);
           fs_writable := fs_writable fs |}, true)
  else (fs, false).

End GLib.


(** ** mate-ui-accel.c: the accelerator map *)

Module Accel.
Import GLib.

Record MateUiAccelEntry := {
  action_name : option (list ascii);
  accel : option (list ascii)
}.

(** [struct _MateUiAccelMap]: action_name -> accel string. *)
Record MateUiAccelMap := {
  accels : GHashTable (list ascii) (list ascii)
}.

Definition mate_ui_accel_map_new : MateUiAccelMap :=
  {| accels := g_hash_table_new_full |}.

Definition mate_ui_accel_map_add (map : MateUiAccelMap)
    (action_name accel : option (list ascii)) : MateUiAccelMap :=
  match action_name, accel with
  | Some a, Some s =>
      {| accels := g_hash_table_insert g_str_equal (accels map) a s |}
  | _, _ => map (* g_return_if_fail *)
  end.

Definition mate_ui_accel_map_add_entries (map : MateUiAccelMap)
    (entries : list MateUiAccelEntry) : MateUiAccelMap :=
  fold_left
    (λ m e, mate_ui_accel_map_add m (action_name e) (accel e))
    entries map.

Definition mate_ui_accel_map_remove (map : MateUiAccelMap)
    (action_name : option (list ascii)) : MateUiAccelMap :=
  match action_name with
  | Some a => {| accels := g_hash_table_remove g_str_equal (accels map) a |}
  | None => map (* g_return_if_fail *)
  end.

Definition mate_ui_accel_map_get (map : MateUiAccelMap)
    (action_name : option (list ascii)) : option (list ascii) :=
  match action_name with
  | Some a => g_hash_table_lookup g_str_equal (accels map) a
  | None => None (* g_return_val_if_fail *)
  end.

(** The body of the [for] loop of [mate_ui_accel_map_load], run on
    [lines[i]]. *)
Definition load_line (map : MateUiAccelMap) (raw : list ascii)
  : MateUiAccelMap :=
  let line := g_strstrip raw in
  match line with
  | [] => map (* *line == 0: continue *)
  | c :: _ =>
      if Ascii.eqb c "#" then map (* comment: continue *)
      else
        match g_strsplit line "=" 2 with
        | p0 :: p1 :: _ =>
            let action := g_strstrip p0 in
            let accel := g_strstrip p1 in
            match action, accel with
            | _ :: _, _ :: _ =>
                mate_ui_accel_map_add map (Some action) (Some accel)
            | _, _ => map
            end
        | _ => map (* parts[1] == NULL *)
        end
  end.

Definition mate_ui_accel_map_load (fs : FileSystem) (map : MateUiAccelMap)
    (filename : option (list ascii)) : MateUiAccelMap * bool :=
  match filename with
  | None => (map, false) (* g_return_val_if_fail *)
  | Some f =>
      match g_file_get_contents fs f with
      | None => (map, false)
      | Some contents =>
          let lines := g_strsplit (c_str contents) "010" (-1) in
          (fold_left load_line lines map, true)
      end
  end.

(** [g_string_append_printf (content, "%s=%s\n", key, value)]. *)
Definition append_entry (content : list ascii)
    (node : list ascii * list ascii) : list ascii :=
  content ++ node.1 ++ ["="] ++ node.2 ++ ["010"].

Definition save_header : list ascii :=
  (lit "# MATE UI Accelerator Map" ++ ["010"])
  ++ (lit "# Format: action_name=accelerator" ++ ["010"; "010"]).

(** [order] is the order in which the [GHashTableIter] visits
    [map->accels]. *)
Definition mate_ui_accel_map_save
    (order : GHashTable (list ascii) (list ascii)
             → list (list ascii * list ascii))
    (fs : FileSystem) (map : MateUiAccelMap)
    (filename : option (list ascii)) : FileSystem * bool :=
  match filename with
  | None => (fs, false) (* g_return_val_if_fail *)
  | Some f =>
      let content := fold_left append_entry (order (accels map)) save_header in
      g_file_set_contents fs f content
  end.

End Accel.

(** ** GObject instances, GSettings and the GTK side of a window *)

Module Gtk.

Inductive GType :=
| G_TYPE_OBJECT
| G_TYPE_SETTINGS
| G_TYPE_DBUS_PROXY
| GTK_TYPE_APPLICATION
| GTK_TYPE_WIDGET
| GTK_TYPE_BOX
| GTK_TYPE_HEADER_BAR
| GTK_TYPE_MENU_BAR
| GTK_TYPE_TOOLBAR
| GTK_TYPE_STATUSBAR
| GTK_TYPE_WINDOW.

#[export] Instance GType_eq_dec : EqDecision GType.
Proof. solve_decision. Defined.

(** An instance: its class and its address. *)
Record GObject := {
  g_class : GType;
  g_addr : N
}.

#[export] Instance GObject_eq_dec : EqDecision GObject.
Proof. solve_decision. Defined.

#[export] Instance GType_countable : Countable GType.
Proof.
  refine (inj_countable'
            (λ t, match t with
                  | G_TYPE_OBJECT => 0 | G_TYPE_SETTINGS => 1
                  | G_TYPE_DBUS_PROXY => 2 | GTK_TYPE_APPLICATION => 3
                  | GTK_TYPE_WIDGET => 4 | GTK_TYPE_BOX => 5
                  | GTK_TYPE_HEADER_BAR => 6 | GTK_TYPE_MENU_BAR => 7
                  | GTK_TYPE_TOOLBAR => 8 | GTK_TYPE_STATUSBAR => 9
                  | GTK_TYPE_WINDOW => 10
                  end)
            (λ n, match n with
                  | 0 => G_TYPE_OBJECT | 1 => G_TYPE_SETTINGS
                  | 2 => G_TYPE_DBUS_PROXY | 3 => GTK_TYPE_APPLICATION
                  | 4 => GTK_TYPE_WIDGET | 5 => GTK_TYPE_BOX
                  | 6 => GTK_TYPE_HEADER_BAR | 7 => GTK_TYPE_MENU_BAR
                  | 8 => GTK_TYPE_TOOLBAR | 9 => GTK_TYPE_STATUSBAR
                  | _ => GTK_TYPE_WINDOW
                  end) _).
  by intros [].
Defined.

#[export] Instance GObject_countable : Countable GObject.
Proof.
  refine (inj_countable' (λ o, (g_class o, g_addr o))
            (λ p, {| g_class := p.1; g_addr := p.2 |}) _).
  by intros [].
Defined.

(** [g_type_is_a]: the classes deriving from [GtkWidget]. *)
Definition g_type_is_a (t parent : GType) : bool :=
  bool_decide (t = parent)
  || match parent, t with
     | G_TYPE_OBJECT, _ => true
     | GTK_TYPE_WIDGET,
       (GTK_TYPE_BOX | GTK_TYPE_HEADER_BAR | GTK_TYPE_MENU_BAR
        | GTK_TYPE_TOOLBAR | GTK_TYPE_STATUSBAR | GTK_TYPE_WINDOW) => true
     | GTK_TYPE_BOX, GTK_TYPE_STATUSBAR => true
     | _, _ => false
     end.

(** [G_TYPE_CHECK_INSTANCE_TYPE]: NULL is an instance of nothing. *)
Definition instance_of (p : option GObject) (t : GType) : bool :=
  match p with
  | Some o => g_type_is_a (g_class o) t
  | None => false
  end.

(** *** GSettings

    The settings backend holds the value stored under each key of each
    settings object.  Reading a key that holds no integer is a
    programmer error, on which GLib aborts: [None]. *)
Inductive SettingsValue :=
| VInt32 (i : Z)
| VBoolean (b : bool).

Definition g_settings_set_int (backend : gmap (N * list ascii) SettingsValue)
    (settings : GObject) (key : list ascii) (value : Z)
  : gmap (N * list ascii) SettingsValue :=
  <[(g_addr settings, key) := VInt32 value]> backend.

Definition g_settings_set_boolean
    (backend : gmap (N * list ascii) SettingsValue)
    (settings : GObject) (key : list ascii) (value : bool)
  : gmap (N * list ascii) SettingsValue :=
  <[(g_addr settings, key) := VBoolean value]> backend.

Definition g_settings_get_int (backend : gmap (N * list ascii) SettingsValue)
    (settings : GObject) (key : list ascii) : option Z :=
  match backend !! (g_addr settings, key) with
  | Some (VInt32 i) => Some i
  | _ => None
  end.

(** *** Boxes, events, signals *)

Inductive GtkPackType := GTK_PACK_START | GTK_PACK_END.

#[export] Instance GtkPackType_eq_dec : EqDecision GtkPackType.
Proof. solve_decision. Defined.

Record BoxChild := {
  child : GObject;
  expand : bool;
  fill : bool;
  pack : GtkPackType
}.

Definition GDK_WINDOW_STATE_MAXIMIZED : N := N.shiftl 1 2.

Record GdkEventConfigure := {
  ev_width : Z;
  ev_height : Z
}.

Record GdkEventWindowState := {
  changed_mask : N;
  new_window_state : N
}.

Inductive GdkEvent :=
| EvConfigure (e : GdkEventConfigure)
| EvWindowState (e : GdkEventWindowState).

(** The signals the library connects to, each with its one callback. *)
Inductive Signal := configure_event | window_state_event.

#[export] Instance Signal_eq_dec : EqDecision Signal.
Proof. solve_decision. Defined.

(** [g_signal_connect]: the handler is appended and gets the next id of
    the sequence, which starts at 1. *)
Definition g_signal_connect (handlers : list (N * Signal)) (next_id : N)
    (sig : Signal) : list (N * Signal) * N * N :=
  (handlers ++ [(next_id, sig)], N.succ next_id, next_id).

Definition g_signal_handler_disconnect (handlers : list (N * Signal))
    (id : N) : list (N * Signal) :=
  filter (λ h, h.1 ≠ id) handlers.

End Gtk.

(** ** mate-ui-window.c *)

Module Window.
Import GLib Gtk.

(** [MateUiWindowPrivate], followed by the state the window has as a
    [GtkWindow]: the state of its GdkWindow once realized, its connected
    handlers, and the arguments of the last [gtk_window_set_title],
    [gtk_window_set_titlebar] and [gtk_window_set_default_size] calls.
    Widgets are pointers.  What the widgets themselves hold (their
    parent, their reference count, the children of [main_box]) is the
    state of GTK and not part of this record: it is the subject of
    [Module Layout], where [mate_ui_window_rebuild_layout] is. *)
Record MateUiWindow := {
  main_box : option GObject;
  menubar : option GObject;
  toolbar : option GObject;
  content : option GObject;
  statusbar : option GObject;
  flags : N;
  settings : option GObject;
  width_key : option (list ascii);
  height_key : option (list ascii);
  maximized_key : option (list ascii);
  configure_handler : N;
  state_handler : N;
  gdk_window : option N;
  handlers : list (N * Signal);
  next_handler_id : N;
  title : option (list ascii);
  titlebar : option GObject;
  default_size : option (Z * Z)
}.

Definition MATE_UI_WINDOW_NONE : N := 0.

(** Field updates. *)
Definition with_parts (w : MateUiWindow)
    (mb tb ct sb : option GObject) : MateUiWindow :=
  {| main_box := main_box w; menubar := mb; toolbar := tb; content := ct;
     statusbar := sb; flags := flags w; settings := settings w;
     width_key := width_key w; height_key := height_key w;
     maximized_key := maximized_key w;
     configure_handler := configure_handler w;
     state_handler := state_handler w;
     gdk_window := gdk_window w; handlers := handlers w;
     next_handler_id := next_handler_id w; title := title w;
     titlebar := titlebar w; default_size := default_size w |}.

Definition with_binding (w : MateUiWindow) (s : option GObject)
    (wk hk mk : option (list ascii)) (ch sh : N)
    (hs : list (N * Signal)) (next : N) : MateUiWindow :=
  {| main_box := main_box w; menubar := menubar w; toolbar := toolbar w;
     content := content w; statusbar := statusbar w; flags := flags w;
     settings := s; width_key := wk; height_key := hk;
     maximized_key := mk; configure_handler := ch; state_handler := sh;
     gdk_window := gdk_window w;
     handlers := hs; next_handler_id := next; title := title w;
     titlebar := titlebar w; default_size := default_size w |}.

Definition with_window_props (w : MateUiWindow) (fl : N)
    (t : option (list ascii)) (tbar : option GObject)
    (size : option (Z * Z)) : MateUiWindow :=
  {| main_box := main_box w; menubar := menubar w; toolbar := toolbar w;
     content := content w; statusbar := statusbar w; flags := fl;
     settings := settings w; width_key := width_key w;
     height_key := height_key w; maximized_key := maximized_key w;
     configure_handler := configure_handler w;
     state_handler := state_handler w;
     gdk_window := gdk_window w; handlers := handlers w;
     next_handler_id := next_handler_id w; title := t; titlebar := tbar;
     default_size := size |}.

(** The windowing system realizes the window or changes its state. *)
Definition with_gdk_window (w : MateUiWindow) (state : option N)
  : MateUiWindow :=
  {| main_box := main_box w; menubar := menubar w; toolbar := toolbar w;
     content := content w; statusbar := statusbar w; flags := flags w;
     settings := settings w; width_key := width_key w;
     height_key := height_key w; maximized_key := maximized_key w;
     configure_handler := configure_handler w;
     state_handler := state_handler w;
     gdk_window := state; handlers := handlers w;
     next_handler_id := next_handler_id w; title := title w;
     titlebar := titlebar w; default_size := default_size w |}.

(** [state & GDK_WINDOW_STATE_MAXIMIZED] on the GdkWindow of the widget,
    when it has one. *)
Definition window_maximized (self : MateUiWindow) : bool :=
  match gdk_window self with
  | Some state => negb (N.land state GDK_WINDOW_STATE_MAXIMIZED =? 0)%N
  | None => false
  end.

(** The "configure-event" callback.  The second component is the return
    value of the callback. *)
Definition mate_ui_window_configure_event (self : MateUiWindow)
    (event : GdkEventConfigure)
    (backend : gmap (N * list ascii) SettingsValue)
  : gmap (N * list ascii) SettingsValue * bool :=
  match settings self with
  | None => (backend, false)
  | Some s =>
      (* Don't save size when maximized *)
      if window_maximized self then (backend, false)
      else
        let backend1 :=
          match width_key self with
          | Some k => g_settings_set_int backend s k (ev_width event)
          | None => backend
          end in
        let backend2 :=
          match height_key self with
          | Some k => g_settings_set_int backend1 s k (ev_height event)
          | None => backend1
          end in
        (backend2, false)
  end.

(** The "window-state-event" callback. *)
Definition mate_ui_window_state_event (self : MateUiWindow)
    (event : GdkEventWindowState)
    (backend : gmap (N * list ascii) SettingsValue)
  : gmap (N * list ascii) SettingsValue * bool :=
  match settings self, maximized_key self with
  | Some s, Some k =>
      if negb (N.land (changed_mask event) GDK_WINDOW_STATE_MAXIMIZED =? 0)%N
      then
        let maximized :=
          negb (N.land (new_window_state event)
                  GDK_WINDOW_STATE_MAXIMIZED =? 0)%N in
        (g_settings_set_boolean backend s k maximized, false)
      else (backend, false)
  | _, _ => (backend, false)
  end.

(** Delivery of an event to the window: the connected handlers run in
    connection order until one returns TRUE. *)
Definition run_handler (self : MateUiWindow) (sig : Signal)
    (event : GdkEvent) (backend : gmap (N * list ascii) SettingsValue)
  : gmap (N * list ascii) SettingsValue * bool :=
  match sig, event with
  | configure_event, EvConfigure e =>
      mate_ui_window_configure_event self e backend
  | window_state_event, EvWindowState e =>
      mate_ui_window_state_event self e backend
  | _, _ => (backend, false)
  end.

Fixpoint dispatch (self : MateUiWindow) (event : GdkEvent)
    (hs : list (N * Signal))
    (backend : gmap (N * list ascii) SettingsValue)
  : gmap (N * list ascii) SettingsValue :=
  match hs with
  | [] => backend
  | (_, sig) :: hs' =>
      let (backend', stop) := run_handler self sig event backend in
      if stop then backend' else dispatch self event hs' backend'
  end.

Definition gtk_widget_event (self : MateUiWindow) (event : GdkEvent)
    (backend : gmap (N * list ascii) SettingsValue)
  : gmap (N * list ascii) SettingsValue :=
  dispatch self event (handlers self) backend.

(** [mate_ui_window_init], [box] being the new [GtkBox]. *)
Definition mate_ui_window_init (box : GObject) : MateUiWindow :=
  {| main_box := Some box; menubar := None; toolbar := None;
     content := None; statusbar := None; flags := MATE_UI_WINDOW_NONE;
     settings := None; width_key := None; height_key := None;
     maximized_key := None; configure_handler := 0; state_handler := 0;
     gdk_window := None; handlers := [];
     next_handler_id := 1; title := None; titlebar := None;
     default_size := None |}.


(** The part setters: the fields of the window after the call.  A
    setter that does not return early stores the pointer and ends with
    [mate_ui_window_rebuild_layout] on the window with its new fields;
    that call, and the [g_object_unref] and [g_object_ref_sink] of
    [mate_ui_window_set_menubar], change the state of GTK only, which is
    in [Module Layout], and leave the fields as they are. *)
Definition mate_ui_window_set_menubar (window : MateUiWindow)
    (menubar' : option GObject) : MateUiWindow :=
  if bool_decide (menubar' = None) || instance_of menubar' GTK_TYPE_MENU_BAR
  then
    if bool_decide (menubar window = menubar') then window
    else
      with_parts window menubar' (toolbar window) (content window)
        (statusbar window)
  else window (* g_return_if_fail *).

Definition mate_ui_window_get_menubar (window : MateUiWindow)
  : option GObject := menubar window.

Definition mate_ui_window_set_toolbar (window : MateUiWindow)
    (toolbar' : option GObject) : MateUiWindow :=
  if bool_decide (toolbar' = None) || instance_of toolbar' GTK_TYPE_TOOLBAR
  then
    if bool_decide (toolbar window = toolbar') then window
    else
      with_parts window (menubar window) toolbar' (content window)
        (statusbar window)
  else window (* g_return_if_fail *).

Definition mate_ui_window_get_toolbar (window : MateUiWindow)
  : option GObject := toolbar window.

Definition mate_ui_window_set_content (window : MateUiWindow)
    (content' : option GObject) : MateUiWindow :=
  if instance_of content' GTK_TYPE_WIDGET then
    if bool_decide (content window = content') then window
    else
      with_parts window (menubar window) (toolbar window) content'
        (statusbar window)
  else window (* g_return_if_fail (GTK_IS_WIDGET (content)) *).

Definition mate_ui_window_get_content (window : MateUiWindow)
  : option GObject := content window.

Definition mate_ui_window_set_statusbar (window : MateUiWindow)
    (statusbar' : option GObject) : MateUiWindow :=
  if bool_decide (statusbar window = statusbar') then window
  else
    with_parts window (menubar window) (toolbar window) (content window)
      statusbar'.

Definition mate_ui_window_get_statusbar (window : MateUiWindow)
  : option GObject := statusbar window.

Definition mate_ui_window_bind_settings (window : MateUiWindow)
    (settings' : option GObject)
    (width_key' height_key' maximized_key' : option (list ascii))
  : MateUiWindow :=
  match settings' with
  | Some s =>
      if g_type_is_a (g_class s) G_TYPE_SETTINGS then
        (* Clear previous binding *)
        let hs1 :=
          if (0 <? configure_handler window)%N
          then g_signal_handler_disconnect (handlers window)
                 (configure_handler window)
          else handlers window in
        let hs2 :=
          if (0 <? state_handler window)%N
          then g_signal_handler_disconnect hs1 (state_handler window)
          else hs1 in
        (* Set new binding, connect signals *)
        let '(hs3, next1, configure_id) :=
          g_signal_connect hs2 (next_handler_id window) configure_event in
        let '(hs4, next2, state_id) :=
          g_signal_connect hs3 next1 window_state_event in
        with_binding window (Some s) width_key' height_key' maximized_key'
          configure_id state_id hs4 next2
      else window (* g_return_if_fail *)
  | None => window (* g_return_if_fail *)
  end.

(** [None]: GLib aborted on a key that holds no integer. *)
Definition mate_ui_window_set_default_size_from_settings
    (backend : gmap (N * list ascii) SettingsValue)
    (window : MateUiWindow) (settings' : option GObject)
    (width_key' height_key' : option (list ascii))
    (default_width default_height : Z) : option MateUiWindow :=
  match settings', width_key', height_key' with
  | Some s, Some wk, Some hk =>
      if g_type_is_a (g_class s) G_TYPE_SETTINGS then
        match g_settings_get_int backend s wk with
        | None => None
        | Some width =>
            match g_settings_get_int backend s hk with
            | None => None
            | Some height =>
                let width := if (width <=? 0)%Z then default_width
                             else width in
                let height := if (height <=? 0)%Z then default_height
                              else height in
                Some (with_window_props window (flags window)
                        (title window) (titlebar window)
                        (Some (width, height)))
            end
        end
      else Some window (* g_return_if_fail *)
  | _, _, _ => Some window (* g_return_if_fail *)
  end.

End Window.

(** ** mate-ui-session.c: session inhibitors *)

Module Session.
Import GLib Gtk.

Record MateUiSessionInhibitor := {
  app : option GObject;
  cookie : N;
  flags : N;
  is_dbus : bool;
  dbus_cookie : N
}.

Definition MATE_UI_INHIBIT_LOGOUT : N := N.shiftl 1 0.
Definition MATE_UI_INHIBIT_USER_SWITCH : N := N.shiftl 1 1.
Definition MATE_UI_INHIBIT_SUSPEND : N := N.shiftl 1 2.
Definition MATE_UI_INHIBIT_IDLE : N := N.shiftl 1 3.

Definition GTK_APPLICATION_INHIBIT_LOGOUT : N := N.shiftl 1 0.
Definition GTK_APPLICATION_INHIBIT_SWITCH : N := N.shiftl 1 1.
Definition GTK_APPLICATION_INHIBIT_SUSPEND : N := N.shiftl 1 2.
Definition GTK_APPLICATION_INHIBIT_IDLE : N := N.shiftl 1 3.

(** [if (flags & bit) acc |= value]. *)
Definition or_if_set (flags bit value acc : N) : N :=
  if negb (N.land flags bit =? 0)%N then N.lor acc value else acc.

(** Convert our flags to GNOME SessionManager flags. *)
Definition convert_inhibit_flags (flags : N) : N :=
  or_if_set flags MATE_UI_INHIBIT_IDLE 8
    (or_if_set flags MATE_UI_INHIBIT_SUSPEND 4
       (or_if_set flags MATE_UI_INHIBIT_USER_SWITCH 2
          (or_if_set flags MATE_UI_INHIBIT_LOGOUT 1 0))).

Definition gtk_inhibit_flags (flags : N) : N :=
  or_if_set flags MATE_UI_INHIBIT_IDLE GTK_APPLICATION_INHIBIT_IDLE
    (or_if_set flags MATE_UI_INHIBIT_SUSPEND GTK_APPLICATION_INHIBIT_SUSPEND
       (or_if_set flags MATE_UI_INHIBIT_USER_SWITCH
          GTK_APPLICATION_INHIBIT_SWITCH
          (or_if_set flags MATE_UI_INHIBIT_LOGOUT
             GTK_APPLICATION_INHIBIT_LOGOUT 0))).

(** The calls that leave the library, in the order they are made. *)
Inductive Call :=
| call_gtk_application_inhibit
    (app : GObject) (window : option GObject) (gtk_flags : N)
    (reason : list ascii)
| call_gtk_application_uninhibit (app : GObject) (cookie : N)
| call_dbus_proxy_new
| call_dbus_inhibit
    (proxy : GObject) (app_id : option (list ascii)) (toplevel_xid : N)
    (reason : list ascii) (sm_flags : N)
| call_dbus_uninhibit (proxy : GObject) (cookie : N).

(** What the toolkit and the session bus answer. *)
Record Environment := {
  (** the cookie [gtk_application_inhibit] returns, 0 on failure *)
  env_gtk_application_inhibit :
    GObject → option GObject → N → list ascii → N;
  (** the proxy [g_dbus_proxy_new_for_bus_sync] returns, NULL on error *)
  env_dbus_proxy_new : option GObject;
  (** the cookie in the reply to "Inhibit", no reply on error *)
  env_dbus_inhibit :
    GObject → option (list ascii) → N → list ascii → N → option N;
  env_application_id : GObject → option (list ascii);
  (** [HAVE_X11]: the XID of a realized X11 toplevel, else 0 *)
  env_toplevel_xid : option GObject → N
}.

(** The [static GDBusProxy *proxy] of [get_session_manager_proxy], and
    the calls made so far. *)
Record SessionState := {
  proxy : option GObject;
  calls : list Call
}.

Definition M (A : Type) : Type := SessionState → A * SessionState.

Definition ret {A} (a : A) : M A := λ st, (a, st).

Definition bind {A B} (m : M A) (k : A → M B) : M B :=
  λ st, let (a, st') := m st in k a st'.

Notation "'let*' x ':=' m 'in' k" := (bind m (λ x, k))
  (at level 10, x name, m at level 100, k at level 200).

Definition emit (c : Call) : M unit :=
  λ st, (tt, {| proxy := proxy st; calls := calls st ++ [c] |}).

Section WithEnvironment.
Variable env : Environment.

Definition get_session_manager_proxy : M (option GObject) :=
  λ st,
    match proxy st with
    | Some p => (Some p, st)
    | None =>
        (env_dbus_proxy_new env,
         {| proxy := env_dbus_proxy_new env;
            calls := calls st ++ [call_dbus_proxy_new] |})
    end.

(** The fallback of [mate_ui_session_inhibit] to the D-Bus session
    manager, down to the final [return NULL]. *)
Definition inhibit_via_dbus (app window : option GObject) (flags : N)
    (reason : list ascii) : M (option MateUiSessionInhibitor) :=
  let* p := get_session_manager_proxy in
  match p with
  | Some proxy =>
      let app_id :=
        match app with
        | Some a => env_application_id env a
        | None => Some (lit "mate-application")
        end in
      let toplevel_xid := env_toplevel_xid env window in
      let sm_flags := convert_inhibit_flags flags in
      let* u := emit (call_dbus_inhibit proxy app_id toplevel_xid reason
                        sm_flags) in
      match env_dbus_inhibit env proxy app_id toplevel_xid reason
              sm_flags with
      | Some c =>
          ret (Some {| app := None; cookie := 0; flags := flags;
                       is_dbus := true; dbus_cookie := c |})
      | None => ret None
      end
  | None => ret None
  end.

Definition mate_ui_session_inhibit (app window : option GObject)
    (flags : N) (reason : option (list ascii))
  : M (option MateUiSessionInhibitor) :=
  match reason with
  | None => ret None (* g_return_val_if_fail *)
  | Some reason =>
      (* Try GTK application inhibit first *)
      match app with
      | Some a =>
          if g_type_is_a (g_class a) GTK_TYPE_APPLICATION then
            let gtk_flags := gtk_inhibit_flags flags in
            let* u := emit (call_gtk_application_inhibit a window
                              gtk_flags reason) in
            let c := env_gtk_application_inhibit env a window gtk_flags
                       reason in
            if negb (c =? 0)%N then
              ret (Some {| app := Some a; cookie := c; flags := flags;
                           is_dbus := false; dbus_cookie := 0 |})
            else inhibit_via_dbus app window flags reason
          else inhibit_via_dbus app window flags reason
      | None => inhibit_via_dbus app window flags reason
      end
  end.

Definition mate_ui_session_uninhibit
    (inhibitor : option MateUiSessionInhibitor) : M unit :=
  match inhibitor with
  | None => ret tt
  | Some i =>
      match is_dbus i, app i with
      | false, Some a => emit (call_gtk_application_uninhibit a (cookie i))
      | true, _ =>
          let* p := get_session_manager_proxy in
          match p with
          | Some proxy => emit (call_dbus_uninhibit proxy (dbus_cookie i))
          | None => ret tt
          end
      | false, None => ret tt
      end
  end.

End WithEnvironment.

End Session.

(** ** mate-ui-menu.c: GMenuModel from entry tables *)

Module Menu.
Import GLib.

Record MateUiMenuEntry := {
  label : option (list ascii);
  action_name : option (list ascii);
  accel : option (list ascii);
  icon_name : option (list ascii)
}.

(** [entries] with [n_entries] is the list of the entries. *)
Record MateUiSubmenu := {
  submenu_label : option (list ascii);
  entries : list MateUiMenuEntry
}.

(** What is appended to a [GMenu]: an item made by [g_menu_item_new]
    with its "icon" and "accel" attributes, or an empty section. *)
Inductive GMenuEntry :=
| menu_item (label : list ascii) (detailed_action : option (list ascii))
    (icon : option (list ascii)) (accel : option (list ascii))
| menu_section.

(** A submenu appended to the menubar by [g_menu_append_submenu]. *)
Record GSubmenu := {
  g_label : list ascii;
  g_items : list GMenuEntry
}.

(** [g_strdup]: a new buffer holding the string and its terminator. *)
Definition g_strdup (s : list ascii) : list ascii := c_str s ++ [NUL].

(** The loop
    [while ( *p) { if ( *p != '_') *q++ = *p; p++; }]
    over the buffer [buf], [p] and [q] being offsets into it.  [None] is
    a read past the end of the buffer or an exhausted [fuel]. *)
Fixpoint remove_mnemonic_loop (fuel : nat) (buf : list ascii) (p q : nat)
  : option (list ascii * nat) :=
  match fuel with
  | O => None
  | S fuel' =>
      match buf !! p with
      | None => None
      | Some c =>
          if Ascii.eqb c NUL then Some (buf, q)
          else if negb (Ascii.eqb c "_")
               then remove_mnemonic_loop fuel' (<[q := c]> buf) (S p) (S q)
               else remove_mnemonic_loop fuel' buf (S p) q
      end
  end.

(** Remove mnemonic underscore: the copy of the label, compacted in
    place and terminated at [q].  On a NULL label [g_strdup] returns
    NULL and the loop dereferences it: [None]. *)
Definition remove_mnemonic (label : option (list ascii))
  : option (list ascii) :=
  match label with
  | None => None
  | Some s =>
      let buf := g_strdup s in
      match remove_mnemonic_loop (length buf) buf 0 0 with
      | Some (buf', q) => Some (c_str (<[q := NUL]> buf'))
      | None => None
      end
  end.

(** The body of the inner loop: what entry [j] appends to [menu]. *)
Definition append_item (menu : option (list GMenuEntry))
    (entry : MateUiMenuEntry) : option (list GMenuEntry) :=
  match menu with
  | None => None
  | Some items =>
      match label entry, action_name entry with
      | None, None => Some (items ++ [menu_section])
      | _, _ =>
          match remove_mnemonic (label entry) with
          | Some l =>
              Some (items ++ [menu_item l (action_name entry)
                                (icon_name entry) (accel entry)])
          | None => None
          end
      end
  end.

(** The body of the outer loop: what submenu [i] appends to [menubar]. *)
Definition append_submenu (menubar : option (list GSubmenu))
    (submenu : MateUiSubmenu) : option (list GSubmenu) :=
  match menubar with
  | None => None
  | Some subs =>
      match fold_left append_item (entries submenu) (Some []) with
      | Some menu =>
          match remove_mnemonic (submenu_label submenu) with
          | Some sublabel =>
              Some (subs ++ [{| g_label := sublabel; g_items := menu |}])
          | None => None
          end
      | None => None
      end
  end.

Definition mate_ui_menu_model_new_from_entries
    (submenus : list MateUiSubmenu) : option (list GSubmenu) :=
  fold_left append_submenu submenus (Some []).

End Menu.

(** ** The statements about the accelerator map: vocabulary *)

Module AccelSpec.
Import GLib Accel.

(** Action names are unique keys. *)
Definition keys_unique (map : MateUiAccelMap) : Prop :=
  NoDup (accels map).*1.

(** Adding every pair of a list, first to last. *)
Definition add_pairs (map : MateUiAccelMap)
    (pairs : list (list ascii * list ascii)) : MateUiAccelMap :=
  fold_left (λ m p, mate_ui_accel_map_add m (Some p.1) (Some p.2))
    pairs map.

(** The lines of a text: the pieces between its newlines. *)
Definition lines_of (text : list ascii) : list (list ascii) :=
  match text with
  | [] => []
  | _ =>
      fold_right
        (λ c acc,
           if Ascii.eqb c "010" then [] :: acc
           else match acc with
                | l :: ls => (c :: l) :: ls
                | [] => [[c]]
                end)
        [[]] text
  end.

(** The part of a line before its first [d] and the part after it, when
    there is a [d]. *)
Fixpoint cut_at_first (d : ascii) (s : list ascii)
  : option (list ascii * list ascii) :=
  match s with
  | [] => None
  | c :: s' =>
      if Ascii.eqb c d then Some ([], s')
      else match cut_at_first d s' with
           | Some (before, after) => Some (c :: before, after)
           | None => None
           end
  end.

(** Following the specification's words: the pair a line of the file
    contributes, if any.  The stripped line is skipped when it is empty
    or begins with '#'; otherwise it is cut at its first '=', both parts
    are stripped, and the pair counts if and only if there was an '='
    and both stripped parts are non-empty. *)
Definition spec_parse_line (raw : list ascii)
  : option (list ascii * list ascii) :=
  let line := g_strstrip raw in
  if bool_decide (line = []) || bool_decide (head line = Some "#")
  then None
  else
    match cut_at_first "=" line with
    | Some (action_part, accel_part) =>
        let action := g_strstrip action_part in
        let accel := g_strstrip accel_part in
        if bool_decide (action ≠ []) && bool_decide (accel ≠ [])
        then Some (action, accel)
        else None
    | None => None
    end.

(** The pairs a text contributes, in the order of its lines. *)
Definition spec_pairs (text : list ascii)
  : list (list ascii * list ascii) :=
  omap spec_parse_line (lines_of text).

(** What can be written to the file and read back: a string that is not
    empty, holds no newline and no NUL, and neither starts nor ends with
    white space. *)
Definition storable (s : list ascii) : bool :=
  negb (bool_decide (s = []))
  && forallb (λ c, negb (Ascii.eqb c "010") && negb (Ascii.eqb c NUL)) s
  && match head s with Some c => negb (g_ascii_isspace c) | None => true end
  && match last s with Some c => negb (g_ascii_isspace c) | None => true end.

(** An action name moreover holds no '=' and does not begin with '#'. *)
Definition storable_name (s : list ascii) : bool :=
  storable s
  && forallb (λ c, negb (Ascii.eqb c "=")) s
  && negb (bool_decide (head s = Some "#")).

Definition storable_node (node : list ascii * list ascii) : Prop :=
  storable_name node.1 = true ∧ storable node.2 = true.

(** The line [mate_ui_accel_map_save] writes for a node, less the
    newline. *)
Definition entry_line (node : list ascii * list ascii) : list ascii :=
  node.1 ++ "=" :: node.2.

(** The operations that change an accelerator map. *)
Inductive operation :=
| op_add (action_name accel : option (list ascii))
| op_add_entries (entries : list MateUiAccelEntry)
| op_remove (action_name : option (list ascii))
| op_load (fs : FileSystem) (filename : option (list ascii)).

Definition run (map : MateUiAccelMap) (op : operation) : MateUiAccelMap :=
  match op with
  | op_add a s => mate_ui_accel_map_add map a s
  | op_add_entries es => mate_ui_accel_map_add_entries map es
  | op_remove a => mate_ui_accel_map_remove map a
  | op_load fs f => (mate_ui_accel_map_load fs map f).1
  end.

(** The action names an entry table holds. *)
Definition entry_names (es : list MateUiAccelEntry) : list (list ascii) :=
  omap (λ e, match action_name e, accel e with
             | Some a, Some _ => Some a
             | _, _ => None
             end) es.

(** The action names an operation adds. *)
Definition names_added (op : operation) : list (list ascii) :=
  match op with
  | op_add (Some a) (Some _) => [a]
  | op_add _ _ => []
  | op_add_entries es => entry_names es
  | op_remove _ => []
  | op_load fs (Some f) =>
      match g_file_get_contents fs f with
      | Some contents => (spec_pairs (c_str contents)).*1
      | None => []
      end
  | op_load _ None => []
  end.

End AccelSpec.

(** ** The statements about windows: vocabulary *)

Module WindowSpec.
Import GLib Gtk Window.

(** The handlers connected to a window are those its private data
    records: none, or the two that [mate_ui_window_bind_settings]
    connected. *)
Definition handlers_recorded (w : MateUiWindow) : Prop :=
  (0 < next_handler_id w)%N
  ∧ (configure_handler w < next_handler_id w)%N
  ∧ (state_handler w < next_handler_id w)%N
  ∧ ((handlers w = [] ∧ configure_handler w = 0%N ∧ state_handler w = 0%N)
     ∨ (handlers w = [(configure_handler w, configure_event);
                      (state_handler w, window_state_event)]
        ∧ (0 < configure_handler w)%N
        ∧ (0 < state_handler w)%N
        ∧ configure_handler w ≠ state_handler w)).

(** The four parts of a window. *)
Inductive part := part_menubar | part_toolbar | part_content | part_statusbar.

Definition set_part (p : part) (w : MateUiWindow) (x : option GObject)
  : MateUiWindow :=
  match p with
  | part_menubar => mate_ui_window_set_menubar w x
  | part_toolbar => mate_ui_window_set_toolbar w x
  | part_content => mate_ui_window_set_content w x
  | part_statusbar => mate_ui_window_set_statusbar w x
  end.




End WindowSpec.

(** ** The statements about session inhibitors: vocabulary *)

Module SessionSpec.
Import GLib Gtk Session.

(** The toolkit path: the application and the cookie it was given, when
    an application was given and the toolkit returned a cookie that is
    not 0. *)
Definition toolkit_acquires (env : Environment)
    (app window : option GObject) (flags : N) (reason : list ascii)
  : option (GObject * N) :=
  match app with
  | Some a =>
      if g_type_is_a (g_class a) GTK_TYPE_APPLICATION then
        let c := env_gtk_application_inhibit env a window
                   (gtk_inhibit_flags flags) reason in
        if (c =? 0)%N then None else Some (a, c)
      else None
  | None => None
  end.

(** The proxy of the session manager in state [st]: the stored one, or
    the one a new connection gives. *)
Definition session_manager (env : Environment) (st : SessionState)
  : option GObject :=
  match proxy st with
  | Some p => Some p
  | None => env_dbus_proxy_new env
  end.

(** The D-Bus path: the proxy and the cookie of the reply, when the
    "Inhibit" call returns a result. *)
Definition dbus_acquires (env : Environment) (st : SessionState)
    (app window : option GObject) (flags : N) (reason : list ascii)
  : option (GObject * N) :=
  match session_manager env st with
  | Some p =>
      match env_dbus_inhibit env p
              (match app with
               | Some a => env_application_id env a
               | None => Some (lit "mate-application")
               end)
              (env_toplevel_xid env window) reason
              (convert_inhibit_flags flags) with
      | Some c => Some (p, c)
      | None => None
      end
  | None => None
  end.

End SessionSpec.

(** ** The statements about menu models: vocabulary *)

Module MenuSpec.
Import GLib Menu.

(** A label with every '_' removed. *)
Definition without_underscores (s : list ascii) : list ascii :=
  filter (λ c, c ≠ "_") s.

(** An entry of a table is a separator (no label, no action) or has a
    label, which is a string. *)
Definition entry_ok (e : MateUiMenuEntry) : Prop :=
  match label e with
  | Some l => c_string l
  | None => action_name e = None
  end.

Definition submenu_ok (sm : MateUiSubmenu) : Prop :=
  (∃ l, submenu_label sm = Some l ∧ c_string l)
  ∧ Forall entry_ok (entries sm).

(** Following the specification's words: the item of an entry carries
    the label of the entry with every '_' removed (a separator gives a
    section), and the submenu carries the label of the submenu with
    every '_' removed. *)
Definition spec_item (e : MateUiMenuEntry) : GMenuEntry :=
  match label e with
  | Some l =>
      menu_item (without_underscores l) (action_name e) (icon_name e)
        (accel e)
  | None => menu_section
  end.

Definition spec_submenu (sm : MateUiSubmenu) : GSubmenu :=
  {| g_label := without_underscores (default [] (submenu_label sm));
     g_items := spec_item <$> entries sm |}.

End MenuSpec.

(** ** More of mate-ui-accel.c: applying a map to an application *)

Module AccelApp.
Import GLib Gtk Accel.

(** A call [gtk_application_set_accels_for_action (app, action, accels)]:
    the action name and the NULL-terminated array of accelerators. *)
Record SetAccelsCall := {
  call_action : option (list ascii);
  call_accels : list (list ascii)
}.

(** The array [{ accel, NULL }]: one accelerator, or none when [accel] is
    NULL. *)
Definition accel_array (accel : option (list ascii)) : list (list ascii) :=
  match accel with
  | Some s => [s]
  | None => []
  end.

(** [mate_ui_accel_map_apply_to_app]: the calls made to the toolkit,
    [order] being the order in which the [GHashTableIter] visits
    [map->accels]. *)
Definition mate_ui_accel_map_apply_to_app
    (order : GHashTable (list ascii) (list ascii)
             → list (list ascii * list ascii))
    (map : MateUiAccelMap) (app : option GObject) : list SetAccelsCall :=
  if instance_of app GTK_TYPE_APPLICATION then
    (λ node, {| call_action := Some node.1;
                call_accels := accel_array (Some node.2) |})
      <$> order (accels map)
  else [] (* g_return_if_fail *).

(** [mate_ui_accel_set_app_accels]: one call per entry, in order. *)
Definition mate_ui_accel_set_app_accels (app : option GObject)
    (entries : list MateUiAccelEntry) : list SetAccelsCall :=
  if instance_of app GTK_TYPE_APPLICATION then
    (λ e, {| call_action := action_name e;
             call_accels := accel_array (accel e) |}) <$> entries
  else [] (* g_return_if_fail *).

(** [mate_ui_accel_clear_app_accels]: the array [{ NULL }]. *)
Definition mate_ui_accel_clear_app_accels (app : option GObject)
    (action_name : option (list ascii)) : list SetAccelsCall :=
  match action_name with
  | Some a =>
      if instance_of app GTK_TYPE_APPLICATION
      then [{| call_action := Some a; call_accels := [] |}]
      else []
  | None => []
  end.

End AccelApp.

(** ** More vocabulary for the accelerator map *)

Module AccelSpec2.
Import GLib Accel.

(** The accelerator the last pair named [a] gives, if a pair names
    [a]. *)
Fixpoint last_pair (pairs : list (list ascii * list ascii))
    (a : list ascii) : option (list ascii) :=
  match pairs with
  | [] => None
  | (k, v) :: pairs' =>
      match last_pair pairs' a with
      | Some s => Some s
      | None => if bool_decide (k = a) then Some v else None
      end
  end.

(** The pairs of an entry table: the entries with a name and an
    accelerator. *)
Definition entry_pairs (es : list MateUiAccelEntry)
  : list (list ascii * list ascii) :=
  omap (λ e, match action_name e, accel e with
             | Some a, Some s => Some (a, s)
             | _, _ => None
             end) es.

End AccelSpec2.

(** ** The file format, in the words of the specification

    These definitions follow the description of the format and use
    nothing of the embedding of the code: white space is given as the
    list of its characters, stripping as the removal of the white space
    at both ends, a line as a piece between newlines ([lines_of]) and
    the cut at the first '=' as [cut_at_first]. *)

Module LoadSpec.
Import GLib Accel AccelSpec.

(** Space, tab, newline, form feed and carriage return. *)
Definition white_space : list ascii := [" "; "009"; "010"; "012"; "013"].

Definition white (c : ascii) : bool := bool_decide (c ∈ white_space).

Fixpoint strip_leading (s : list ascii) : list ascii :=
  match s with
  | [] => []
  | c :: s' => if white c then strip_leading s' else s
  end.

(** The string without the white space at its two ends. *)
Definition strip (s : list ascii) : list ascii :=
  reverse (strip_leading (reverse (strip_leading s))).

(** [t] is [s] stripped: [s] is [t] between two runs of white space,
    and [t] neither starts nor ends with white space. *)
Definition stripped (s t : list ascii) : Prop :=
  ∃ before after,
    s = before ++ t ++ after
    ∧ Forall (λ c, white c = true) before
    ∧ Forall (λ c, white c = true) after
    ∧ (∀ c, head t = Some c → white c = false)
    ∧ (∀ c, last t = Some c → white c = false).

(** The pair a line gives, if it gives one. *)
Definition text_parse_line (raw : list ascii)
  : option (list ascii * list ascii) :=
  match strip raw with
  | [] => None                                   (* an empty line *)
  | c :: rest =>
      if bool_decide (c = "#") then None         (* a comment *)
      else
        match cut_at_first "=" (c :: rest) with
        | None => None                           (* no '=' *)
        | Some (action_part, accel_part) =>
            match strip action_part, strip accel_part with
            | [], _ => None
            | _, [] => None
            | action, accel => Some (action, accel)
            end
        end
  end.

(** The pairs of a text, in the order of its lines. *)
Definition text_pairs (text : list ascii)
  : list (list ascii * list ascii) :=
  omap text_parse_line (lines_of text).

End LoadSpec.

(** ** More vocabulary for windows *)

Module WindowSpec2.
Import GLib Gtk Window WindowSpec.

(** The keys of the backend a window is bound to write its size to. *)
Definition size_keys (w : MateUiWindow) : list (N * list ascii) :=
  match settings w with
  | Some s =>
      match width_key w with Some k => [(g_addr s, k)] | None => [] end
      ++ match height_key w with Some k => [(g_addr s, k)] | None => [] end
  | None => []
  end.

(** The keys of the backend the handlers of a window may write: the
    size keys and the key of the maximized state. *)
Definition bound_keys (w : MateUiWindow) : list (N * list ascii) :=
  size_keys w
  ++ match settings w, maximized_key w with
     | Some s, Some k => [(g_addr s, k)]
     | _, _ => []
     end.

End WindowSpec2.

(** ** More of mate-ui-session.c: requests to the session manager *)

Module SessionRequests.
Import GLib Gtk Session.

(** The method calls the remaining functions make on the proxy, with
    their arguments. *)
Inductive Request :=
| IsInhibited (sm_flags : N)
| RegisterClient (app_id client_id : list ascii)
| RequestSave
| Logout (mode : N)
| Shutdown
| Reboot.

(** The state of [Session], and the requests sent so far, each with the
    proxy it was sent on. *)
Record RequestState := {
  session : SessionState;
  requests : list (GObject * Request)
}.

Section WithReplies.
Variable env : Environment.

(** What [g_dbus_proxy_call_sync] returns: no result on error, else the
    result, of which only the boolean of an "IsInhibited" reply is
    read. *)
Variable reply : GObject → Request → option bool.

(** [get_session_manager_proxy], on the state of the session part. *)
Definition get_proxy (st : RequestState) : option GObject * RequestState :=
  let (p, s) := get_session_manager_proxy env (session st) in
  (p, {| session := s; requests := requests st |}).

Definition send (p : GObject) (r : Request) (st : RequestState)
  : option bool * RequestState :=
  (reply p r,
   {| session := session st; requests := requests st ++ [(p, r)] |}).

Definition mate_ui_session_is_inhibited (flags : N) (st : RequestState)
  : bool * RequestState :=
  let (p, st1) := get_proxy st in
  match p with
  | None => (false, st1)
  | Some proxy =>
      let (result, st2) :=
        send proxy (IsInhibited (convert_inhibit_flags flags)) st1 in
      match result with
      | Some inhibited => (inhibited, st2)
      | None => (false, st2)
      end
  end.

Definition mate_ui_session_register (app : option GObject)
    (client_id : option (list ascii)) (st : RequestState)
  : bool * RequestState :=
  match app with
  | Some a =>
      if g_type_is_a (g_class a) GTK_TYPE_APPLICATION then
        let (p, st1) := get_proxy st in
        match p with
        | None => (false, st1)
        | Some proxy =>
            let app_id :=
              match env_application_id env a with
              | Some id => id
              | None => lit "mate-application"
              end in
            let (result, st2) :=
              send proxy
                (RegisterClient app_id
                   (match client_id with Some c => c | None => [] end))
                st1 in
            match result with
            | Some _ => (true, st2)
            | None => (false, st2)
            end
        end
      else (false, st) (* g_return_val_if_fail *)
  | None => (false, st) (* g_return_val_if_fail *)
  end.

Definition mate_ui_session_request_save (app : option GObject)
    (st : RequestState) : bool * RequestState :=
  if instance_of app GTK_TYPE_APPLICATION then
    let (p, st1) := get_proxy st in
    match p with
    | None => (false, st1)
    | Some proxy =>
        let (result, st2) := send proxy RequestSave st1 in
        match result with
        | Some _ => (true, st2)
        | None => (false, st2)
        end
    end
  else (false, st) (* g_return_val_if_fail *).

Definition mate_ui_session_request_logout (prompt : bool)
    (st : RequestState) : RequestState :=
  let (p, st1) := get_proxy st in
  match p with
  | None => st1
  | Some proxy => (send proxy (Logout (if prompt then 0 else 1)) st1).2
  end.

(** [prompt] is unused. *)
Definition mate_ui_session_request_shutdown (prompt : bool)
    (st : RequestState) : RequestState :=
  let (p, st1) := get_proxy st in
  match p with
  | None => st1
  | Some proxy => (send proxy Shutdown st1).2
  end.

Definition mate_ui_session_request_reboot (prompt : bool)
    (st : RequestState) : RequestState :=
  let (p, st1) := get_proxy st in
  match p with
  | None => st1
  | Some proxy => (send proxy Reboot st1).2
  end.

(** The calls of a program to these functions. *)
Inductive session_call :=
| do_is_inhibited (flags : N)
| do_register (app : option GObject) (client_id : option (list ascii))
| do_request_save (app : option GObject)
| do_request_logout (prompt : bool)
| do_request_shutdown (prompt : bool)
| do_request_reboot (prompt : bool).

(** The state after a call, and what the call returned ([false] for the
    functions that return nothing). *)
Definition run_session_call (c : session_call) (st : RequestState)
  : bool * RequestState :=
  match c with
  | do_is_inhibited flags => mate_ui_session_is_inhibited flags st
  | do_register app client_id => mate_ui_session_register app client_id st
  | do_request_save app => mate_ui_session_request_save app st
  | do_request_logout prompt =>
      (false, mate_ui_session_request_logout prompt st)
  | do_request_shutdown prompt =>
      (false, mate_ui_session_request_shutdown prompt st)
  | do_request_reboot prompt =>
      (false, mate_ui_session_request_reboot prompt st)
  end.

End WithReplies.

End SessionRequests.

(** ** More of mate-ui-menu.c: GtkMenu widgets from entry tables *)

Module MenuWidgets.
Import GLib Gtk Menu.

(** A menu item as the library builds it: a separator, an item made by
    [gtk_menu_item_new_with_mnemonic], or an item holding a box with an
    optional image and a mnemonic label; the last two with their action
    name and, when one was added, the key and modifiers of their
    "activate" accelerator. *)
Inductive GtkMenuItem :=
| separator_item
| mnemonic_item (label action : list ascii) (accelerator : option (N * N))
| icon_item (label : list ascii) (icon : option (list ascii))
    (action : list ascii) (accelerator : option (N * N)).

Definition item_action (item : GtkMenuItem) : option (list ascii) :=
  match item with
  | separator_item => None
  | mnemonic_item _ action _ | icon_item _ _ action _ => Some action
  end.

Definition item_label (item : GtkMenuItem) : option (list ascii) :=
  match item with
  | separator_item => None
  | mnemonic_item label _ _ | icon_item label _ _ _ => Some label
  end.

Definition item_accelerator (item : GtkMenuItem) : option (N * N) :=
  match item with
  | separator_item => None
  | mnemonic_item _ _ acc | icon_item _ _ _ acc => acc
  end.

(** [gtk_widget_add_accelerator (item, "activate", ...)]; on a NULL
    widget GTK refuses the call. *)
Definition gtk_widget_add_accelerator (item : option GtkMenuItem)
    (key mods : N) : option GtkMenuItem :=
  match item with
  | Some (mnemonic_item l a _) => Some (mnemonic_item l a (Some (key, mods)))
  | Some (icon_item l i a _) => Some (icon_item l i a (Some (key, mods)))
  | other => other
  end.

Section WithParse.

(** [gtk_accelerator_parse]: the key and the modifiers of an accelerator
    string, the key being 0 when the string does not parse. *)
Variable gtk_accelerator_parse : list ascii → N * N.

(** The block
    [if (accel != NULL && accel_group != NULL) { parse; if (key != 0)
    add accelerator }]. *)
Definition add_parsed_accelerator (item : option GtkMenuItem)
    (accel_group : option GObject) (accel : option (list ascii))
  : option GtkMenuItem :=
  match accel, accel_group with
  | Some s, Some _ =>
      let (key, mods) := gtk_accelerator_parse s in
      if negb (key =? 0)%N then gtk_widget_add_accelerator item key mods
      else item
  | _, _ => item
  end.

Definition mate_ui_menu_item_new_with_action
    (label action_name : option (list ascii))
    (accel_group : option GObject) (accel : option (list ascii))
  : option GtkMenuItem :=
  match label, action_name with
  | Some l, Some a =>
      add_parsed_accelerator (Some (mnemonic_item l a None)) accel_group
        accel
  | _, _ => None (* g_return_val_if_fail *)
  end.

Definition mate_ui_menu_item_new_with_icon
    (label icon_name action_name : option (list ascii))
  : option GtkMenuItem :=
  match label, action_name with
  | Some l, Some a => Some (icon_item l icon_name a None)
  | _, _ => None (* g_return_val_if_fail *)
  end.

(** [gtk_menu_shell_append]: a NULL child is refused. *)
Definition gtk_menu_shell_append (menu : list GtkMenuItem)
    (item : option GtkMenuItem) : list GtkMenuItem :=
  match item with
  | Some i => menu ++ [i]
  | None => menu
  end.

(** The [item] the loop of [mate_ui_menu_new_from_entries] makes for an
    entry, NULL when the constructor refuses its arguments. *)
Definition entry_widget (accel_group : option GObject)
    (entry : MateUiMenuEntry) : option GtkMenuItem :=
  match label entry, action_name entry with
  | None, None => Some separator_item
  | _, _ =>
      match icon_name entry with
      | Some icon =>
          add_parsed_accelerator
            (mate_ui_menu_item_new_with_icon (label entry) (Some icon)
               (action_name entry))
            accel_group (accel entry)
      | None =>
          mate_ui_menu_item_new_with_action (label entry)
            (action_name entry) accel_group (accel entry)
      end
  end.

(** The body of the loop: the item is made, appended and shown. *)
Definition append_widget (accel_group : option GObject)
    (menu : list GtkMenuItem) (entry : MateUiMenuEntry)
  : list GtkMenuItem :=
  gtk_menu_shell_append menu (entry_widget accel_group entry).

Definition mate_ui_menu_new_from_entries (entries : list MateUiMenuEntry)
    (accel_group : option GObject) : list GtkMenuItem :=
  fold_left (append_widget accel_group) entries [].

(** [mate_ui_menu_bar_new_from_entries]: for each submenu, the label of
    its item in the bar and its menu. *)
Definition mate_ui_menu_bar_new_from_entries
    (submenus : list MateUiSubmenu) (accel_group : option GObject)
  : list (option (list ascii) * list GtkMenuItem) :=
  fold_left
    (λ menubar submenu,
       menubar
       ++ [(submenu_label submenu,
            mate_ui_menu_new_from_entries (entries submenu) accel_group)])
    submenus [].

End WithParse.

(** An entry that gives an item: a separator, or an entry with a label
    and an action. *)
Definition entry_shown (e : MateUiMenuEntry) : bool :=
  match label e, action_name e with
  | None, None | Some _, Some _ => true
  | _, _ => false
  end.

(** An entry over which the GMenu builder reads through NULL. *)
Definition entry_fatal (e : MateUiMenuEntry) : bool :=
  match label e, action_name e with
  | None, Some _ => true
  | _, _ => false
  end.

Definition submenu_fatal (sm : MateUiSubmenu) : bool :=
  match submenu_label sm with
  | None => true
  | Some _ => existsb entry_fatal (entries sm)
  end.

Definition model_item_action (item : GMenuEntry) : option (list ascii) :=
  match item with
  | menu_item _ action _ _ => action
  | menu_section => None
  end.

Definition model_item_label (item : GMenuEntry) : option (list ascii) :=
  match item with
  | menu_item l _ _ _ => Some l
  | menu_section => None
  end.

End MenuWidgets.

(** ** mate-ui-util.c: durations; mate-ui-settings.c: combo box mapping *)

Module Util.
Import GLib.

(** The conversion [%u] of [printf]: the decimal digits of the number,
    without leading zeros. *)
Definition print_uint (n : N) : list ascii :=
  list_ascii_of_string
    (DecimalString.NilZero.string_of_uint (N.to_uint n)).

(** [mate_ui_util_format_time], [seconds] being a [guint]. *)
Definition mate_ui_util_format_time (seconds : N) : list ascii :=
  if (seconds <? 60)%N then print_uint seconds ++ lit " sec"
  else if (seconds <? 3600)%N then
    print_uint (seconds / 60) ++ lit " min "
    ++ print_uint (seconds mod 60) ++ lit " sec"
  else
    let hours := (seconds / 3600)%N in
    let mins := ((seconds mod 3600) / 60)%N in
    let secs := (seconds mod 60)%N in
    print_uint hours ++ lit " hr " ++ print_uint mins ++ lit " min "
    ++ print_uint secs ++ lit " sec".

End Util.

Module SettingsBinding.
Import GLib Gtk.

(** A [GValue]: the type it was initialised for, with what it holds. *)
Inductive GValue :=
| GValueInt (i : Z)
| GValueObject (o : option GObject).

(** [g_value_get_object] is refused on a value that holds no object
    ([g_return_val_if_fail (G_VALUE_HOLDS_OBJECT (value), NULL)]). *)
Definition g_value_get_object (value : GValue) : option GObject :=
  match value with
  | GValueObject o => o
  | GValueInt _ => None
  end.

(** [g_value_set_int] is refused on a value that holds no int
    ([g_return_if_fail (G_VALUE_HOLDS_INT (value))]). *)
Definition g_value_set_int (value : GValue) (i : Z) : GValue :=
  match value with
  | GValueInt _ => GValueInt i
  | GValueObject _ => value
  end.

(** A combo box: its tree model, given by the string each row has in
    the bound column (NULL when the row has none), and its active row. *)
Record GtkComboBox := {
  combo_model : option (list (option (list ascii)));
  combo_active : option nat
}.

(** [gtk_combo_box_get_model], [combos] being the combo boxes of the
    program: NULL for a pointer that is no combo box. *)
Definition gtk_combo_box_get_model (combos : gmap GObject GtkComboBox)
    (combo : option GObject) : option (list (option (list ascii))) :=
  match combo with
  | Some o =>
      match combos !! o with
      | Some c => combo_model c
      | None => None (* g_return_val_if_fail (GTK_IS_COMBO_BOX ...) *)
      end
  | None => None
  end.

(** [gtk_combo_box_get_active_iter]: the active row, if it returns
    TRUE. *)
Definition gtk_combo_box_get_active_iter
    (combos : gmap GObject GtkComboBox) (combo : option GObject)
  : option nat :=
  match combo with
  | Some o =>
      match combos !! o with
      | Some c => combo_active c
      | None => None (* g_return_val_if_fail (GTK_IS_COMBO_BOX ...) *)
      end
  | None => None
  end.

(** The rows [gtk_tree_model_get_iter_first] and
    [gtk_tree_model_iter_next] go through: none for a NULL model. *)
Definition model_rows (model : option (list (option (list ascii))))
  : list (option (list ascii)) :=
  match model with
  | Some rows => rows
  | None => [] (* g_return_val_if_fail (GTK_IS_TREE_MODEL ...) *)
  end.

(** [g_strcmp0 (a, b) == 0]: both NULL, or both strings with the same
    contents. *)
Definition g_strcmp0_equal (a b : option (list ascii)) : bool :=
  bool_decide (a = b).

(** The loop of [combo_box_get_mapping] over the rows that are left,
    [index] counting the rows passed: the index of the first row whose
    string is [str], if there is one. *)
Fixpoint combo_box_get_mapping_from (rows : list (option (list ascii)))
    (str : list ascii) (index : nat) : option nat :=
  match rows with
  | [] => None
  | item_str :: rows' =>
      if g_strcmp0_equal item_str (Some str) then Some index
      else combo_box_get_mapping_from rows' str (S index)
  end.

(** [combo_box_get_mapping]: the return value and the [GValue]
    afterwards, [str] being the string of the variant. *)
Definition combo_box_get_mapping (combos : gmap GObject GtkComboBox)
    (value : GValue) (str : list ascii) : bool * GValue :=
  let combo := g_value_get_object value in
  let model := gtk_combo_box_get_model combos combo in
  match combo_box_get_mapping_from (model_rows model) str 0 with
  | Some index => (true, g_value_set_int value (Z.of_nat index))
  | None => (false, value)
  end.

(** [combo_box_set_mapping]: the string of the variant it returns. *)
Definition combo_box_set_mapping (combos : gmap GObject GtkComboBox)
    (value : GValue) : list ascii :=
  let combo := g_value_get_object value in
  let model := gtk_combo_box_get_model combos combo in
  match gtk_combo_box_get_active_iter combos combo with
  | Some i =>
      match model_rows model !! i with
      | Some (Some str) => str
      | Some None => []
      | None => []
      end
  | None => []
  end.

(** How [g_settings_bind_with_mapping] calls the two functions for the
    property "active" that [mate_ui_settings_bind_combo_box] names: the
    [GValue] is one of the type of the property, an int.  It is
    initialised (to 0) before the call of the get mapping, and holds the
    index of the active row (-1 for none) at the call of the set
    mapping. *)
Definition property_value_init : GValue := GValueInt 0.

Definition property_value_active (c : GtkComboBox) : GValue :=
  GValueInt match combo_active c with
            | Some i => Z.of_nat i
            | None => (-1)%Z
            end.

End SettingsBinding.

(** ** mate-ui-window.c: the layout of the box

    [mate_ui_window_rebuild_layout] works on the state of GTK: it
    removes the children of [main_box] and packs the parts again.  What
    this does depends on what GTK holds for each widget (its parent, its
    reference count), so that state is modelled here, by the documented
    behaviour of the GTK 3 functions the library calls:
    - a container owns one reference to each child; [gtk_container_remove]
      drops it, which destroys a widget nobody else holds;
    - [gtk_box_pack_start] and [gtk_box_pack_end] refuse a child that is
      not a widget or that has a parent already;
    - a new widget has a floating reference, which the first container
      sinks.
    Using an object after it was finalized is undefined behaviour:
    [failed use_after_free]. *)

Module Layout.
Import GLib Gtk Window.

(** What GTK holds for an object that has not been finalized. *)
Record GtkObjectState := {
  ref_count : nat;
  floating : bool;
  parent : option GObject;
  visible : bool
}.

(** The objects that are alive, and the child list of [main_box]. *)
Record GtkState := {
  live : gmap GObject GtkObjectState;
  box_children : list BoxChild
}.

Inductive Failure :=
| use_after_free  (* the code passes a pointer to a finalized object *)
| not_modelled.   (* a case left out of this model of GTK *)

Inductive Outcome :=
| defined (gtk : GtkState)
| failed (f : Failure).

Definition and_then (m : Outcome) (k : GtkState → Outcome) : Outcome :=
  match m with
  | defined gtk => k gtk
  | failed f => failed f
  end.

Definition with_object (o : GObject) (st : GtkObjectState) (gtk : GtkState)
  : GtkState :=
  {| live := <[o := st]> (live gtk); box_children := box_children gtk |}.

Definition with_children (children : list BoxChild) (gtk : GtkState)
  : GtkState :=
  {| live := live gtk; box_children := children |}.

(** *** Reference counting *)

Definition g_object_ref (o : GObject) (gtk : GtkState) : Outcome :=
  match live gtk !! o with
  | Some st =>
      defined (with_object o
                 {| ref_count := S (ref_count st); floating := floating st;
                    parent := parent st; visible := visible st |} gtk)
  | None => failed use_after_free
  end.

(** Dropping the last reference finalizes the object. *)
Definition g_object_unref (o : GObject) (gtk : GtkState) : Outcome :=
  match live gtk !! o with
  | Some st =>
      if (ref_count st <=? 1)%nat then
        defined {| live := delete o (live gtk);
                   box_children := box_children gtk |}
      else
        defined (with_object o
                   {| ref_count := pred (ref_count st);
                      floating := floating st; parent := parent st;
                      visible := visible st |} gtk)
  | None => failed use_after_free
  end.

(** A floating reference is taken over; otherwise a reference is
    added. *)
Definition g_object_ref_sink (o : GObject) (gtk : GtkState) : Outcome :=
  match live gtk !! o with
  | Some st =>
      defined (with_object o
                 {| ref_count := if floating st then ref_count st
                                 else S (ref_count st);
                    floating := false; parent := parent st;
                    visible := visible st |} gtk)
  | None => failed use_after_free
  end.

(** *** Widgets and boxes *)

Definition gtk_widget_is_toplevel (widget : GObject) : bool :=
  g_type_is_a (g_class widget) GTK_TYPE_WINDOW.

(** [gtk_widget_show]: refused on what is not a widget. *)
Definition gtk_widget_show (widget : GObject) (gtk : GtkState) : Outcome :=
  match live gtk !! widget with
  | Some st =>
      if g_type_is_a (g_class widget) GTK_TYPE_WIDGET then
        defined (with_object widget
                   {| ref_count := ref_count st; floating := floating st;
                      parent := parent st; visible := true |} gtk)
      else defined gtk (* g_return_if_fail (GTK_IS_WIDGET (widget)) *)
  | None => failed use_after_free
  end.

(** [gtk_widget_unparent]: nothing for a widget without a parent;
    otherwise the parent is cleared and the reference of the parent is
    dropped. *)
Definition gtk_widget_unparent (widget : GObject) (gtk : GtkState)
  : Outcome :=
  match live gtk !! widget with
  | Some st =>
      match parent st with
      | None => defined gtk
      | Some _ =>
          g_object_unref widget
            (with_object widget
               {| ref_count := ref_count st; floating := floating st;
                  parent := None; visible := visible st |} gtk)
      end
  | None => failed use_after_free
  end.

(** The list without its first entry for [widget]. *)
Fixpoint remove_child (widget : GObject) (children : list BoxChild)
  : list BoxChild :=
  match children with
  | [] => []
  | c :: children' =>
      if bool_decide (child c = widget) then children'
      else c :: remove_child widget children'
  end.

(** The "remove" method of a box: the first entry of the child list for
    [widget], if there is one, is unparented and unlinked. *)
Definition gtk_box_remove (widget : GObject) (gtk : GtkState) : Outcome :=
  if bool_decide (widget ∈ child <$> box_children gtk) then
    and_then (gtk_widget_unparent widget gtk)
      (λ gtk, defined (with_children
                         (remove_child widget (box_children gtk)) gtk))
  else defined gtk.

(** [gtk_container_remove] holds a reference to the widget while the
    "remove" method of the container runs. *)
Definition gtk_container_remove (container : option GObject)
    (widget : GObject) (gtk : GtkState) : Outcome :=
  match container with
  | Some box =>
      match live gtk !! box, live gtk !! widget with
      | Some _, Some _ =>
          if g_type_is_a (g_class box) GTK_TYPE_BOX
             && g_type_is_a (g_class widget) GTK_TYPE_WIDGET
          then
            and_then (g_object_ref widget gtk) (λ gtk,
            and_then (gtk_box_remove widget gtk) (λ gtk,
            g_object_unref widget gtk))
          else defined gtk (* g_return_if_fail *)
      | _, _ => failed use_after_free
      end
  | None => defined gtk (* g_return_if_fail *)
  end.

(** [gtk_container_get_children] of a box: the children packed from the
    start in the order of the child list, then those packed from the end
    in the opposite order. *)
Definition gtk_container_get_children (container : option GObject)
    (gtk : GtkState) : list GObject :=
  match container with
  | Some box =>
      (child <$> filter (λ c, pack c = GTK_PACK_START) (box_children gtk))
      ++ reverse
           (child <$> filter (λ c, pack c = GTK_PACK_END) (box_children gtk))
  | None => []
  end.

(** [gtk_box_pack_start] and [gtk_box_pack_end]: the child is appended
    to the child list, gets the box as its parent, and the box takes a
    reference.  Left out of the model: packing a toplevel window or the
    box into itself, and a child whose parent was finalized (GTK
    destroys the children of a container with it). *)
Definition gtk_box_pack (box : option GObject) (widget : GObject)
    (expand fill : bool) (pack : GtkPackType) (gtk : GtkState) : Outcome :=
  match box with
  | Some b =>
      match live gtk !! b, live gtk !! widget with
      | Some _, Some st =>
          if negb (g_type_is_a (g_class b) GTK_TYPE_BOX)
          then defined gtk (* g_return_if_fail (GTK_IS_BOX (box)) *)
          else if negb (g_type_is_a (g_class widget) GTK_TYPE_WIDGET)
          then defined gtk (* g_return_if_fail (GTK_IS_WIDGET (child)) *)
          else
            match parent st with
            | Some q =>
                if bool_decide (is_Some (live gtk !! q))
                then defined gtk (* g_return_if_fail (parent == NULL) *)
                else failed not_modelled
            | None =>
                if gtk_widget_is_toplevel widget
                   || bool_decide (widget = b)
                then failed not_modelled
                else
                  g_object_ref_sink widget
                    (with_object widget
                       {| ref_count := ref_count st;
                          floating := floating st;
                          parent := Some b; visible := visible st |}
                       (with_children
                          (box_children gtk
                           ++ [{| child := widget; expand := expand;
                                  fill := fill; pack := pack |}]) gtk))
            end
      | _, _ => failed use_after_free
      end
  | None => defined gtk (* g_return_if_fail *)
  end.

(** One of the four steps of the second half of
    [mate_ui_window_rebuild_layout]: a part that is set is packed and
    shown. *)
Definition pack_part (box : option GObject) (part : option GObject)
    (expand fill : bool) (pack : GtkPackType) (gtk : GtkState) : Outcome :=
  match part with
  | Some widget =>
      and_then (gtk_box_pack box widget expand fill pack gtk)
        (gtk_widget_show widget)
  | None => defined gtk
  end.

(** [mate_ui_window_rebuild_layout]. *)
Definition mate_ui_window_rebuild_layout (self : MateUiWindow)
    (gtk : GtkState) : Outcome :=
  (* Remove all children from main_box *)
  let children := gtk_container_get_children (main_box self) gtk in
  let removed :=
    fold_left
      (λ acc widget,
         and_then acc (gtk_container_remove (main_box self) widget))
      children (defined gtk) in
  (* Re-add in order: menubar, toolbar, content, statusbar *)
  and_then
    (and_then
       (and_then
          (and_then removed
             (pack_part (main_box self) (menubar self) false false
                GTK_PACK_START))
          (pack_part (main_box self) (toolbar self) false false
             GTK_PACK_START))
       (pack_part (main_box self) (content self) true true GTK_PACK_START))
    (pack_part (main_box self) (statusbar self) false false GTK_PACK_END).

End Layout.

(** ** The statements about the layout: vocabulary *)

Module LayoutSpec.
Import GLib Gtk Window Layout.

(** The parts of a window that are set, in the order of the layout. *)
Definition parts_of (w : MateUiWindow) : list GObject :=
  omap id [menubar w; toolbar w; content w; statusbar w].

Definition is_widget (o : GObject) : bool :=
  g_type_is_a (g_class o) GTK_TYPE_WIDGET.

(** What GTK holds for an object.  A finalized object has no reference
    and no parent. *)
Definition ref_count_of (gtk : GtkState) (o : GObject) : nat :=
  from_option ref_count 0%nat (live gtk !! o).

Definition parent_of (gtk : GtkState) (o : GObject) : option GObject :=
  live gtk !! o ≫= parent.

Definition is_floating (gtk : GtkState) (o : GObject) : bool :=
  from_option floating false (live gtk !! o).

Definition is_visible (gtk : GtkState) (o : GObject) : bool :=
  from_option visible false (live gtk !! o).

(** The widgets in the child list of the box. *)
Definition children_of (gtk : GtkState) : list GObject :=
  child <$> box_children gtk.

(** The child list when every part is set and packed: the menubar, the
    toolbar and the content from the start, the content alone expanding
    and filling, and the statusbar from the end. *)
Definition full_layout (w : MateUiWindow) : list BoxChild :=
  omap id
    [(λ p, {| child := p; expand := false; fill := false;
              pack := GTK_PACK_START |}) <$> menubar w;
     (λ p, {| child := p; expand := false; fill := false;
              pack := GTK_PACK_START |}) <$> toolbar w;
     (λ p, {| child := p; expand := true; fill := true;
              pack := GTK_PACK_START |}) <$> content w;
     (λ p, {| child := p; expand := false; fill := false;
              pack := GTK_PACK_END |}) <$> statusbar w].

(** What GTK maintains for the children of [box]: each is listed once,
    is a living widget with [box] as its parent, and its floating
    reference was sunk. *)
Definition box_consistent (box : GObject) (gtk : GtkState) : Prop :=
  g_type_is_a (g_class box) GTK_TYPE_BOX = true
  ∧ is_Some (live gtk !! box)
  ∧ (box ∉ children_of gtk)
  ∧ NoDup (children_of gtk)
  ∧ Forall (λ w, is_widget w = true
                 ∧ parent_of gtk w = Some box
                 ∧ is_floating gtk w = false
                 ∧ (1 ≤ ref_count_of gtk w)%nat)
      (children_of gtk).

(** A part the box can take: a living object (it has a reference) that
    is not a toplevel window and not the box; when it is a child of the
    box already, a reference besides that of the box is held (by the
    window or by the caller); and when it is a widget that is not a
    child of the box, it has no parent. *)
Definition part_ready (box : GObject) (gtk : GtkState) (p : GObject)
  : Prop :=
  p ≠ box
  ∧ gtk_widget_is_toplevel p = false
  ∧ (1 ≤ ref_count_of gtk p)%nat
  ∧ (p ∈ children_of gtk → (2 ≤ ref_count_of gtk p)%nat)
  ∧ (p ∉ children_of gtk → is_widget p = true → parent_of gtk p = None).

(** A part that can be handed to [gtk_box_pack_start] once the box has
    been emptied. *)
Definition packable (box : GObject) (gtk : GtkState) (p : GObject)
  : Prop :=
  p ≠ box
  ∧ gtk_widget_is_toplevel p = false
  ∧ (1 ≤ ref_count_of gtk p)%nat
  ∧ (is_widget p = true → p ∉ children_of gtk → parent_of gtk p = None).

(** The second half of [mate_ui_window_rebuild_layout] for a list of
    parts that are set, each with its packing. *)
Definition pack_list (box : GObject) (parts : list BoxChild)
    (gtk : GtkState) : Outcome :=
  fold_left
    (λ acc c,
       and_then acc
         (pack_part (Some box) (Some (child c)) (expand c) (fill c)
            (pack c)))
    parts (defined gtk).

(** A part the box alone holds: a child of the box with one reference,
    as a new widget is once the box has sunk its floating reference. *)
Definition part_owned_by_box (gtk : GtkState) (p : GObject) : Prop :=
  p ∈ children_of gtk ∧ ref_count_of gtk p = 1%nat.

End LayoutSpec.

(** ** Sample data *)

Module Samples.
Import GLib Accel.

Definition demo_map : MateUiAccelMap :=
  {| accels := [(lit "app.quit", lit "<Control>q");
                (lit "win.save", lit "<Control>s")] |}.

(** A file with a comment, a padded pair, a line without '=', a line
    without a name, a blank line and a pair that ends the file. *)
Definition sample_text : list ascii :=
  lit "# accelerators" ++ ["010"]
  ++ lit "  win.save =  <Control><Shift>s  " ++ ["010"]
  ++ lit "no separator here" ++ ["010"]
  ++ lit "=<Control>x" ++ ["010"]
  ++ ["010"]
  ++ lit "win.close=<Control>w=".

Definition sample_fs : FileSystem :=
  {| fs_files := {[ lit "accels" := sample_text ]};
     fs_writable := λ name, bool_decide (name = lit "accels") |}.

End Samples.

Module WindowSamples.
Import GLib Gtk Window.

Definition a_box : GObject := {| g_class := GTK_TYPE_BOX; g_addr := 16 |}.
Definition a_label : GObject :=
  {| g_class := GTK_TYPE_WIDGET; g_addr := 32 |}.
Definition a_menubar : GObject :=
  {| g_class := GTK_TYPE_MENU_BAR; g_addr := 48 |}.
Definition some_settings : GObject :=
  {| g_class := G_TYPE_SETTINGS; g_addr := 64 |}.

(** A new window whose content has been set. *)
Definition window_with_content : MateUiWindow :=
  mate_ui_window_set_content (mate_ui_window_init a_box) (Some a_label).

Definition stored_size : gmap (N * list ascii) SettingsValue :=
  {[ (64%N, lit "width") := VInt32 800;
     (64%N, lit "height") := VInt32 0 ]}.

End WindowSamples.

Module SessionSamples.
Import GLib Gtk Session.

Definition an_app : GObject :=
  {| g_class := GTK_TYPE_APPLICATION; g_addr := 80 |}.
Definition a_proxy : GObject :=
  {| g_class := G_TYPE_DBUS_PROXY; g_addr := 96 |}.

(** The toolkit refuses; the session manager answers with cookie 7. *)
Definition dbus_only : Environment :=
  {| env_gtk_application_inhibit := λ _ _ _ _, 0%N;
     env_dbus_proxy_new := Some a_proxy;
     env_dbus_inhibit := λ _ _ _ _ _, Some 7%N;
     env_application_id := λ _, Some (lit "org.mate.Demo");
     env_toplevel_xid := λ _, 0%N |}.

(** The toolkit answers with cookie 3. *)
Definition toolkit_works : Environment :=
  {| env_gtk_application_inhibit := λ _ _ _ _, 3%N;
     env_dbus_proxy_new := None;
     env_dbus_inhibit := λ _ _ _ _ _, None;
     env_application_id := λ _, Some (lit "org.mate.Demo");
     env_toplevel_xid := λ _, 0%N |}.

Definition start : SessionState := {| proxy := None; calls := [] |}.

End SessionSamples.

Module MenuSamples.
Import GLib Menu.

Definition file_menu : MateUiSubmenu :=
  {| submenu_label := Some (lit "_File");
     entries :=
       [ {| label := Some (lit "Save _As..."); action_name := Some (lit "win.save-as");
            accel := Some (lit "<Control><Shift>s"); icon_name := None |};
         {| label := None; action_name := None; accel := None;
            icon_name := None |};
         {| label := Some (lit "snake__case"); action_name := Some (lit "win.snake");
            accel := None; icon_name := Some (lit "text-x-script") |} ] |}.

End MenuSamples.

Module MoreSamples.
Import GLib Accel.

Definition first_text : list ascii := lit "# first" ++ ["010"] ++ lit "a=F1".
Definition second_text : list ascii := lit "b = F2" ++ ["010"] ++ lit "a=F3".

Definition three_files : FileSystem :=
  {| fs_files :=
       {[ lit "one" := first_text;
          lit "two" := second_text;
          lit "both" := first_text ++ "010" :: second_text ]};
     fs_writable := λ _, false |}.

End MoreSamples.

Module RequestSamples.
Import GLib Gtk Session SessionRequests SessionSamples.

(** The session manager answers every request; something is
    inhibited. *)
Definition answers (p : GObject) (r : Request) : option bool := Some true.

Definition connected : RequestState :=
  {| session := {| proxy := Some a_proxy; calls := [] |}; requests := [] |}.

Definition not_connected : RequestState :=
  {| session := start; requests := [] |}.

End RequestSamples.

Module WidgetSamples.
Import GLib Gtk Menu.

(** A parser that knows one accelerator. *)
Definition parse_one (s : list ascii) : N * N :=
  if bool_decide (s = lit "<Control><Shift>s") then (115%N, 5%N)
  else (0%N, 0%N).

Definition an_accel_group : GObject :=
  {| g_class := G_TYPE_OBJECT; g_addr := 112 |}.

End WidgetSamples.

Module LayoutSamples.
Import GLib Gtk Window Layout LayoutSpec WindowSamples.

Definition a_window : GObject :=
  {| g_class := GTK_TYPE_WINDOW; g_addr := 8 |}.
Definition a_statusbar : GObject :=
  {| g_class := GTK_TYPE_STATUSBAR; g_addr := 112 |}.

(** A new widget: one floating reference, no parent, not shown. *)
Definition new_widget : GtkObjectState :=
  {| ref_count := 1; floating := true; parent := None; visible := false |}.

(** The window has taken a reference to the menubar. *)
Definition held_widget : GtkObjectState :=
  {| ref_count := 1; floating := false; parent := None; visible := false |}.

(** The box of a new window, a menubar the window holds, and a label
    and a statusbar just created. *)
Definition fresh_widgets : GtkState :=
  {| live := {[ a_box := {| ref_count := 1; floating := false;
                            parent := Some a_window; visible := true |};
                a_menubar := held_widget;
                a_label := new_widget;
                a_statusbar := new_widget;
                some_settings := held_widget ]};
     box_children := [] |}.

(** The window once [mate_ui_window_set_menubar] and
    [mate_ui_window_set_content] have stored their arguments. *)
Definition window_with_parts : MateUiWindow :=
  mate_ui_window_set_content
    (mate_ui_window_set_menubar (mate_ui_window_init a_box)
       (Some a_menubar))
    (Some a_label).

(** The state of GTK after the layout of [window_with_parts] was built:
    the box holds the only reference to the label. *)
Definition packed_widgets : GtkState :=
  {| live := {[ a_box := {| ref_count := 1; floating := false;
                            parent := Some a_window; visible := true |};
                a_menubar := {| ref_count := 2; floating := false;
                                parent := Some a_box; visible := true |};
                a_label := {| ref_count := 1; floating := false;
                              parent := Some a_box; visible := true |};
                a_statusbar := new_widget;
                some_settings := held_widget ]};
     box_children :=
       [{| child := a_menubar; expand := false; fill := false;
           pack := GTK_PACK_START |};
        {| child := a_label; expand := true; fill := true;
           pack := GTK_PACK_START |}] |}.

End LayoutSamples.

Module SettingsSamples.
Import GLib Gtk SettingsBinding.

Definition a_combo_box : GObject :=
  {| g_class := GTK_TYPE_WIDGET; g_addr := 128 |}.

(** Three rows, the second without a string, the third active. *)
Definition sizes_combo : GtkComboBox :=
  {| combo_model := Some [Some (lit "small"); None; Some (lit "large")];
     combo_active := Some 2%nat |}.

End SettingsSamples.

(** * Properties *)

Import GLib Samples.

(** ** Strings *)

Lemma c_str_id (s : list ascii) : c_string s → c_str s = s.
Proof.
  unfold c_string. induction s as [|c s IH]; intros Hnul; [done|].
  cbn. destruct (Ascii.eqb_spec c NUL) as [->|_].
  - exfalso. apply Hnul. left.
  - f_equal. apply IH. intros Hin. apply Hnul. by right.
Qed.

Lemma c_str_c_string (buf : list ascii) : c_string (c_str buf).
Proof.
  unfold c_string. induction buf as [|c buf IH]; cbn; [by intros ?%elem_of_nil|].
  destruct (Ascii.eqb_spec c NUL) as [->|Hne]; [by intros ?%elem_of_nil|].
  intros [?|?]%elem_of_cons; [congruence|done].
Qed.

Lemma c_string_app (s t : list ascii) :
  c_string (s ++ t) ↔ c_string s ∧ c_string t.
Proof. unfold c_string. rewrite elem_of_app. tauto. Qed.

Lemma g_strchug_id (s : list ascii) :
  (∀ c, head s = Some c → g_ascii_isspace c = false) → g_strchug s = s.
Proof.
  destruct s as [|c s]; [done|]. intros H. cbn. by rewrite (H c).
Qed.

Lemma g_strchomp_id (s : list ascii) :
  (∀ c, last s = Some c → g_ascii_isspace c = false) → g_strchomp s = s.
Proof.
  intros H. unfold g_strchomp. rewrite g_strchug_id.
  - apply reverse_involutive.
  - intros c. rewrite head_reverse. apply H.
Qed.

Lemma g_strstrip_id (s : list ascii) :
  (∀ c, head s = Some c → g_ascii_isspace c = false) →
  (∀ c, last s = Some c → g_ascii_isspace c = false) →
  g_strstrip s = s.
Proof.
  intros Hh Hl. unfold g_strstrip. rewrite (g_strchug_id s Hh).
  by apply g_strchomp_id.
Qed.

(** What [g_strchug] removes is white space, and what it leaves does not
    start with white space. *)
Lemma g_strchug_spec (s : list ascii) :
  ∃ ws, s = ws ++ g_strchug s
        ∧ forallb g_ascii_isspace ws = true
        ∧ ∀ c, head (g_strchug s) = Some c → g_ascii_isspace c = false.
Proof.
  induction s as [|c s (ws & Heq & Hws & Hhd)].
  - by exists [].
  - cbn. destruct (g_ascii_isspace c) eqn:Hc.
    + exists (c :: ws). cbn. rewrite Hc, Hws. by rewrite <- Heq.
    + exists []. repeat split. intros c' [= <-]. done.
Qed.

(** [g_strstrip] removes white space at both ends, and only that. *)
Lemma g_strstrip_spec (s : list ascii) :
  ∃ ws1 ws2,
    s = ws1 ++ g_strstrip s ++ ws2
    ∧ forallb g_ascii_isspace ws1 = true
    ∧ forallb g_ascii_isspace ws2 = true
    ∧ (∀ c, head (g_strstrip s) = Some c → g_ascii_isspace c = false)
    ∧ (∀ c, last (g_strstrip s) = Some c → g_ascii_isspace c = false).
Proof.
  destruct (g_strchug_spec s) as (ws1 & Heq1 & Hws1 & Hhd1).
  destruct (g_strchug_spec (reverse (g_strchug s)))
    as (ws2 & Heq2 & Hws2 & Hhd2).
  exists ws1, (reverse ws2). unfold g_strstrip, g_strchomp.
  assert (g_strchug s
          = reverse (g_strchug (reverse (g_strchug s))) ++ reverse ws2)
    as Hmid.
  { rewrite <- reverse_app, <- Heq2. by rewrite reverse_involutive. }
  repeat split.
  - by rewrite <- Hmid.
  - done.
  - rewrite forallb_forall in Hws2. apply forallb_forall.
    intros c Hc. apply Hws2. apply list_elem_of_In.
    apply list_elem_of_In in Hc. by rewrite elem_of_reverse in Hc.
  - intros c Hc. apply Hhd1. rewrite Hmid, head_app. by rewrite Hc.
  - intros c. rewrite last_reverse. apply Hhd2.
Qed.

(** ** The token loop of [g_strsplit] *)

Lemma split_tokens_nonempty d splits s : split_tokens d splits s ≠ [].
Proof.
  destruct s as [|c s]; [done|]. cbn.
  destruct (split_tokens d splits s) eqn:E;
    destruct (Ascii.eqb c d); destruct splits as [[|n]|]; done.
Qed.

Lemma split_tokens_exhausted d s : split_tokens d (Some O) s = [s].
Proof.
  induction s as [|c s IH]; [done|]. cbn. rewrite IH.
  by destruct (Ascii.eqb c d).
Qed.

Lemma split_tokens_no_delim d splits s :
  d ∉ s → split_tokens d splits s = [s].
Proof.
  induction s as [|c s IH]; [done|]. intros Hd.
  rewrite not_elem_of_cons in Hd. destruct Hd as [Hne Hd].
  cbn. rewrite (IH Hd).
  destruct (Ascii.eqb_spec c d); [congruence|done].
Qed.

Lemma split_tokens_cut_all d l rest :
  d ∉ l →
  split_tokens d None (l ++ d :: rest) = l :: split_tokens d None rest.
Proof.
  induction l as [|c l IH]; intros Hd.
  - cbn. by rewrite Ascii.eqb_refl.
  - rewrite not_elem_of_cons in Hd. destruct Hd as [Hne Hd].
    cbn. rewrite (IH Hd).
    destruct (Ascii.eqb_spec c d); [congruence|done].
Qed.

Lemma split_tokens_cut_once d n l rest :
  d ∉ l →
  split_tokens d (Some (S n)) (l ++ d :: rest)
  = l :: split_tokens d (Some n) rest.
Proof.
  induction l as [|c l IH]; intros Hd.
  - cbn. by rewrite Ascii.eqb_refl.
  - rewrite not_elem_of_cons in Hd. destruct Hd as [Hne Hd].
    cbn. rewrite (IH Hd).
    destruct (Ascii.eqb_spec c d); [congruence|done].
Qed.

(** ** Hash tables keyed by string contents *)

Section StrTable.
Context {V : Type}.
Implicit Types (t : GHashTable (list ascii) V) (k : list ascii) (v : V).

Lemma g_str_equal_eq k k' : g_str_equal k k' = true ↔ k = k'.
Proof. unfold g_str_equal. apply bool_decide_eq_true. Qed.

Lemma g_str_equal_refl k : g_str_equal k k = true.
Proof. by apply g_str_equal_eq. Qed.

Lemma g_str_equal_ne k k' : k ≠ k' → g_str_equal k k' = false.
Proof. unfold g_str_equal. apply bool_decide_eq_false. Qed.

Lemma lookup_None_keys t k :
  g_hash_table_lookup g_str_equal t k = None ↔ k ∉ t.*1.
Proof.
  induction t as [|[k' v'] t IH]; cbn.
  - split; [intros _ ?%elem_of_nil|]; done.
  - rewrite not_elem_of_cons.
    destruct (decide (k' = k)) as [->|Hne].
    + rewrite g_str_equal_refl. split; [done|intros [? _]; done].
    + rewrite (g_str_equal_ne _ _ Hne). rewrite IH. split.
      * intros ?. split; [congruence|done].
      * by intros [_ ?].
Qed.

Lemma lookup_Some_elem_of t k v :
  g_hash_table_lookup g_str_equal t k = Some v → (k, v) ∈ t.
Proof.
  induction t as [|[k' v'] t IH]; cbn; [done|].
  destruct (decide (k' = k)) as [->|Hne].
  - rewrite g_str_equal_refl. intros [= ->]. left.
  - rewrite (g_str_equal_ne _ _ Hne). intros ?. right. by apply IH.
Qed.

Lemma elem_of_lookup_Some t k v :
  NoDup t.*1 → (k, v) ∈ t →
  g_hash_table_lookup g_str_equal t k = Some v.
Proof.
  induction t as [|[k' v'] t IH]; cbn; [by intros _ ?%elem_of_nil|].
  intros [Hk' Hnd]%NoDup_cons [[= -> ->]|Hin]%elem_of_cons.
  - by rewrite g_str_equal_refl.
  - destruct (decide (k' = k)) as [->|Hne].
    + exfalso. apply Hk'. apply list_elem_of_fmap. by exists (k, v).
    + rewrite (g_str_equal_ne _ _ Hne). by apply IH.
Qed.

Lemma lookup_insert_same t k v :
  g_hash_table_lookup g_str_equal (g_hash_table_insert g_str_equal t k v) k
  = Some v.
Proof.
  induction t as [|[k' v'] t IH]; cbn.
  - by rewrite g_str_equal_refl.
  - destruct (g_str_equal k' k) eqn:E; cbn; rewrite E; done.
Qed.

Lemma lookup_insert_other t k v k' :
  k ≠ k' →
  g_hash_table_lookup g_str_equal (g_hash_table_insert g_str_equal t k v) k'
  = g_hash_table_lookup g_str_equal t k'.
Proof.
  intros Hne. induction t as [|[k0 v0] t IH]; cbn.
  - by rewrite (g_str_equal_ne _ _ Hne).
  - destruct (g_str_equal k0 k) eqn:E; cbn.
    + apply g_str_equal_eq in E as ->.
      by rewrite (g_str_equal_ne _ _ Hne).
    + by rewrite IH.
Qed.

(** Inserting under a key that is present changes the value of its node
    and no key. *)
Lemma insert_present_keys t k v :
  k ∈ t.*1 → (g_hash_table_insert g_str_equal t k v).*1 = t.*1.
Proof.
  induction t as [|[k' v'] t IH]; cbn; [by intros ?%elem_of_nil|].
  intros Hin. destruct (g_str_equal k' k) eqn:E; [done|]. cbn.
  f_equal. apply IH. apply elem_of_cons in Hin as [->|?]; [|done].
  by rewrite g_str_equal_refl in E.
Qed.

(** Inserting under a key that is absent adds one node, at the end. *)
Lemma insert_absent t k v :
  k ∉ t.*1 → g_hash_table_insert g_str_equal t k v = t ++ [(k, v)].
Proof.
  induction t as [|[k' v'] t IH]; cbn; [done|].
  intros [Hne Hnin]%not_elem_of_cons.
  rewrite g_str_equal_ne by congruence. by rewrite IH.
Qed.

Lemma insert_keys_NoDup t k v :
  NoDup t.*1 → NoDup (g_hash_table_insert g_str_equal t k v).*1.
Proof.
  intros Hnd. destruct (decide (k ∈ t.*1)) as [Hin|Hnin].
  - by rewrite insert_present_keys.
  - rewrite insert_absent by done. rewrite fmap_app. cbn.
    apply NoDup_app. split; [done|]. split.
    + intros x Hx [->|[]%elem_of_nil]%elem_of_cons. done.
    + apply NoDup_singleton.
Qed.

Lemma remove_keys_sublist t k :
  (g_hash_table_remove g_str_equal t k).*1 `sublist_of` t.*1.
Proof.
  induction t as [|[k' v'] t IH]; cbn; [done|].
  destruct (g_str_equal k' k); cbn.
  - by apply sublist_cons.
  - by apply sublist_skip.
Qed.

Lemma remove_keys_NoDup t k :
  NoDup t.*1 → NoDup (g_hash_table_remove g_str_equal t k).*1.
Proof.
  intros Hnd. apply (sublist_NoDup _ _ Hnd), remove_keys_sublist.
Qed.

Lemma lookup_remove_same t k :
  NoDup t.*1 →
  g_hash_table_lookup g_str_equal (g_hash_table_remove g_str_equal t k) k
  = None.
Proof.
  induction t as [|[k' v'] t IH]; cbn; [done|].
  intros [Hk' Hnd]%NoDup_cons.
  destruct (g_str_equal k' k) eqn:E; cbn.
  - apply g_str_equal_eq in E as ->. by apply lookup_None_keys.
  - rewrite E. by apply IH.
Qed.

Lemma lookup_remove_other t k k' :
  k ≠ k' →
  g_hash_table_lookup g_str_equal (g_hash_table_remove g_str_equal t k) k'
  = g_hash_table_lookup g_str_equal t k'.
Proof.
  intros Hne. induction t as [|[k0 v0] t IH]; cbn; [done|].
  destruct (g_str_equal k0 k) eqn:E; cbn.
  - apply g_str_equal_eq in E as ->.
    by rewrite (g_str_equal_ne _ _ Hne).
  - by rewrite IH.
Qed.

(** With unique keys, what a lookup finds does not depend on the order
    of the nodes. *)
Lemma lookup_permutation t t' k :
  NoDup t.*1 → t ≡ₚ t' →
  g_hash_table_lookup g_str_equal t k = g_hash_table_lookup g_str_equal t' k.
Proof.
  intros Hnd Hp.
  assert (NoDup t'.*1) as Hnd' by (by rewrite <- Hp).
  destruct (g_hash_table_lookup g_str_equal t k) as [v|] eqn:E.
  - symmetry. apply elem_of_lookup_Some; [done|].
    rewrite <- Hp. by apply lookup_Some_elem_of.
  - symmetry. apply lookup_None_keys. rewrite <- Hp.
    by apply lookup_None_keys.
Qed.

End StrTable.

(** ** Loading: the loop of the source against the specification's parse *)

Import Accel AccelSpec.

Lemma split_tokens_cut_at_first d s :
  split_tokens d (Some 1) s
  = match cut_at_first d s with
    | Some (before, after) => [before; after]
    | None => [s]
    end.
Proof.
  induction s as [|c s IH]; [done|]. cbn.
  destruct (Ascii.eqb c d).
  - by rewrite split_tokens_exhausted.
  - rewrite IH. by destruct (cut_at_first d s) as [[??]|].
Qed.

Lemma cut_at_first_Some d s before after :
  cut_at_first d s = Some (before, after) ↔
  s = before ++ d :: after ∧ d ∉ before.
Proof.
  revert before. induction s as [|c s IH]; intros before; cbn.
  - split; [done|]. intros [? _]. by destruct before.
  - destruct (Ascii.eqb_spec c d) as [->|Hne].
    + split.
      * intros [= <- <-]. split; [done|]. by intros ?%elem_of_nil.
      * intros [Heq Hnin]. destruct before as [|b before].
        -- by injection Heq as ->.
        -- injection Heq as <- _. exfalso. apply Hnin. left.
    + destruct (cut_at_first d s) as [[b a]|] eqn:E.
      * split.
        -- intros [= <- <-]. destruct (proj1 (IH b) eq_refl) as [-> Hnin].
           split; [done|]. by apply not_elem_of_cons.
        -- intros [Heq Hnin]. destruct before as [|b' before].
           { injection Heq as ? _. congruence. }
           injection Heq as <- Heq.
           apply not_elem_of_cons in Hnin as [_ Hnin].
           assert (Some (b, a) = Some (before, after)) as [= -> ->]
             by (by apply IH). done.
      * split; [done|]. intros [Heq Hnin]. destruct before as [|b' before].
        { injection Heq as ? _. congruence. }
        injection Heq as <- Heq.
        apply not_elem_of_cons in Hnin as [_ Hnin].
        assert (None = Some (before, after)) by (by apply IH). done.
Qed.

Lemma cut_at_first_None d s : cut_at_first d s = None ↔ d ∉ s.
Proof.
  induction s as [|c s IH]; cbn.
  - split; [by intros _ ?%elem_of_nil|done].
  - rewrite not_elem_of_cons. destruct (Ascii.eqb_spec c d) as [->|Hne].
    + split; [done|by intros [? _]].
    + destruct (cut_at_first d s) as [[b a]|].
      * split; [done|]. intros [_ H]. by apply IH in H.
      * split; [|done]. intros _. split; [congruence|by apply IH].
Qed.

Lemma g_strsplit_lines text :
  g_strsplit text "010" (-1) = lines_of text.
Proof.
  destruct text as [|c0 text0]; [done|].
  unfold g_strsplit, lines_of. 
  change (-1 <? 1)%Z with true. cbv iota.
  generalize (c0 :: text0). intros s.
  induction s as [|c s IH]; [done|]. cbn. rewrite IH.
  by destruct (Ascii.eqb c "010").
Qed.

(** The lines of a text, joined by newlines, give the text back, and no
    line holds a newline. *)
Lemma lines_of_spec text :
  text ≠ [] →
  ∃ l ls, lines_of text = l :: ls
          ∧ text = l ++ concat (map (λ x, "010" :: x) ls)
          ∧ Forall (λ x, "010" ∉ x) (l :: ls).
Proof.
  intros Hne. rewrite <- g_strsplit_lines.
  destruct text as [|c0 text0]; [done|]. clear Hne.
  unfold g_strsplit. change (-1 <? 1)%Z with true. cbv iota.
  generalize (c0 :: text0). intros s.
  induction s as [|c s (l & ls & Heq & Hjoin & Hall)].
  - exists [], []. repeat split. constructor; [|done].
    by intros ?%elem_of_nil.
  - cbn. rewrite Heq. destruct (Ascii.eqb_spec c "010") as [->|Hc].
    + exists [], (l :: ls). cbn. rewrite <- Hjoin. repeat split.
      constructor; [by intros ?%elem_of_nil|done].
    + exists (c :: l), ls. cbn. rewrite <- Hjoin. repeat split.
      apply Forall_cons in Hall as [Hl Hls]. constructor; [|done].
      by apply not_elem_of_cons.
Qed.

(** One turn of the loop adds what the specification's parse of the
    line gives. *)
Lemma load_line_spec map raw :
  load_line map raw
  = match spec_parse_line raw with
    | Some (action, accel) =>
        mate_ui_accel_map_add map (Some action) (Some accel)
    | None => map
    end.
Proof.
  unfold load_line, spec_parse_line.
  destruct (g_strstrip raw) as [|c line] eqn:Hline; [done|].
  rewrite bool_decide_eq_false_2 by done. cbn [orb head].
  destruct (Ascii.eqb_spec c "#") as [->|Hc].
  - by rewrite bool_decide_eq_true_2.
  - rewrite bool_decide_eq_false_2 by congruence.
    unfold g_strsplit. change (2 <? 1)%Z with false. cbv iota.
    change (Z.to_nat (2 - 1)) with 1%nat.
    rewrite split_tokens_cut_at_first.
    destruct (cut_at_first "=" (c :: line)) as [[p0 p1]|]; [|done].
    destruct (g_strstrip p0) as [|? ?]; [done|].
    destruct (g_strstrip p1) as [|? ?]; [done|].
    rewrite !bool_decide_eq_true_2 by done. done.
Qed.

Lemma fold_load_line lines map :
  fold_left load_line lines map
  = add_pairs map (omap spec_parse_line lines).
Proof.
  revert map. induction lines as [|l lines IH]; intros map; [done|].
  cbn. rewrite IH, load_line_spec.
  by destruct (spec_parse_line l) as [[??]|].
Qed.

Lemma load_readable fs map f contents :
  g_file_get_contents fs f = Some contents →
  mate_ui_accel_map_load fs map (Some f)
  = (add_pairs map (spec_pairs (c_str contents)), true).
Proof.
  intros Hread. unfold mate_ui_accel_map_load. rewrite Hread.
  by rewrite fold_load_line, g_strsplit_lines.
Qed.

(** ** Adding pairs *)

Lemma add_pairs_cons map p pairs :
  add_pairs map (p :: pairs)
  = add_pairs (mate_ui_accel_map_add map (Some p.1) (Some p.2)) pairs.
Proof. done. Qed.

Lemma add_pairs_app map l1 l2 :
  add_pairs map (l1 ++ l2) = add_pairs (add_pairs map l1) l2.
Proof. apply fold_left_app. Qed.

Lemma get_add_same map a s :
  mate_ui_accel_map_get (mate_ui_accel_map_add map (Some a) (Some s))
    (Some a) = Some s.
Proof. apply lookup_insert_same. Qed.

Lemma get_add_other map a s b :
  b ≠ Some a →
  mate_ui_accel_map_get (mate_ui_accel_map_add map (Some a) (Some s)) b
  = mate_ui_accel_map_get map b.
Proof.
  destruct b as [b|]; [|done]. intros Hne. cbn.
  apply lookup_insert_other. congruence.
Qed.

Lemma add_keys_unique map a s :
  keys_unique map → keys_unique (mate_ui_accel_map_add map a s).
Proof.
  destruct a as [a|], s as [s|]; try done. apply insert_keys_NoDup.
Qed.

Lemma add_pairs_keys_unique map pairs :
  keys_unique map → keys_unique (add_pairs map pairs).
Proof.
  revert map. induction pairs as [|p pairs IH]; intros map Hu; [done|].
  rewrite add_pairs_cons. apply IH. by apply add_keys_unique.
Qed.

Lemma get_add_pairs_other map pairs a :
  a ∉ pairs.*1 →
  mate_ui_accel_map_get (add_pairs map pairs) (Some a)
  = mate_ui_accel_map_get map (Some a).
Proof.
  revert map. induction pairs as [|[k v] pairs IH]; intros map; [done|].
  rewrite fmap_cons. intros [Hne Hnin]%not_elem_of_cons.
  rewrite add_pairs_cons, IH by done. apply get_add_other. cbn in *. congruence.
Qed.

Lemma get_add_is_Some map a s b :
  is_Some (mate_ui_accel_map_get map b) →
  is_Some (mate_ui_accel_map_get (mate_ui_accel_map_add map a s) b).
Proof.
  destruct a as [a|], s as [s|]; try done.
  destruct (decide (b = Some a)) as [->|Hne].
  - rewrite get_add_same. by eexists.
  - by rewrite get_add_other.
Qed.

Lemma get_add_pairs_is_Some map pairs b :
  is_Some (mate_ui_accel_map_get map b) →
  is_Some (mate_ui_accel_map_get (add_pairs map pairs) b).
Proof.
  revert map. induction pairs as [|[k v] pairs IH]; intros map; [done|].
  intros H. rewrite add_pairs_cons. apply IH. by apply get_add_is_Some.
Qed.

(** Adding pairs whose names are new and pairwise distinct appends them,
    in order. *)
Lemma add_pairs_fresh t pairs :
  NoDup (t ++ pairs).*1 →
  accels (add_pairs {| accels := t |} pairs) = t ++ pairs.
Proof.
  revert t. induction pairs as [|[k v] pairs IH]; intros t Hnd.
  - by rewrite app_nil_r.
  - rewrite add_pairs_cons. unfold mate_ui_accel_map_add. cbn [fst snd accels].
    rewrite insert_absent.
    + rewrite IH; rewrite <- app_assoc; done.
    + rewrite fmap_app in Hnd. apply NoDup_app in Hnd as (_ & Hdisj & _).
      intros Hin. apply (Hdisj k Hin). left.
Qed.

Lemma add_keys_prefix map a s :
  (accels map).*1 `prefix_of` (accels (mate_ui_accel_map_add map a s)).*1.
Proof.
  destruct a as [a|], s as [s|]; try done. cbn.
  destruct (decide (a ∈ (accels map).*1)) as [Hin|Hnin].
  - by rewrite insert_present_keys.
  - rewrite insert_absent by done. rewrite fmap_app. by apply prefix_app_r.
Qed.

Lemma add_pairs_keys_prefix map pairs :
  (accels map).*1 `prefix_of` (accels (add_pairs map pairs)).*1.
Proof.
  revert map. induction pairs as [|p pairs IH]; intros map; [done|].
  rewrite add_pairs_cons. etrans; [|apply IH]. apply add_keys_prefix.
Qed.

(** ** Entry tables, removal and whole operations *)

Lemma add_entries_pairs map es :
  ∃ pairs, pairs.*1 = entry_names es
           ∧ mate_ui_accel_map_add_entries map es = add_pairs map pairs.
Proof.
  unfold mate_ui_accel_map_add_entries. revert map.
  induction es as [|[a s] es IH]; intros map; [by exists []|].
  cbn [fold_left action_name accel]. destruct (IH (mate_ui_accel_map_add map a s))
    as (pairs & Hnames & Heq).
  rewrite Heq. unfold entry_names. cbn [omap list_omap action_name accel].
  destruct a as [a|], s as [s|];
    try (by exists pairs).
  exists ((a, s) :: pairs). split; [|done]. cbn. by rewrite Hnames.
Qed.

Lemma remove_keys_unique map a :
  keys_unique map → keys_unique (mate_ui_accel_map_remove map a).
Proof. destruct a as [a|]; [|done]. apply remove_keys_NoDup. Qed.

Lemma get_remove_same map a :
  keys_unique map →
  mate_ui_accel_map_get (mate_ui_accel_map_remove map (Some a)) (Some a)
  = None.
Proof. apply lookup_remove_same. Qed.

Lemma get_remove_None map x a :
  mate_ui_accel_map_get map (Some a) = None →
  mate_ui_accel_map_get (mate_ui_accel_map_remove map x) (Some a) = None.
Proof.
  destruct x as [k|]; [|done]. cbn. rewrite !lookup_None_keys.
  intros Hnin Hin. apply Hnin.
  eapply elem_of_sublist; [done|apply remove_keys_sublist].
Qed.

Lemma load_pairs fs map f :
  ∃ pairs ok,
    mate_ui_accel_map_load fs map f = (add_pairs map pairs, ok)
    ∧ pairs.*1 = names_added (op_load fs f).
Proof.
  destruct f as [f|]; [|by exists [], false].
  cbn [names_added]. destruct (g_file_get_contents fs f) as [c|] eqn:E.
  - exists (spec_pairs (c_str c)), true. by rewrite (load_readable _ _ _ c).
  - exists [], false. unfold mate_ui_accel_map_load. by rewrite E.
Qed.

Lemma run_keys_unique map op : keys_unique map → keys_unique (run map op).
Proof.
  intros Hu. destruct op as [a s|es|a|fs f]; cbn [run].
  - by apply add_keys_unique.
  - destruct (add_entries_pairs map es) as (pairs & _ & ->).
    by apply add_pairs_keys_unique.
  - by apply remove_keys_unique.
  - destruct (load_pairs fs map f) as (pairs & ok & -> & _).
    by apply add_pairs_keys_unique.
Qed.

Lemma run_all_keys_unique map ops :
  keys_unique map → keys_unique (fold_left run ops map).
Proof.
  revert map. induction ops as [|op ops IH]; intros map Hu; [done|].
  apply IH. by apply run_keys_unique.
Qed.

Lemma get_run_None map op a :
  a ∉ names_added op →
  mate_ui_accel_map_get map (Some a) = None →
  mate_ui_accel_map_get (run map op) (Some a) = None.
Proof.
  intros Hnin Hnone. destruct op as [k s|es|k|fs f]; cbn [run].
  - destruct k as [k|], s as [s|]; try done.
    rewrite get_add_other; [done|]. cbn in Hnin.
    intros [= ->]. apply Hnin. left.
  - destruct (add_entries_pairs map es) as (pairs & Hnames & ->).
    rewrite get_add_pairs_other; [done|]. by rewrite Hnames.
  - by apply get_remove_None.
  - destruct (load_pairs fs map f) as (pairs & ok & -> & Hnames).
    cbn [fst]. rewrite get_add_pairs_other; [done|]. by rewrite Hnames.
Qed.

Lemma get_run_all_None map ops a :
  a ∉ concat (names_added <$> ops) →
  mate_ui_accel_map_get map (Some a) = None →
  mate_ui_accel_map_get (fold_left run ops map) (Some a) = None.
Proof.
  revert map. induction ops as [|op ops IH]; intros map; [done|].
  rewrite fmap_cons. cbn [concat fold_left].
  intros [Hop Hops]%not_elem_of_app Hnone.
  apply IH; [done|]. by apply get_run_None.
Qed.

(** ** The accelerator map: theorems *)

(** C1. The accelerator map is a table from action names to accelerator
    strings with create/read/update/delete behaviour.  For every map
    (its action names being unique keys) and all strings [a] and [s]:
    after [mate_ui_accel_map_add (map, a, s)], [mate_ui_accel_map_get
    (map, a)] returns [s]; after [mate_ui_accel_map_remove (map, a)] it
    returns NULL; on a new map it returns NULL; and it returns NULL on
    every map built from a new one by operations none of which adds
    [a]. *)
Theorem accel_map_crud (map : MateUiAccelMap) (a s : list ascii) :
  keys_unique map →
  mate_ui_accel_map_get
    (mate_ui_accel_map_add map (Some a) (Some s)) (Some a) = Some s
  ∧ mate_ui_accel_map_get
      (mate_ui_accel_map_remove map (Some a)) (Some a) = None
  ∧ mate_ui_accel_map_get
      (mate_ui_accel_map_remove
         (mate_ui_accel_map_add map (Some a) (Some s)) (Some a))
      (Some a) = None
  ∧ mate_ui_accel_map_get mate_ui_accel_map_new (Some a) = None
  ∧ ∀ ops : list operation,
      a ∉ concat (names_added <$> ops) →
      mate_ui_accel_map_get
        (fold_left run ops mate_ui_accel_map_new) (Some a) = None.
Proof.
  intros Hu. split; [apply get_add_same|].
  split; [by apply get_remove_same|].
  split; [by apply get_remove_same, add_keys_unique|].
  split; [done|].
  intros ops Hnin. by apply get_run_all_None.
Qed.

Lemma accel_map_crud_witness :
  mate_ui_accel_map_get
    (mate_ui_accel_map_add demo_map (Some (lit "win.save"))
       (Some (lit "<Control><Shift>s")))
    (Some (lit "win.save")) = Some (lit "<Control><Shift>s")
  ∧ mate_ui_accel_map_get
      (mate_ui_accel_map_remove demo_map (Some (lit "win.save")))
      (Some (lit "win.save")) = None.
Proof.
  assert (keys_unique demo_map) as Hu.
  { apply (bool_decide_unpack _). vm_compute. reflexivity. }
  destruct (accel_map_crud demo_map (lit "win.save")
              (lit "<Control><Shift>s") Hu) as (Hadd & Hremove & _).
  split; [exact Hadd|exact Hremove].
Defined.

(** C4. Action names are unique keys, and every operation keeps them
    so: a new map has unique keys; [add], [add_entries], [remove] and
    [load] of a map with unique keys give a map with unique keys, and so
    does every sequence of them from a new map; and
    [mate_ui_accel_map_add] under a name that is present leaves the
    sequence of names as it is (no second entry) and replaces the
    accelerator stored for that name. *)
Theorem keys_unique_invariant (map : MateUiAccelMap) :
  keys_unique map →
  keys_unique mate_ui_accel_map_new
  ∧ (∀ a s, keys_unique (mate_ui_accel_map_add map a s))
  ∧ (∀ es, keys_unique (mate_ui_accel_map_add_entries map es))
  ∧ (∀ a, keys_unique (mate_ui_accel_map_remove map a))
  ∧ (∀ fs f, keys_unique (mate_ui_accel_map_load fs map f).1)
  ∧ (∀ ops, keys_unique (fold_left run ops mate_ui_accel_map_new))
  ∧ (∀ a s,
       a ∈ (accels map).*1 →
       (accels (mate_ui_accel_map_add map (Some a) (Some s))).*1
       = (accels map).*1
       ∧ mate_ui_accel_map_get
           (mate_ui_accel_map_add map (Some a) (Some s)) (Some a)
         = Some s).
Proof.
  intros Hu.
  split; [apply NoDup_nil_2|].
  split; [intros a s; by apply add_keys_unique|].
  split; [intros es; by apply (run_keys_unique map (op_add_entries es))|].
  split; [intros a; by apply remove_keys_unique|].
  split; [intros fs f; by apply (run_keys_unique map (op_load fs f))|].
  split; [intros ops; apply run_all_keys_unique, NoDup_nil_2|].
  intros a s Hin. split; [by apply insert_present_keys|].
  apply get_add_same.
Qed.

Lemma keys_unique_invariant_witness :
  keys_unique
    (mate_ui_accel_map_add demo_map (Some (lit "win.save"))
       (Some (lit "F2")))
  ∧ (accels (mate_ui_accel_map_add demo_map (Some (lit "win.save"))
               (Some (lit "F2")))).*1
    = (accels demo_map).*1.
Proof.
  assert (keys_unique demo_map) as Hu.
  { apply (bool_decide_unpack _). vm_compute. reflexivity. }
  destruct (keys_unique_invariant demo_map Hu)
    as (_ & Hadd & _ & _ & _ & _ & Hreplace).
  split; [apply Hadd|].
  apply Hreplace. apply (bool_decide_unpack _). vm_compute. reflexivity.
Defined.

(** C8. [mate_ui_accel_map_load] never removes entries.  When the file
    cannot be read (or no file name is given) it returns FALSE and the
    map is unchanged.  When the file is read it returns TRUE and the
    parsed pairs are added to the entries of the map: every name that
    had an accelerator still has one, the names of the map come first in
    the names of the result, in their order, and the accelerator of a
    name changes only if the name occurs among the pairs of the file. *)
Theorem load_never_removes
    (fs : FileSystem) (map : MateUiAccelMap) (f : list ascii) :
  mate_ui_accel_map_load fs map None = (map, false)
  ∧ (g_file_get_contents fs f = None →
     mate_ui_accel_map_load fs map (Some f) = (map, false))
  ∧ (∀ contents,
       g_file_get_contents fs f = Some contents →
       let pairs := spec_pairs (c_str contents) in
       ∃ map',
         mate_ui_accel_map_load fs map (Some f) = (map', true)
         ∧ map' = add_pairs map pairs
         ∧ (∀ a, is_Some (mate_ui_accel_map_get map a) →
                 is_Some (mate_ui_accel_map_get map' a))
         ∧ (accels map).*1 `prefix_of` (accels map').*1
         ∧ (∀ a, a ∉ pairs.*1 →
                 mate_ui_accel_map_get map' (Some a)
                 = mate_ui_accel_map_get map (Some a))).
Proof.
  split; [done|]. split.
  - intros Hread. unfold mate_ui_accel_map_load. by rewrite Hread.
  - intros contents Hread pairs. exists (add_pairs map pairs).
    split; [by apply load_readable|]. split; [done|].
    split; [intros a; apply get_add_pairs_is_Some|].
    split; [apply add_pairs_keys_prefix|].
    intros a. apply get_add_pairs_other.
Qed.

Lemma load_never_removes_witness :
  mate_ui_accel_map_load sample_fs demo_map (Some (lit "missing"))
  = (demo_map, false)
  ∧ ∃ map',
      mate_ui_accel_map_load sample_fs demo_map (Some (lit "accels"))
      = (map', true)
      ∧ mate_ui_accel_map_get map' (Some (lit "app.quit"))
        = mate_ui_accel_map_get demo_map (Some (lit "app.quit")).
Proof.
  split.
  - apply (load_never_removes sample_fs demo_map (lit "missing")).
    vm_compute. reflexivity.
  - destruct (load_never_removes sample_fs demo_map (lit "accels"))
      as (_ & _ & Hload).
    destruct (Hload sample_text) as (map' & Heq & _ & _ & _ & Hframe).
    { vm_compute. reflexivity. }
    exists map'. split; [exact Heq|].
    apply Hframe. apply (bool_decide_unpack _). vm_compute. reflexivity.
Defined.

(** ** Saving, then loading *)

Lemma fold_append_entry nodes content :
  fold_left append_entry nodes content
  = content ++ concat (map (λ n, entry_line n ++ ["010"]) nodes).
Proof.
  revert content. induction nodes as [|n nodes IH]; intros content.
  - by rewrite app_nil_r.
  - cbn [fold_left map concat]. rewrite IH. unfold append_entry, entry_line.
    by rewrite <- !app_assoc.
Qed.

Lemma storable_inv s :
  storable s = true →
  s ≠ [] ∧ ("010" ∉ s) ∧ c_string s
  ∧ (∀ c, head s = Some c → g_ascii_isspace c = false)
  ∧ (∀ c, last s = Some c → g_ascii_isspace c = false).
Proof.
  unfold storable. rewrite !andb_true_iff, negb_true_iff.
  intros [[[Hne Hall] Hhd] Hlast].
  apply bool_decide_eq_false in Hne.
  rewrite forallb_forall in Hall.
  assert (∀ c, c ∈ s → c ≠ "010" ∧ c ≠ NUL) as Hall'.
  { intros c Hc%list_elem_of_In%Hall.
    apply andb_true_iff in Hc as [H1 H2].
    apply negb_true_iff in H1, H2.
    by apply Ascii.eqb_neq in H1, H2. }
  split; [done|]. split; [|split; [|split]].
  - intros Hin. by destruct (Hall' _ Hin).
  - intros Hin. by destruct (Hall' _ Hin).
  - intros c Hc. rewrite Hc in Hhd. by apply negb_true_iff.
  - intros c Hc. rewrite Hc in Hlast. by apply negb_true_iff.
Qed.

Lemma storable_name_inv s :
  storable_name s = true →
  storable s = true ∧ ("=" ∉ s) ∧ head s ≠ Some "#".
Proof.
  unfold storable_name. rewrite !andb_true_iff, negb_true_iff.
  intros [[Hs Hall] Hhd]. apply bool_decide_eq_false in Hhd.
  split; [done|]. split; [|done].
  rewrite forallb_forall in Hall.
  intros Hin%list_elem_of_In%Hall. by rewrite Ascii.eqb_refl in Hin.
Qed.

(** A written line is read back as the pair it was written from. *)
Lemma spec_parse_entry_line k v :
  storable_name k = true → storable v = true →
  spec_parse_line (entry_line (k, v)) = Some (k, v).
Proof.
  intros (Hk & Heq & Hhash)%storable_name_inv Hv.
  apply storable_inv in Hk as (Hk_ne & _ & _ & Hk_hd & Hk_last).
  apply storable_inv in Hv as (Hv_ne & _ & _ & Hv_hd & Hv_last).
  unfold spec_parse_line, entry_line. cbn [fst snd].
  assert (head (k ++ "=" :: v) = head k) as Hhd.
  { by destruct k. }
  assert (last (k ++ "=" :: v) = last v) as Hlast.
  { rewrite last_app, last_cons. by destruct (last v) eqn:E;
      [|apply last_None in E]. }
  rewrite g_strstrip_id.
  2: { intros c. rewrite Hhd. apply Hk_hd. }
  2: { intros c. rewrite Hlast. apply Hv_last. }
  rewrite bool_decide_eq_false_2 by (by destruct k).
  rewrite Hhd, bool_decide_eq_false_2 by done. cbn [orb].
  assert (cut_at_first "=" (k ++ "=" :: v) = Some (k, v)) as ->
    by (by apply cut_at_first_Some).
  rewrite !g_strstrip_id by done.
  by rewrite !bool_decide_eq_true_2.
Qed.

Lemma entry_line_no_newline node :
  storable_node node → "010" ∉ entry_line node.
Proof.
  destruct node as [k v].
  intros [(Hk & _)%storable_name_inv Hv]. cbn [fst snd] in *.
  apply storable_inv in Hk as (_ & Hk & _), Hv as (_ & Hv & _).
  unfold entry_line. cbn [fst snd].
  rewrite elem_of_app, elem_of_cons. intros [?|[?|?]]; done.
Qed.

Lemma entry_line_c_string node :
  storable_node node → c_string (entry_line node).
Proof.
  destruct node as [k v].
  intros [(Hk & _)%storable_name_inv Hv]. cbn [fst snd] in *.
  apply storable_inv in Hk as (_ & _ & Hk & _), Hv as (_ & _ & Hv & _).
  unfold entry_line, c_string in *. cbn [fst snd].
  rewrite elem_of_app, elem_of_cons. intros [?|[?|?]]; done.
Qed.

(** The lines of the written entries. *)
Lemma split_tokens_entries nodes :
  Forall storable_node nodes →
  split_tokens "010" None
    (concat (map (λ n, entry_line n ++ ["010"]) nodes))
  = map entry_line nodes ++ [[]].
Proof.
  induction 1 as [|n nodes Hn _ IH]; [done|].
  cbn [map concat]. rewrite <- app_assoc. cbn [app].
  rewrite split_tokens_cut_all by (by apply entry_line_no_newline).
  by rewrite IH.
Qed.

Lemma omap_parse_entries nodes :
  Forall storable_node nodes →
  omap spec_parse_line (map entry_line nodes) = nodes.
Proof.
  induction 1 as [|[k v] nodes [Hk Hv] _ IH]; [done|].
  cbn [map omap list_omap]. rewrite spec_parse_entry_line by done.
  by rewrite IH.
Qed.

Lemma saved_content_c_string nodes :
  Forall storable_node nodes →
  c_string (save_header
            ++ concat (map (λ n, entry_line n ++ ["010"]) nodes)).
Proof.
  intros Hall. apply c_string_app. split.
  - apply (bool_decide_unpack _). vm_compute. reflexivity.
  - induction Hall as [|n nodes Hn _ IH]; [by intros ?%elem_of_nil|].
    cbn [map concat]. apply c_string_app. split; [|done].
    apply c_string_app. split; [by apply entry_line_c_string|].
    apply (bool_decide_unpack _). vm_compute. reflexivity.
Qed.

Lemma split_tokens_header body :
  split_tokens "010" None (save_header ++ body)
  = lit "# MATE UI Accelerator Map"
    :: lit "# Format: action_name=accelerator"
    :: [] :: split_tokens "010" None body.
Proof.
  replace (save_header ++ body) with
    (lit "# MATE UI Accelerator Map"
     ++ "010" :: (lit "# Format: action_name=accelerator"
                  ++ "010" :: ([] ++ "010" :: body))) by reflexivity.
  rewrite (split_tokens_cut_all "010" (lit "# MATE UI Accelerator Map")).
  2: { apply (bool_decide_unpack _). vm_compute. reflexivity. }
  rewrite (split_tokens_cut_all "010"
             (lit "# Format: action_name=accelerator")).
  2: { apply (bool_decide_unpack _). vm_compute. reflexivity. }
  rewrite (split_tokens_cut_all "010" []).
  2: { by intros ?%elem_of_nil. }
  done.
Qed.

(** What is read back from the written contents. *)
Lemma spec_pairs_saved nodes :
  Forall storable_node nodes →
  spec_pairs (save_header
              ++ concat (map (λ n, entry_line n ++ ["010"]) nodes))
  = nodes.
Proof.
  intros Hall. unfold spec_pairs. rewrite <- g_strsplit_lines.
  unfold g_strsplit. change (-1 <? 1)%Z with true. cbv iota.
  destruct (save_header ++ _) as [|c s] eqn:E; [done|]. rewrite <- E.
  rewrite split_tokens_header, split_tokens_entries by done.
  cbn [omap list_omap].
  change (spec_parse_line (lit "# MATE UI Accelerator Map")) with
    (@None (list ascii * list ascii)).
  change (spec_parse_line (lit "# Format: action_name=accelerator")) with
    (@None (list ascii * list ascii)).
  change (spec_parse_line []) with (@None (list ascii * list ascii)).
  cbv iota. rewrite omap_app, omap_parse_entries by done.
  cbn. by rewrite app_nil_r.
Qed.

Lemma get_after_set_contents fs f contents :
  fs_writable fs f = true →
  ∃ fs', g_file_set_contents fs f contents = (fs', true)
         ∧ g_file_get_contents fs' f = Some contents.
Proof.
  intros Hw. unfold g_file_set_contents, g_file_get_contents. rewrite Hw.
  eexists. split; [done|]. apply lookup_insert_eq.
Qed.

(** C2. Save/load round trip.  Take an accelerator map whose action
    names and accelerator strings are non-empty, hold no newline (nor,
    being strings, a NUL byte) and neither start nor end with white
    space, and whose action names hold no '=' and do not begin with
    '#'.  Whatever the order in which the
    hash table is walked, saving the map to a file that can be written
    returns TRUE, loading that file into a new map returns TRUE, and the
    loaded map has exactly the entries of the original: the same nodes,
    hence the same accelerator for every action name. *)
Theorem save_load_round_trip
    (order : GHashTable (list ascii) (list ascii)
             → list (list ascii * list ascii))
    (fs : FileSystem) (map : MateUiAccelMap) (filename : list ascii) :
  iteration_order order →
  keys_unique map →
  Forall (λ node, storable_name node.1 = true ∧ storable node.2 = true)
    (accels map) →
  fs_writable fs filename = true →
  ∃ fs' map',
    mate_ui_accel_map_save order fs map (Some filename) = (fs', true)
    ∧ mate_ui_accel_map_load fs' mate_ui_accel_map_new (Some filename)
      = (map', true)
    ∧ accels map' ≡ₚ accels map
    ∧ keys_unique map'
    ∧ ∀ a, mate_ui_accel_map_get map' a = mate_ui_accel_map_get map a.
Proof.
  intros Horder Hu Hall Hw.
  set (nodes := order (accels map)).
  assert (nodes ≡ₚ accels map) as Hperm by apply Horder.
  assert (Forall storable_node nodes) as Hnodes by (by rewrite Hperm).
  assert (NoDup nodes.*1) as Hnd by (by rewrite Hperm).
  unfold mate_ui_accel_map_save. fold nodes. rewrite fold_append_entry.
  destruct (get_after_set_contents fs filename
              (save_header
               ++ concat (List.map (λ n, entry_line n ++ ["010"]) nodes))
              Hw) as (fs' & -> & Hread).
  exists fs', {| accels := nodes |}.
  split; [done|]. split.
  { rewrite (load_readable _ _ _ _ Hread).
    rewrite c_str_id by (by apply saved_content_c_string).
    rewrite spec_pairs_saved by done. f_equal.
    assert (accels (add_pairs mate_ui_accel_map_new nodes) = [] ++ nodes)
      as Hacc by (by apply add_pairs_fresh).
    destruct (add_pairs mate_ui_accel_map_new nodes) as [t].
    cbn in Hacc. by rewrite Hacc. }
  split; [done|]. split; [done|].
  intros [a|]; [|done]. cbn. by apply lookup_permutation.
Qed.

Lemma save_load_round_trip_witness :
  ∃ fs' map',
    mate_ui_accel_map_save reverse sample_fs demo_map (Some (lit "accels"))
    = (fs', true)
    ∧ mate_ui_accel_map_load fs' mate_ui_accel_map_new
        (Some (lit "accels")) = (map', true)
    ∧ accels map' ≡ₚ accels demo_map
    ∧ keys_unique map'
    ∧ ∀ a, mate_ui_accel_map_get map' a
           = mate_ui_accel_map_get demo_map a.
Proof.
  apply save_load_round_trip.
  - intros t. apply reverse_Permutation.
  - apply (bool_decide_unpack _). vm_compute. reflexivity.
  - repeat constructor.
  - reflexivity.
Defined.

(** ** Windows *)

Import Gtk Window WindowSpec WindowSamples.

Lemma init_handlers_recorded box :
  handlers_recorded (mate_ui_window_init box).
Proof. unfold handlers_recorded. cbn. repeat split; try lia. by left. Qed.

(** Binding disconnects what was connected and connects two new
    handlers. *)
Lemma bind_settings_fields window s wk hk mk :
  handlers_recorded window →
  g_type_is_a (g_class s) G_TYPE_SETTINGS = true →
  mate_ui_window_bind_settings window (Some s) wk hk mk
  = with_binding window (Some s) wk hk mk
      (next_handler_id window) (N.succ (next_handler_id window))
      [(next_handler_id window, configure_event);
       (N.succ (next_handler_id window), window_state_event)]
      (N.succ (N.succ (next_handler_id window))).
Proof.
  intros (Hnext & Hc & Hs & Hrec) Hsettings.
  unfold mate_ui_window_bind_settings. rewrite Hsettings.
  assert ((if (0 <? state_handler window)%N
           then g_signal_handler_disconnect
                  (if (0 <? configure_handler window)%N
                   then g_signal_handler_disconnect (handlers window)
                          (configure_handler window)
                   else handlers window) (state_handler window)
           else if (0 <? configure_handler window)%N
                then g_signal_handler_disconnect (handlers window)
                       (configure_handler window)
                else handlers window) = []) as ->; [|done].
  destruct Hrec as [(-> & -> & ->)|(-> & Hc0 & Hs0 & Hne)]; [done|].
  apply N.ltb_lt in Hc0 as ->, Hs0 as ->.
  unfold g_signal_handler_disconnect.
  rewrite filter_cons_False by (cbn; tauto).
  rewrite filter_cons_True by (cbn; congruence).
  rewrite filter_nil.
  rewrite filter_cons_False by (cbn; tauto). done.
Qed.

Lemma bind_handlers_recorded window s wk hk mk :
  handlers_recorded window →
  handlers_recorded (mate_ui_window_bind_settings window s wk hk mk).
Proof.
  intros Hrec. destruct s as [s|]; [|done].
  destruct (g_type_is_a (g_class s) G_TYPE_SETTINGS) eqn:Hs.
  - rewrite bind_settings_fields by done.
    destruct Hrec as (Hnext & _). unfold handlers_recorded. cbn.
    repeat split; try lia. right. repeat split; lia.
  - unfold mate_ui_window_bind_settings. by rewrite Hs.
Qed.

Lemma set_part_handlers_recorded p window x :
  handlers_recorded window → handlers_recorded (set_part p window x).
Proof.
  destruct p; cbn [set_part];
    unfold mate_ui_window_set_menubar, mate_ui_window_set_toolbar,
      mate_ui_window_set_content, mate_ui_window_set_statusbar;
    repeat (case_match; try done).
Qed.




(** C10. [mate_ui_window_set_default_size_from_settings], given a
    settings object, sets the default size of the window from the
    integers stored under [width_key] and [height_key]: the default size
    of the window afterwards has the stored width when it is positive
    and [default_width] when it is not, and the stored height when it is
    positive and [default_height] when it is not, each dimension by
    itself; nothing else of the window changes. *)
Theorem default_size_from_settings
    (backend : gmap (N * list ascii) SettingsValue)
    (window : MateUiWindow) (s : GObject) (wk hk : list ascii)
    (default_width default_height stored_width stored_height : Z) :
  g_type_is_a (g_class s) G_TYPE_SETTINGS = true →
  g_settings_get_int backend s wk = Some stored_width →
  g_settings_get_int backend s hk = Some stored_height →
  ∃ result width height,
    mate_ui_window_set_default_size_from_settings backend window
      (Some s) (Some wk) (Some hk) default_width default_height
    = Some result
    ∧ default_size result = Some (width, height)
    ∧ ((0 < stored_width)%Z → width = stored_width)
    ∧ ((stored_width ≤ 0)%Z → width = default_width)
    ∧ ((0 < stored_height)%Z → height = stored_height)
    ∧ ((stored_height ≤ 0)%Z → height = default_height)
    ∧ result
      = with_window_props window (flags window) (title window)
          (titlebar window) (Some (width, height))
    ∧ mate_ui_window_get_menubar result = mate_ui_window_get_menubar window
    ∧ mate_ui_window_get_toolbar result = mate_ui_window_get_toolbar window
    ∧ mate_ui_window_get_content result = mate_ui_window_get_content window
    ∧ mate_ui_window_get_statusbar result
      = mate_ui_window_get_statusbar window
    ∧ title result = title window
    ∧ titlebar result = titlebar window
    ∧ flags result = flags window
    ∧ handlers result = handlers window
    ∧ settings result = settings window.
Proof.
  intros Hs Hw Hh.
  unfold mate_ui_window_set_default_size_from_settings.
  rewrite Hs, Hw, Hh.
  eexists _,
    (if (stored_width <=? 0)%Z then default_width else stored_width),
    (if (stored_height <=? 0)%Z then default_height else stored_height).
  split; [reflexivity|]. split; [reflexivity|].
  destruct (Z.leb_spec stored_width 0), (Z.leb_spec stored_height 0);
    repeat split; intros; lia || done.
Qed.

Lemma default_size_from_settings_witness :
  ∃ result,
    mate_ui_window_set_default_size_from_settings stored_size
      window_with_content (Some some_settings) (Some (lit "width"))
      (Some (lit "height")) 1024 768
    = Some result
    ∧ default_size result = Some (800%Z, 768%Z)
    ∧ mate_ui_window_get_content result
      = mate_ui_window_get_content window_with_content.
Proof.
  destruct (default_size_from_settings stored_size window_with_content
              some_settings (lit "width") (lit "height") 1024 768 800 0)
    as (result & width & height & Hres & Hsize & Hw & _ & _ & Hh & _
        & _ & _ & Hcontent & _).
  - reflexivity.
  - vm_compute. reflexivity.
  - vm_compute. reflexivity.
  - exists result. split; [exact Hres|]. split; [|exact Hcontent].
    rewrite Hsize, Hw, Hh by lia. reflexivity.
Defined.







(** ** Session inhibitors *)

Import Session SessionSpec SessionSamples.

Lemma get_proxy_result env st :
  (get_session_manager_proxy env st).1 = session_manager env st
  ∧ proxy (get_session_manager_proxy env st).2 = session_manager env st.
Proof.
  unfold get_session_manager_proxy, session_manager.
  by destruct (proxy st) eqn:E.
Qed.

(** Once stored, the proxy stays. *)
Lemma get_proxy_stored env st p :
  proxy st = Some p →
  get_session_manager_proxy env st = (Some p, st).
Proof. intros H. unfold get_session_manager_proxy. by rewrite H. Qed.

(** What the fallback returns, and the proxy it leaves stored. *)
Lemma inhibit_via_dbus_result env app window flags reason st :
  match dbus_acquires env st app window flags reason with
  | Some (p, c) =>
      (inhibit_via_dbus env app window flags reason st).1
      = Some {| Session.app := None; cookie := 0; Session.flags := flags;
                is_dbus := true; dbus_cookie := c |}
      ∧ proxy (inhibit_via_dbus env app window flags reason st).2 = Some p
  | None => (inhibit_via_dbus env app window flags reason st).1 = None
  end.
Proof.
  unfold dbus_acquires, inhibit_via_dbus, bind.
  destruct (get_proxy_result env st) as [Hres Hst].
  destruct (get_session_manager_proxy env st) as [p st1].
  cbn [fst snd] in *. subst p.
  destruct (session_manager env st) as [p|]; [|done].
  unfold emit, ret.
  destruct (env_dbus_inhibit env p _ _ reason _) as [c|]; cbn; done.
Qed.

(** The toolkit path having failed, the claim follows from what the
    fallback returns ([H], an instance of [inhibit_via_dbus_result]). *)
Ltac by_dbus_path H :=
  match type of H with
  | match ?acquired with _ => _ end =>
      destruct acquired as [[?p ?c]|];
      [ let Hres := fresh "Hres" in
        let Hst := fresh "Hst" in
        destruct H as [Hres Hst]; rewrite Hres, Hst;
        split; [split; [done|by intros [_ ?]]|];
        split; [done|]; split; [|done];
        intros ? ? _ [= <- <-]; eexists; split; [done|];
        let Hlater := fresh "Hlater" in
        intros later Hlater; unfold mate_ui_session_uninhibit;
        cbn [is_dbus dbus_cookie]; unfold bind;
        by rewrite (get_proxy_stored _ later _ Hlater)
      | rewrite H; split; [done|]; split; [done|]; done ]
  end.

(** C7. [mate_ui_session_inhibit] (given a reason) returns NULL exactly
    when both acquisition paths fail: the toolkit path (no application
    was given, or the toolkit returned cookie 0) and the D-Bus path (the
    "Inhibit" call returned no result).  When it returns a handle,
    [mate_ui_session_uninhibit], called from then on, releases it by
    the mechanism that acquired it: one [gtk_application_uninhibit]
    with the toolkit's cookie when the toolkit path succeeded, otherwise
    one D-Bus "Uninhibit" call with the cookie of the D-Bus reply.
    [mate_ui_session_uninhibit (NULL)] does nothing. *)
Theorem inhibit_then_uninhibit
    (env : Environment) (app window : option GObject) (flags : N)
    (reason : list ascii) (st : SessionState) :
  let result := mate_ui_session_inhibit env app window flags (Some reason) st in
  (result.1 = None ↔
   toolkit_acquires env app window flags reason = None
   ∧ dbus_acquires env st app window flags reason = None)
  ∧ (∀ a c,
       toolkit_acquires env app window flags reason = Some (a, c) →
       ∃ handle,
         result.1 = Some handle
         ∧ ∀ later,
             mate_ui_session_uninhibit env (Some handle) later
             = (tt, {| proxy := proxy later;
                       calls := calls later
                                ++ [call_gtk_application_uninhibit a c] |}))
  ∧ (∀ p c,
       toolkit_acquires env app window flags reason = None →
       dbus_acquires env st app window flags reason = Some (p, c) →
       ∃ handle,
         result.1 = Some handle
         ∧ ∀ later,
             proxy later = proxy result.2 →
             mate_ui_session_uninhibit env (Some handle) later
             = (tt, {| proxy := proxy later;
                       calls := calls later
                                ++ [call_dbus_uninhibit p c] |}))
  ∧ (∀ later, mate_ui_session_uninhibit env None later = (tt, later)).
Proof.
  intros result.
  pose proof (inhibit_via_dbus_result env app window flags reason) as Hdbus.
  subst result. unfold mate_ui_session_inhibit, toolkit_acquires.
  destruct app as [a|].
  2: { specialize (Hdbus st). by_dbus_path Hdbus. }
  destruct (g_type_is_a (g_class a) GTK_TYPE_APPLICATION).
  2: { specialize (Hdbus st). by_dbus_path Hdbus. }
  unfold bind, emit.
  destruct (env_gtk_application_inhibit env a window
              (gtk_inhibit_flags flags) reason =? 0)%N eqn:Hc; cbn [negb].
  - set (st1 := {| proxy := proxy st; calls := _ |}).
    assert (dbus_acquires env st1 (Some a) window flags reason
            = dbus_acquires env st (Some a) window flags reason) as Hsame
      by done.
    specialize (Hdbus st1). rewrite Hsame in Hdbus.
    by_dbus_path Hdbus.
  - cbn [fst snd ret]. split; [split; [done|by intros [? _]]|].
    split; [|done]. intros a' c' [= <- <-]. eexists. split; [done|].
    intros later. done.
Qed.

Lemma inhibit_then_uninhibit_witness :
  ∃ handle,
    (mate_ui_session_inhibit dbus_only (Some an_app) None 4
       (Some (lit "writing a disc")) start).1 = Some handle
    ∧ ∀ later,
        proxy later
        = proxy (mate_ui_session_inhibit dbus_only (Some an_app) None 4
                   (Some (lit "writing a disc")) start).2 →
        mate_ui_session_uninhibit dbus_only (Some handle) later
        = (tt, {| proxy := proxy later;
                  calls := calls later ++ [call_dbus_uninhibit a_proxy 7] |}).
Proof.
  destruct (inhibit_then_uninhibit dbus_only (Some an_app) None 4
              (lit "writing a disc") start) as (_ & _ & Hdbus & _).
  apply (Hdbus a_proxy 7%N); reflexivity.
Defined.

(** ** Menu models *)

Import Menu MenuSpec MenuSamples.

Lemma c_str_app_NUL (s rest : list ascii) :
  c_string s → c_str (s ++ NUL :: rest) = s.
Proof.
  unfold c_string. induction s as [|c s IH]; intros Hs; [done|].
  apply not_elem_of_cons in Hs as [Hc Hs]. cbn.
  destruct (Ascii.eqb_spec c NUL); [congruence|]. by rewrite IH.
Qed.

Lemma without_underscores_c_string s :
  c_string s → c_string (without_underscores s).
Proof.
  unfold c_string, without_underscores. intros Hs Hin.
  apply list_elem_of_filter in Hin as [_ Hin]. done.
Qed.

Lemma without_underscores_skip s :
  without_underscores ("_" :: s) = without_underscores s.
Proof. unfold without_underscores. by rewrite filter_cons_False by tauto. Qed.

Lemma without_underscores_keep c s :
  c ≠ "_" → without_underscores (c :: s) = c :: without_underscores s.
Proof. intros ?. unfold without_underscores. by rewrite filter_cons_True. Qed.

(** The compaction loop, started with [done] already written, a gap of
    stale bytes behind it and [rest] still to read. *)
Lemma lookup_past_written (written gap rest : list ascii) :
  (written ++ gap ++ rest) !! (length written + length gap) = head rest.
Proof.
  rewrite lookup_app_r by lia. rewrite lookup_app_r by lia.
  replace (length written + length gap - length written - length gap)
    with 0 by lia.
  by destruct rest.
Qed.

Lemma insert_at_written (written gap rest : list ascii) c :
  <[length written := c]> (written ++ gap ++ c :: rest)
  = (written ++ [c]) ++ tail (gap ++ [c]) ++ rest.
Proof.
  rewrite insert_app_r_alt by lia. rewrite Nat.sub_diag.
  rewrite <- app_assoc. f_equal.
  destruct gap as [|g gap]; cbn; [done|]. by rewrite <- app_assoc.
Qed.

Lemma remove_mnemonic_loop_spec rest :
  c_string rest →
  ∀ fuel written gap,
    length rest < fuel →
    ∃ gap',
      remove_mnemonic_loop fuel (written ++ gap ++ rest ++ [NUL])
        (length written + length gap) (length written)
      = Some (written ++ without_underscores rest ++ gap' ++ [NUL],
              length written + length (without_underscores rest)).
Proof.
  unfold c_string.
  induction rest as [|c rest IH]; intros Hrest fuel written gap Hfuel;
    (destruct fuel as [|fuel]; [cbn in Hfuel; lia|]);
    cbn [remove_mnemonic_loop]; rewrite lookup_past_written.
  - exists gap. cbn. by rewrite Nat.add_0_r.
  - apply not_elem_of_cons in Hrest as [Hc Hrest]. cbn in Hfuel.
    change ((c :: rest) ++ [NUL]) with (c :: (rest ++ [NUL])).
    change (head (c :: (rest ++ [NUL]))) with (Some c). cbv iota beta.
    destruct (Ascii.eqb_spec c NUL) as [|_]; [congruence|].
    destruct (Ascii.eqb_spec c "_") as [->|Hu]; cbn [negb].
    + rewrite without_underscores_skip.
      destruct (IH Hrest fuel written (gap ++ ["_"])) as (gap' & Heq);
        [lia|].
      exists gap'. rewrite <- Heq. rewrite length_app. cbn [length].
      f_equal; [|lia]. by rewrite <- !app_assoc.
    + rewrite without_underscores_keep by done.
      destruct (IH Hrest fuel (written ++ [c]) (tail (gap ++ [c])))
        as (gap' & Heq); [lia|].
      exists gap'. rewrite insert_at_written.
      assert (length (written ++ [c]) = S (length written)) as Hw
        by (rewrite length_app; cbn; lia).
      assert (length (tail (gap ++ [c])) = length gap) as Hg
        by (destruct gap; cbn; rewrite ?length_app; cbn; lia).
      rewrite Hw, Hg in Heq. cbn [Nat.add] in Heq. rewrite Heq.
      cbn [length]. rewrite Nat.add_succ_r. f_equal.
      by rewrite <- !app_assoc.
Qed.

(** The loop of the source removes every '_' of the label. *)
Lemma remove_mnemonic_spec l :
  c_string l → remove_mnemonic (Some l) = Some (without_underscores l).
Proof.
  intros Hl. unfold remove_mnemonic, g_strdup. rewrite (c_str_id _ Hl).
  destruct (remove_mnemonic_loop_spec l Hl (length (l ++ [NUL])) [] [])
    as (gap' & Heq).
  { rewrite length_app. cbn. lia. }
  change ([] ++ [] ++ l ++ [NUL]) with (l ++ [NUL]) in Heq.
  change (length [] + length []) with 0 in Heq.
  change (length (@nil ascii)) with 0 in Heq.
  rewrite Heq. cbn [app Nat.add]. f_equal.
  change ([] ++ without_underscores l ++ gap' ++ [NUL])
    with (without_underscores l ++ gap' ++ [NUL]).
  rewrite insert_app_r_alt by lia. rewrite Nat.sub_diag.
  destruct gap' as [|g gap'];
    apply c_str_app_NUL, without_underscores_c_string, Hl.
Qed.

Lemma append_item_spec items e :
  entry_ok e →
  append_item (Some items) e = Some (items ++ [spec_item e]).
Proof.
  unfold entry_ok, append_item, spec_item.
  destruct (label e) as [l|].
  - intros Hl. by rewrite remove_mnemonic_spec.
  - by intros ->.
Qed.

Lemma fold_append_item_spec es items :
  Forall entry_ok es →
  fold_left append_item es (Some items)
  = Some (items ++ (spec_item <$> es)).
Proof.
  intros Hes. revert items.
  induction Hes as [|e es He _ IH]; intros items.
  - by rewrite app_nil_r.
  - cbn [fold_left]. rewrite append_item_spec by done.
    rewrite IH, fmap_cons. by rewrite <- app_assoc.
Qed.

Lemma append_submenu_spec subs sm :
  submenu_ok sm →
  append_submenu (Some subs) sm = Some (subs ++ [spec_submenu sm]).
Proof.
  intros [(l & Hl & Hstr) Hes]. unfold append_submenu, spec_submenu.
  rewrite fold_append_item_spec by done. rewrite Hl.
  by rewrite remove_mnemonic_spec.
Qed.

Lemma fold_append_submenu_spec sms subs :
  Forall submenu_ok sms →
  fold_left append_submenu sms (Some subs)
  = Some (subs ++ (spec_submenu <$> sms)).
Proof.
  intros Hsms. revert subs.
  induction Hsms as [|sm sms Hsm _ IH]; intros subs.
  - by rewrite app_nil_r.
  - cbn [fold_left]. rewrite append_submenu_spec by done.
    rewrite IH, fmap_cons. by rewrite <- app_assoc.
Qed.

(** C9. [mate_ui_menu_model_new_from_entries], on tables whose entries
    are separators or have a label and whose submenus have a label,
    returns a model in which the label of every item, and of every
    submenu, is the label of its entry with every '_' removed
    ([spec_submenu], [spec_item]): no '_' is left in a label, and a
    doubled underscore is deleted entirely, not turned into one. *)
Theorem menu_model_labels (submenus : list MateUiSubmenu) :
  Forall submenu_ok submenus →
  mate_ui_menu_model_new_from_entries submenus
  = Some (spec_submenu <$> submenus)
  ∧ (∀ l, c_string l →
          remove_mnemonic (Some l) = Some (without_underscores l)
          ∧ "_" ∉ without_underscores l)
  ∧ (∀ before after,
       c_string before → c_string after →
       remove_mnemonic (Some (before ++ lit "__" ++ after))
       = remove_mnemonic (Some (before ++ after))).
Proof.
  intros Hok. split.
  { unfold mate_ui_menu_model_new_from_entries.
    by rewrite fold_append_submenu_spec. }
  split.
  - intros l Hl. split; [by apply remove_mnemonic_spec|].
    unfold without_underscores. by intros [? _]%list_elem_of_filter.
  - intros before after Hb Ha.
    rewrite !remove_mnemonic_spec.
    + unfold without_underscores. rewrite !filter_app. by f_equal.
    + apply c_string_app. done.
    + apply c_string_app. split; [done|]. apply c_string_app.
      split; [|done]. apply (bool_decide_unpack _). vm_compute. reflexivity.
Qed.

Lemma menu_model_labels_witness :
  mate_ui_menu_model_new_from_entries [file_menu]
  = Some (spec_submenu <$> [file_menu]).
Proof.
  apply menu_model_labels.
  repeat constructor;
    try (eexists; split; [reflexivity|]);
    try (apply (bool_decide_unpack _); vm_compute; reflexivity).
Defined.

(** ** The embedding at work *)

Example g_strsplit_two_tokens :
  g_strsplit (lit "a=b=c") "=" 2 = [lit "a"; lit "b=c"].
Proof. reflexivity. Qed.

Example g_strsplit_no_delimiter :
  g_strsplit (lit "abc") "=" 2 = [lit "abc"].
Proof. reflexivity. Qed.

Example g_strsplit_trailing_newline :
  g_strsplit (lit "a" ++ ["010"] ++ lit "b" ++ ["010"]) "010" (-1)
  = [lit "a"; lit "b"; []].
Proof. reflexivity. Qed.

Example g_strstrip_both_ends :
  g_strstrip (["009"] ++ lit "  a b " ++ ["013"]) = lit "a b".
Proof. reflexivity. Qed.

Example sample_text_pairs :
  spec_pairs sample_text
  = [(lit "win.save", lit "<Control><Shift>s");
     (lit "win.close", lit "<Control>w=")].
Proof. vm_compute. reflexivity. Qed.

Example load_sample_text :
  mate_ui_accel_map_load sample_fs demo_map (Some (lit "accels"))
  = ({| accels := [(lit "app.quit", lit "<Control>q");
                   (lit "win.save", lit "<Control><Shift>s");
                   (lit "win.close", lit "<Control>w=")] |}, true).
Proof. vm_compute. reflexivity. Qed.

Example remove_doubled_underscore :
  remove_mnemonic (Some (lit "snake__case")) = Some (lit "snakecase").
Proof. vm_compute. reflexivity. Qed.

(** An entry with an action and no label makes the loop read through a
    NULL pointer. *)
Example label_missing :
  mate_ui_menu_model_new_from_entries
    [{| submenu_label := Some (lit "_File");
        entries := [{| label := None; action_name := Some (lit "app.open");
                       accel := None; icon_name := None |}] |}]
  = None.
Proof. reflexivity. Qed.

Example toolkit_path_first :
  (mate_ui_session_inhibit toolkit_works (Some an_app) None 4
     (Some (lit "writing a disc")) start).1
  = Some {| Session.app := Some an_app; cookie := 3; Session.flags := 4;
            is_dbus := false; dbus_cookie := 0 |}.
Proof. reflexivity. Qed.

Example no_reason_no_inhibitor :
  mate_ui_session_inhibit toolkit_works (Some an_app) None 4 None start
  = (None, start).
Proof. reflexivity. Qed.

(** * Further properties *)

(** ** The accelerator map: updates, removal, tables *)

Import AccelSpec2 AccelApp.

Section MoreTable.
Context {V : Type}.
Implicit Types (t : GHashTable (list ascii) V) (k : list ascii) (v : V).

Lemma insert_insert_same t k v1 v2 :
  g_hash_table_insert g_str_equal (g_hash_table_insert g_str_equal t k v1)
    k v2
  = g_hash_table_insert g_str_equal t k v2.
Proof.
  induction t as [|[k' v'] t IH]; cbn.
  - by rewrite g_str_equal_refl.
  - destruct (g_str_equal k' k) eqn:E; cbn; rewrite E; [done|].
    by rewrite IH.
Qed.

Lemma remove_absent t k :
  k ∉ t.*1 → g_hash_table_remove g_str_equal t k = t.
Proof.
  induction t as [|[k' v'] t IH]; cbn; [done|].
  intros [Hne Hnin]%not_elem_of_cons.
  rewrite g_str_equal_ne by congruence. by rewrite IH.
Qed.

Lemma remove_insert_fresh t k v :
  k ∉ t.*1 →
  g_hash_table_remove g_str_equal (g_hash_table_insert g_str_equal t k v) k
  = t.
Proof.
  induction t as [|[k' v'] t IH]; cbn.
  - by rewrite g_str_equal_refl.
  - intros [Hne Hnin]%not_elem_of_cons.
    rewrite g_str_equal_ne by congruence. cbn.
    rewrite g_str_equal_ne by congruence. by rewrite IH.
Qed.

Lemma remove_present_length t k :
  k ∈ t.*1 →
  S (length (g_hash_table_remove g_str_equal t k)) = length t.
Proof.
  induction t as [|[k' v'] t IH]; cbn; [by intros ?%elem_of_nil|].
  intros Hin. destruct (g_str_equal k' k) eqn:E; [done|]. cbn.
  f_equal. apply IH. apply elem_of_cons in Hin as [->|?]; [|done].
  by rewrite g_str_equal_refl in E.
Qed.

(** Two tables with the same sequence of keys, unique, and the same
    lookups are the same table. *)
Lemma table_ext t1 t2 :
  NoDup t1.*1 → t1.*1 = t2.*1 →
  (∀ k, g_hash_table_lookup g_str_equal t1 k
        = g_hash_table_lookup g_str_equal t2 k) →
  t1 = t2.
Proof.
  revert t2. induction t1 as [|[k1 v1] t1 IH]; intros [|[k2 v2] t2];
    try done.
  cbn. intros [Hk1 Hnd]%NoDup_cons [= <- Hkeys] Hlook.
  pose proof (Hlook k1) as H1. cbn in H1.
  rewrite g_str_equal_refl in H1. injection H1 as <-.
  f_equal. apply IH; [done|done|]. intros k. specialize (Hlook k).
  cbn in Hlook. destruct (g_str_equal k1 k) eqn:E; [|done].
  apply g_str_equal_eq in E as <-.
  assert (g_hash_table_lookup g_str_equal t1 k1 = None) as ->
    by (by apply lookup_None_keys).
  symmetry. apply lookup_None_keys. by rewrite <- Hkeys.
Qed.

End MoreTable.

(** X1. Adding under a name twice keeps the second accelerator only: the
    map is the one the second [mate_ui_accel_map_add] alone would give.
    Adding under two different names gives the same lookups in either
    order. *)
Theorem add_overrides_and_commutes
    (map : MateUiAccelMap) (a b s1 s2 : list ascii) :
  mate_ui_accel_map_add
    (mate_ui_accel_map_add map (Some a) (Some s1)) (Some a) (Some s2)
  = mate_ui_accel_map_add map (Some a) (Some s2)
  ∧ (a ≠ b →
     ∀ c,
       mate_ui_accel_map_get
         (mate_ui_accel_map_add
            (mate_ui_accel_map_add map (Some a) (Some s1))
            (Some b) (Some s2)) c
       = mate_ui_accel_map_get
           (mate_ui_accel_map_add
              (mate_ui_accel_map_add map (Some b) (Some s2))
              (Some a) (Some s1)) c).
Proof.
  split.
  - unfold mate_ui_accel_map_add. cbn. by rewrite insert_insert_same.
  - intros Hne c. destruct (decide (c = Some a)) as [->|Ha].
    + rewrite get_add_other by congruence. by rewrite !get_add_same.
    + destruct (decide (c = Some b)) as [->|Hb].
      * rewrite get_add_same, get_add_other by congruence.
        by rewrite get_add_same.
      * by rewrite !get_add_other.
Qed.

Lemma add_overrides_and_commutes_witness :
  mate_ui_accel_map_get
    (mate_ui_accel_map_add
       (mate_ui_accel_map_add demo_map (Some (lit "a")) (Some (lit "F1")))
       (Some (lit "b")) (Some (lit "F2"))) (Some (lit "a"))
  = mate_ui_accel_map_get
      (mate_ui_accel_map_add
         (mate_ui_accel_map_add demo_map (Some (lit "b"))
            (Some (lit "F2")))
         (Some (lit "a")) (Some (lit "F1"))) (Some (lit "a")).
Proof.
  apply (add_overrides_and_commutes demo_map (lit "a") (lit "b")
           (lit "F1") (lit "F2")).
  apply (bool_decide_unpack _). vm_compute. reflexivity.
Defined.

(** X2. [mate_ui_accel_map_remove] touches one name only.  The
    accelerator of every other name is unchanged; removing a name the
    map does not hold leaves the map as it is; removing a name it holds
    takes exactly one entry away; and removing a name just added under a
    new name gives the map back. *)
Theorem remove_one_name (map : MateUiAccelMap) (a : list ascii) :
  (∀ b, b ≠ Some a →
        mate_ui_accel_map_get (mate_ui_accel_map_remove map (Some a)) b
        = mate_ui_accel_map_get map b)
  ∧ (mate_ui_accel_map_get map (Some a) = None →
     mate_ui_accel_map_remove map (Some a) = map
     ∧ ∀ s, mate_ui_accel_map_remove
              (mate_ui_accel_map_add map (Some a) (Some s)) (Some a)
            = map)
  ∧ (is_Some (mate_ui_accel_map_get map (Some a)) →
     S (length (accels (mate_ui_accel_map_remove map (Some a))))
     = length (accels map)).
Proof.
  split; [|split].
  - intros [b|] Hne; [|done]. cbn. apply lookup_remove_other. congruence.
  - intros Hnone. apply lookup_None_keys in Hnone.
    destruct map as [t]. cbn in *. split.
    + by rewrite remove_absent.
    + intros s. unfold mate_ui_accel_map_remove, mate_ui_accel_map_add.
      cbn. by rewrite remove_insert_fresh.
  - intros Hsome. cbn. apply remove_present_length.
    destruct (decide (a ∈ (accels map).*1)) as [|Hnin]; [done|].
    apply lookup_None_keys in Hnin. cbn in Hsome. rewrite Hnin in Hsome.
    by destruct Hsome.
Qed.

Lemma remove_one_name_witness :
  mate_ui_accel_map_get
    (mate_ui_accel_map_remove demo_map (Some (lit "win.save")))
    (Some (lit "app.quit"))
  = mate_ui_accel_map_get demo_map (Some (lit "app.quit"))
  ∧ mate_ui_accel_map_remove demo_map (Some (lit "win.open")) = demo_map
  ∧ S (length (accels (mate_ui_accel_map_remove demo_map
                         (Some (lit "win.save")))))
    = length (accels demo_map).
Proof.
  destruct (remove_one_name demo_map (lit "win.save"))
    as (Hother & _ & Hlen).
  destruct (remove_one_name demo_map (lit "win.open"))
    as (_ & Habsent & _).
  split; [|split].
  - apply Hother. discriminate.
  - apply Habsent. reflexivity.
  - apply Hlen. eexists. reflexivity.
Defined.

(** ** The last pair wins *)

Lemma add_entries_entry_pairs map es :
  mate_ui_accel_map_add_entries map es = add_pairs map (entry_pairs es).
Proof.
  unfold mate_ui_accel_map_add_entries, entry_pairs. revert map.
  induction es as [|[a s] es IH]; intros map; [done|].
  cbn [fold_left Accel.action_name Accel.accel omap list_omap]. rewrite IH.
  by destruct a as [a|], s as [s|].
Qed.

Lemma get_add_pairs map pairs a :
  mate_ui_accel_map_get (add_pairs map pairs) (Some a)
  = match last_pair pairs a with
    | Some s => Some s
    | None => mate_ui_accel_map_get map (Some a)
    end.
Proof.
  revert map. induction pairs as [|[k v] pairs IH]; intros map; [done|].
  rewrite add_pairs_cons, IH. cbn [last_pair fst snd].
  destruct (last_pair pairs a) as [s|]; [done|].
  case_bool_decide as Hk.
  - subst k. apply get_add_same.
  - apply get_add_other. congruence.
Qed.

Lemma last_pair_None pairs a : last_pair pairs a = None ↔ a ∉ pairs.*1.
Proof.
  induction pairs as [|[k v] pairs IH]; cbn.
  - split; [by intros _ ?%elem_of_nil|done].
  - rewrite not_elem_of_cons. destruct (last_pair pairs a) as [s|].
    + split; [done|]. intros [_ H]. by apply IH in H.
    + case_bool_decide; split; try done.
      * by intros [? _].
      * intros _. split; [congruence|by apply IH].
Qed.

Lemma last_pair_lookup pairs a :
  NoDup pairs.*1 →
  last_pair pairs a = g_hash_table_lookup g_str_equal pairs a.
Proof.
  induction pairs as [|[k v] pairs IH]; cbn; [done|].
  intros [Hk Hnd]%NoDup_cons. rewrite (IH Hnd).
  destruct (decide (k = a)) as [->|Hka].
  - rewrite g_str_equal_refl, bool_decide_eq_true_2 by done.
    by assert (g_hash_table_lookup g_str_equal pairs a = None) as ->
      by (by apply lookup_None_keys).
  - rewrite (g_str_equal_ne _ _ Hka), bool_decide_eq_false_2 by done.
    by destruct (g_hash_table_lookup g_str_equal pairs a).
Qed.

(** Adding pairs whose names are all present changes no name. *)
Lemma add_pairs_present_keys map pairs :
  pairs.*1 ⊆ (accels map).*1 →
  (accels (add_pairs map pairs)).*1 = (accels map).*1.
Proof.
  revert map. induction pairs as [|[k v] pairs IH]; intros map Hsub;
    [done|].
  rewrite add_pairs_cons. cbn [fst snd].
  assert ((accels (mate_ui_accel_map_add map (Some k) (Some v))).*1
          = (accels map).*1) as Hkeys.
  { apply insert_present_keys. apply Hsub. left. }
  rewrite IH; [done|]. rewrite Hkeys. intros x Hx. apply Hsub. by right.
Qed.

Lemma add_pairs_keys_superset map pairs :
  pairs.*1 ⊆ (accels (add_pairs map pairs)).*1.
Proof.
  intros a Ha. apply dec_stable. intros Hnin.
  apply (lookup_None_keys (accels (add_pairs map pairs)) a) in Hnin.
  change (mate_ui_accel_map_get (add_pairs map pairs) (Some a) = None)
    in Hnin.
  rewrite get_add_pairs in Hnin.
  destruct (last_pair pairs a) eqn:E; [done|].
  by apply last_pair_None in E.
Qed.

Lemma add_pairs_twice map pairs :
  keys_unique map →
  add_pairs (add_pairs map pairs) pairs = add_pairs map pairs.
Proof.
  intros Hu.
  assert (accels (add_pairs (add_pairs map pairs) pairs)
          = accels (add_pairs map pairs)) as Hacc.
  { apply table_ext.
    - by apply add_pairs_keys_unique, add_pairs_keys_unique.
    - apply add_pairs_present_keys, add_pairs_keys_superset.
    - intros k.
      change (mate_ui_accel_map_get
                (add_pairs (add_pairs map pairs) pairs) (Some k)
              = mate_ui_accel_map_get (add_pairs map pairs) (Some k)).
      rewrite !get_add_pairs. by destruct (last_pair pairs k). }
  destruct (add_pairs (add_pairs map pairs) pairs) as [t1],
    (add_pairs map pairs) as [t2]. cbn in Hacc. by rewrite Hacc.
Qed.

(** X3. [mate_ui_accel_map_add_entries]: for every action name, the
    accelerator afterwards is that of the last entry of the table that
    has this name (and an accelerator), and the accelerator the map had
    when no entry has it; entries lacking a name or an accelerator are
    skipped; and adding a table in two pieces is adding the whole
    table. *)
Theorem add_entries_last_wins
    (map : MateUiAccelMap) (es es' : list MateUiAccelEntry)
    (a : list ascii) :
  mate_ui_accel_map_get (mate_ui_accel_map_add_entries map es) (Some a)
  = match last_pair (entry_pairs es) a with
    | Some s => Some s
    | None => mate_ui_accel_map_get map (Some a)
    end
  ∧ mate_ui_accel_map_add_entries map (es ++ es')
    = mate_ui_accel_map_add_entries
        (mate_ui_accel_map_add_entries map es) es'
  ∧ mate_ui_accel_map_add_entries map
      (es ++ [{| Accel.action_name := None; Accel.accel := Some a |};
              {| Accel.action_name := Some a; Accel.accel := None |}])
    = mate_ui_accel_map_add_entries map es.
Proof.
  split; [|split].
  - by rewrite add_entries_entry_pairs, get_add_pairs.
  - unfold mate_ui_accel_map_add_entries. apply fold_left_app.
  - unfold mate_ui_accel_map_add_entries. by rewrite fold_left_app.
Qed.

(** X4. Loading a file twice is loading it once: on a map with unique
    action names, a second [mate_ui_accel_map_load] of the same file
    changes nothing. *)
Theorem load_twice
    (fs : FileSystem) (map : MateUiAccelMap)
    (filename : option (list ascii)) :
  keys_unique map →
  mate_ui_accel_map_load fs (mate_ui_accel_map_load fs map filename).1
    filename
  = mate_ui_accel_map_load fs map filename.
Proof.
  intros Hu. destruct filename as [f|]; [|done].
  destruct (g_file_get_contents fs f) as [contents|] eqn:Hread.
  - rewrite !(load_readable _ _ _ _ Hread). cbn [fst].
    by rewrite add_pairs_twice.
  - unfold mate_ui_accel_map_load. by rewrite Hread.
Qed.

Lemma load_twice_witness :
  mate_ui_accel_map_load sample_fs
    (mate_ui_accel_map_load sample_fs demo_map (Some (lit "accels"))).1
    (Some (lit "accels"))
  = mate_ui_accel_map_load sample_fs demo_map (Some (lit "accels")).
Proof.
  apply load_twice. apply (bool_decide_unpack _). vm_compute. reflexivity.
Defined.

(** ** Files in pieces *)

Lemma split_tokens_app_newline s1 s2 :
  split_tokens "010" None (s1 ++ "010" :: s2)
  = split_tokens "010" None s1 ++ split_tokens "010" None s2.
Proof.
  induction s1 as [|c s1 IH]; cbn.
  - done.
  - rewrite IH. destruct (Ascii.eqb c "010"); [done|].
    destruct (split_tokens "010" None s1) eqn:E; [|done].
    by apply split_tokens_nonempty in E.
Qed.

Lemma spec_pairs_split_tokens text :
  spec_pairs text = omap spec_parse_line (split_tokens "010" None text).
Proof.
  unfold spec_pairs. rewrite <- g_strsplit_lines.
  by destruct text.
Qed.

Lemma spec_pairs_app_newline s1 s2 :
  spec_pairs (s1 ++ "010" :: s2) = spec_pairs s1 ++ spec_pairs s2.
Proof.
  rewrite !spec_pairs_split_tokens, split_tokens_app_newline.
  apply omap_app.
Qed.

Lemma c_str_app s1 s2 : c_string s1 → c_str (s1 ++ s2) = s1 ++ c_str s2.
Proof.
  unfold c_string. induction s1 as [|c s1 IH]; [done|].
  intros [Hc Hs]%not_elem_of_cons. cbn.
  destruct (Ascii.eqb_spec c NUL); [congruence|]. by rewrite IH.
Qed.

(** X5. Loading composes over files: when a file holds the text of a
    first file, a newline, and the contents of a second file, loading it
    gives the map that loading the first file and then the second
    gives. *)
Theorem load_concatenation
    (fs : FileSystem) (map : MateUiAccelMap)
    (f1 f2 f12 text1 contents2 : list ascii) :
  c_string text1 →
  g_file_get_contents fs f1 = Some text1 →
  g_file_get_contents fs f2 = Some contents2 →
  g_file_get_contents fs f12 = Some (text1 ++ "010" :: contents2) →
  mate_ui_accel_map_load fs map (Some f12)
  = mate_ui_accel_map_load fs
      (mate_ui_accel_map_load fs map (Some f1)).1 (Some f2).
Proof.
  intros Htext H1 H2 H12.
  rewrite (load_readable _ _ _ _ H12), (load_readable _ _ _ _ H1),
    (load_readable _ _ _ _ H2). cbn [fst].
  rewrite c_str_app by done. change (c_str ("010" :: contents2))
    with ("010" :: c_str contents2).
  rewrite spec_pairs_app_newline, add_pairs_app.
  by rewrite (c_str_id _ Htext).
Qed.

Lemma load_concatenation_witness :
  mate_ui_accel_map_load MoreSamples.three_files demo_map
    (Some (lit "both"))
  = mate_ui_accel_map_load MoreSamples.three_files
      (mate_ui_accel_map_load MoreSamples.three_files demo_map
         (Some (lit "one"))).1 (Some (lit "two")).
Proof.
  apply (load_concatenation MoreSamples.three_files demo_map
           (lit "one") (lit "two") (lit "both")
           MoreSamples.first_text MoreSamples.second_text).
  - apply (bool_decide_unpack _). vm_compute. reflexivity.
  - vm_compute. reflexivity.
  - vm_compute. reflexivity.
  - vm_compute. reflexivity.
Defined.

(** ** Saving into one map, loading into another *)

(** X6. Merging a saved map.  Saving a map (as in C2: non-empty names
    and accelerators without newline or white space at their ends, names
    without '=' and not starting with '#') writes one file and no other;
    loading that file into any other map gives, for every action name,
    the accelerator of the saved map when the saved map has the name,
    and the accelerator the other map had when it has not. *)
Theorem save_then_load_merges
    (order : GHashTable (list ascii) (list ascii)
             → list (list ascii * list ascii))
    (fs : FileSystem) (saved : MateUiAccelMap) (filename : list ascii) :
  iteration_order order →
  keys_unique saved →
  Forall storable_node (accels saved) →
  fs_writable fs filename = true →
  ∃ fs',
    mate_ui_accel_map_save order fs saved (Some filename) = (fs', true)
    ∧ (∀ other_file,
         other_file ≠ filename →
         g_file_get_contents fs' other_file
         = g_file_get_contents fs other_file)
    ∧ ∀ other : MateUiAccelMap,
        ∃ merged,
          mate_ui_accel_map_load fs' other (Some filename) = (merged, true)
          ∧ ∀ a,
              mate_ui_accel_map_get merged (Some a)
              = match mate_ui_accel_map_get saved (Some a) with
                | Some s => Some s
                | None => mate_ui_accel_map_get other (Some a)
                end.
Proof.
  intros Horder Hu Hall Hw.
  set (nodes := order (accels saved)).
  assert (nodes ≡ₚ accels saved) as Hperm by apply Horder.
  assert (Forall storable_node nodes) as Hnodes by (by rewrite Hperm).
  assert (NoDup nodes.*1) as Hnd by (by rewrite Hperm).
  unfold mate_ui_accel_map_save. fold nodes. rewrite fold_append_entry.
  unfold g_file_set_contents. rewrite Hw.
  eexists. split; [done|]. split.
  { intros other_file Hne. unfold g_file_get_contents. cbn [fs_files].
    by apply lookup_insert_ne. }
  intros other. eexists. split.
  { apply load_readable. unfold g_file_get_contents. cbn [fs_files].
    apply lookup_insert_eq. }
  intros a. rewrite c_str_id by (by apply saved_content_c_string).
  rewrite spec_pairs_saved by done. rewrite get_add_pairs.
  rewrite last_pair_lookup by done. cbn [mate_ui_accel_map_get].
  by rewrite (lookup_permutation nodes (accels saved) a Hnd Hperm).
Qed.

Lemma save_then_load_merges_witness :
  ∃ fs',
    mate_ui_accel_map_save reverse sample_fs demo_map (Some (lit "accels"))
    = (fs', true)
    ∧ (∀ other_file,
         other_file ≠ lit "accels" →
         g_file_get_contents fs' other_file
         = g_file_get_contents sample_fs other_file)
    ∧ ∀ other : MateUiAccelMap,
        ∃ merged,
          mate_ui_accel_map_load fs' other (Some (lit "accels"))
          = (merged, true)
          ∧ ∀ a,
              mate_ui_accel_map_get merged (Some a)
              = match mate_ui_accel_map_get demo_map (Some a) with
                | Some s => Some s
                | None => mate_ui_accel_map_get other (Some a)
                end.
Proof.
  apply save_then_load_merges.
  - intros t. apply reverse_Permutation.
  - apply (bool_decide_unpack _). vm_compute. reflexivity.
  - repeat constructor.
  - reflexivity.
Defined.

(** ** Applying a map to an application *)

(** X7. [mate_ui_accel_map_apply_to_app] on an application, for a map
    with unique action names and whatever the order of the hash table:
    it makes one [gtk_application_set_accels_for_action] call per entry
    of the map and no other; the call for an action carries exactly the
    accelerator the map holds for it; and no action gets two calls.  On
    anything that is not a [GtkApplication] it makes no call. *)
Theorem apply_to_app_calls
    (order : GHashTable (list ascii) (list ascii)
             → list (list ascii * list ascii))
    (map : MateUiAccelMap) (app : option GObject) :
  iteration_order order →
  keys_unique map →
  let calls := mate_ui_accel_map_apply_to_app order map app in
  (instance_of app GTK_TYPE_APPLICATION = false → calls = [])
  ∧ (instance_of app GTK_TYPE_APPLICATION = true →
     length calls = length (accels map)
     ∧ NoDup (call_action <$> calls)
     ∧ ∀ action accels,
         {| call_action := action; call_accels := accels |} ∈ calls
         ↔ ∃ a s, action = Some a ∧ accels = [s]
                  ∧ mate_ui_accel_map_get map (Some a) = Some s).
Proof.
  intros Horder Hu calls. subst calls.
  unfold mate_ui_accel_map_apply_to_app.
  split; [by intros ->|]. intros ->.
  set (nodes := order (accels map)).
  assert (nodes ≡ₚ accels map) as Hperm by apply Horder.
  assert (NoDup nodes.*1) as Hnd by (by rewrite Hperm).
  split; [by rewrite length_fmap, Hperm|]. split.
  - rewrite <- list_fmap_compose.
    change (NoDup ((Some ∘ fst) <$> nodes)).
    rewrite list_fmap_compose. apply NoDup_fmap_2; [|done].
    by intros ?? [= ->].
  - intros action accels. rewrite list_elem_of_fmap. split.
    + intros ([a s] & [= -> ->] & Hin). exists a, s.
      repeat split. cbn. rewrite <- (lookup_permutation nodes) by done.
      by apply elem_of_lookup_Some.
    + intros (a & s & -> & -> & Hget). exists (a, s). split; [done|].
      rewrite Hperm. by apply lookup_Some_elem_of.
Qed.

Lemma apply_to_app_calls_witness :
  length (mate_ui_accel_map_apply_to_app reverse demo_map
            (Some SessionSamples.an_app))
  = length (accels demo_map)
  ∧ NoDup (call_action
             <$> mate_ui_accel_map_apply_to_app reverse demo_map
                   (Some SessionSamples.an_app)).
Proof.
  destruct (apply_to_app_calls reverse demo_map
              (Some SessionSamples.an_app)) as (_ & Hcalls).
  - intros t. apply reverse_Permutation.
  - apply (bool_decide_unpack _). vm_compute. reflexivity.
  - destruct Hcalls as (Hlen & Hnd & _); [reflexivity|].
    split; [exact Hlen|exact Hnd].
Defined.

(** X8. [mate_ui_accel_set_app_accels] makes one call per entry, in the
    order of the table; an entry whose accelerator is NULL makes the
    very call [mate_ui_accel_clear_app_accels] makes for its action (an
    empty array: the accelerators of the action are removed), and a
    table made of the nodes of a map makes the calls
    [mate_ui_accel_map_apply_to_app] makes for that map. *)
Theorem set_app_accels_calls
    (app : option GObject) (es es' : list MateUiAccelEntry)
    (a : list ascii) (map : MateUiAccelMap)
    (order : GHashTable (list ascii) (list ascii)
             → list (list ascii * list ascii)) :
  mate_ui_accel_set_app_accels app (es ++ es')
  = mate_ui_accel_set_app_accels app es
    ++ mate_ui_accel_set_app_accels app es'
  ∧ mate_ui_accel_set_app_accels app
      [{| Accel.action_name := Some a; Accel.accel := None |}]
    = mate_ui_accel_clear_app_accels app (Some a)
  ∧ mate_ui_accel_set_app_accels app
      ((λ node, {| Accel.action_name := Some node.1;
                   Accel.accel := Some node.2 |})
         <$> order (accels map))
    = mate_ui_accel_map_apply_to_app order map app.
Proof.
  unfold mate_ui_accel_set_app_accels, mate_ui_accel_clear_app_accels,
    mate_ui_accel_map_apply_to_app.
  destruct (instance_of app GTK_TYPE_APPLICATION); [|done].
  split; [apply fmap_app|]. split; [done|].
  by rewrite <- list_fmap_compose.
Qed.

(** ** The file format read by [mate_ui_accel_map_load] *)

Import LoadSpec.

Lemma g_ascii_isspace_white c : g_ascii_isspace c = white c.
Proof. by destruct c as [[] [] [] [] [] [] [] []]. Qed.

Lemma g_strchug_strip_leading s : g_strchug s = strip_leading s.
Proof.
  induction s as [|c s IH]; [done|]. cbn.
  rewrite g_ascii_isspace_white. by rewrite IH.
Qed.

Lemma g_strstrip_strip s : g_strstrip s = strip s.
Proof.
  unfold g_strstrip, g_strchomp, strip.
  by rewrite !g_strchug_strip_leading.
Qed.

Lemma strip_leading_white ws u :
  Forall (λ c, white c = true) ws →
  strip_leading (ws ++ u) = strip_leading u.
Proof.
  induction 1 as [|c ws Hc _ IH]; [done|]. cbn. by rewrite Hc.
Qed.

Lemma strip_leading_all_white ws :
  Forall (λ c, white c = true) ws → strip_leading ws = [].
Proof.
  intros H. rewrite <- (app_nil_r ws). by rewrite strip_leading_white.
Qed.

Lemma strip_leading_keeps u :
  (∀ c, head u = Some c → white c = false) → strip_leading u = u.
Proof.
  destruct u as [|c u]; [done|]. intros H. cbn. by rewrite (H c).
Qed.

(** Stripping is what [stripped] describes, and nothing else is. *)
Lemma strip_stripped s t : stripped s t ↔ t = strip s.
Proof.
  split.
  - intros (before & after & -> & Hb & Ha & Hhd & Hlt). unfold strip.
    rewrite strip_leading_white by done.
    destruct t as [|c t].
    + cbn. by rewrite (strip_leading_all_white after).
    + rewrite (strip_leading_keeps ((c :: t) ++ after))
        by (intros c' Hc'; apply Hhd; exact Hc').
      rewrite reverse_app.
      rewrite strip_leading_white
        by (apply Forall_forall; intros x Hx; rewrite elem_of_reverse in Hx;
            by apply (proj1 (Forall_forall _ _) Ha)).
      rewrite strip_leading_keeps; [by rewrite reverse_involutive|].
      intros c' Hc'. apply Hlt. by rewrite <- head_reverse.
  - intros ->. rewrite <- g_strstrip_strip.
    destruct (g_strstrip_spec s) as (ws1 & ws2 & Heq & H1 & H2 & Hhd & Hlt).
    exists ws1, ws2. split; [done|].
    rewrite forallb_forall in H1. rewrite forallb_forall in H2.
    repeat split.
    + apply Forall_forall. intros c Hc. rewrite <- g_ascii_isspace_white.
      apply H1. by apply list_elem_of_In.
    + apply Forall_forall. intros c Hc. rewrite <- g_ascii_isspace_white.
      apply H2. by apply list_elem_of_In.
    + intros c Hc. rewrite <- g_ascii_isspace_white. by apply Hhd.
    + intros c Hc. rewrite <- g_ascii_isspace_white. by apply Hlt.
Qed.

Lemma spec_parse_line_text raw : spec_parse_line raw = text_parse_line raw.
Proof.
  unfold spec_parse_line, text_parse_line. rewrite g_strstrip_strip.
  destruct (strip raw) as [|c line] eqn:Hline; [done|].
  cbn [head]. rewrite bool_decide_eq_false_2 by done. cbn [orb].
  repeat case_bool_decide; try congruence.
  destruct (cut_at_first "=" (c :: line)) as [[p0 p1]|]; [|done].
  rewrite !g_strstrip_strip.
  destruct (strip p0), (strip p1); done.
Qed.

Lemma spec_pairs_text text : spec_pairs text = text_pairs text.
Proof.
  unfold spec_pairs, text_pairs.
  induction (lines_of text) as [|l ls IH]; [done|].
  cbn. by rewrite spec_parse_line_text, IH.
Qed.

(** C3. [mate_ui_accel_map_load] on a readable text file returns TRUE
    and reads the format below ([text_pairs], which is written from the
    description of the format and not from the code).  The contents are
    split into lines on newlines; a line that, once the white space at
    its two ends is stripped, is empty or begins with '#' is skipped;
    any other line is cut at its first '=', both parts are stripped, and
    the line gives a pair if and only if there was an '=' and both
    stripped parts are non-empty.  The pairs are added to the map: the
    accelerator found afterwards under a name is that of the last pair
    of the file with this name, and the one the map had when no pair has
    it; and the names of the map afterwards are those it had and those
    of the pairs. *)
Theorem load_parses_key_value_text
    (fs : FileSystem) (map : MateUiAccelMap) (f contents : list ascii) :
  g_file_get_contents fs f = Some contents →
  c_string contents →
  ∃ loaded,
    mate_ui_accel_map_load fs map (Some f) = (loaded, true)
    ∧ loaded = add_pairs map (spec_pairs contents)
    ∧ spec_pairs contents = text_pairs contents
    ∧ (∀ a,
         mate_ui_accel_map_get loaded (Some a)
         = match last_pair (text_pairs contents) a with
           | Some s => Some s
           | None => mate_ui_accel_map_get map (Some a)
           end)
    ∧ (∀ a,
         a ∈ (accels loaded).*1
         ↔ a ∈ (accels map).*1 ∨ a ∈ (text_pairs contents).*1).
Proof.
  intros Hread Htext. exists (add_pairs map (spec_pairs contents)).
  split.
  { rewrite (load_readable _ _ _ _ Hread). by rewrite (c_str_id _ Htext). }
  split; [done|]. split; [apply spec_pairs_text|].
  rewrite spec_pairs_text.
  assert (∀ a,
            mate_ui_accel_map_get (add_pairs map (text_pairs contents))
              (Some a)
            = match last_pair (text_pairs contents) a with
              | Some s => Some s
              | None => mate_ui_accel_map_get map (Some a)
              end) as Hget by (intros a; apply get_add_pairs).
  split; [done|]. intros a.
  assert (∀ m : MateUiAccelMap,
            a ∈ (accels m).*1 ↔ mate_ui_accel_map_get m (Some a) ≠ None)
    as Hkeys.
  { intros m. split.
    - intros Hin Hnone. by apply lookup_None_keys in Hnone.
    - intros Hsome. apply dec_stable. intros Hnin. apply Hsome.
      by apply lookup_None_keys. }
  rewrite !Hkeys, Hget.
  destruct (last_pair (text_pairs contents) a) as [s|] eqn:Hlast.
  - split; [|done]. intros _. right. apply dec_stable. intros Hnin.
    apply last_pair_None in Hnin. congruence.
  - apply last_pair_None in Hlast. split; [by left|].
    by intros [?|?].
Qed.

Lemma load_parses_key_value_text_witness :
  ∃ loaded,
    mate_ui_accel_map_load sample_fs demo_map (Some (lit "accels"))
    = (loaded, true)
    ∧ accels loaded
      = [(lit "app.quit", lit "<Control>q");
         (lit "win.save", lit "<Control><Shift>s");
         (lit "win.close", lit "<Control>w=")]
    ∧ mate_ui_accel_map_get loaded (Some (lit "win.save"))
      = Some (lit "<Control><Shift>s")
    ∧ mate_ui_accel_map_get loaded (Some (lit "app.quit"))
      = Some (lit "<Control>q").
Proof.
  destruct (load_parses_key_value_text sample_fs demo_map (lit "accels")
              sample_text) as (loaded & Hload & Heq & _ & Hget & _).
  - vm_compute. reflexivity.
  - apply (bool_decide_unpack _). vm_compute. reflexivity.
  - exists loaded. split; [exact Hload|]. split; [|split].
    + rewrite Heq. vm_compute. reflexivity.
    + rewrite Hget. vm_compute. reflexivity.
    + rewrite Hget. vm_compute. reflexivity.
Defined.

(** ** Windows: state events, rebinding, stored geometry *)

Import WindowSpec2.

Lemma run_handler_frame self sig event backend key :
  key ∉ bound_keys self →
  (run_handler self sig event backend).1 !! key = backend !! key.
Proof.
  unfold bound_keys, size_keys, run_handler,
    mate_ui_window_configure_event, mate_ui_window_state_event.
  intros Hkey.
  destruct sig, event as [e|e]; try done;
    destruct (settings self) as [s|]; try done.
  - destruct (window_maximized self); [done|].
    destruct (width_key self) as [wk|], (height_key self) as [hk|];
      cbn [fst]; unfold g_settings_set_int;
      rewrite ?lookup_insert_ne; try done;
      intros <-; apply Hkey; set_solver.
  - destruct (maximized_key self) as [mk|]; [|done].
    destruct (negb _); cbn [fst]; [|done]. unfold g_settings_set_boolean.
    rewrite lookup_insert_ne; [done|].
    intros <-. apply Hkey. set_solver.
Qed.

Lemma dispatch_frame self event hs backend key :
  key ∉ bound_keys self →
  dispatch self event hs backend !! key = backend !! key.
Proof.
  intros Hkey. revert backend.
  induction hs as [|[id sig] hs IH]; intros backend; [done|].
  cbn [dispatch].
  pose proof (run_handler_frame self sig event backend key Hkey) as Hrun.
  destruct (run_handler self sig event backend) as [backend' stop].
  cbn [fst] in Hrun. destruct stop; [done|]. by rewrite IH.
Qed.

(** X10. What the handlers of a window never write.  Whatever handlers
    are connected and whatever the event, delivering it changes no key
    of the settings backend except those the window is bound to: the
    width and height keys and the maximized key of its settings object.
    Keys of other settings objects and other keys of the same object
    keep their values. *)
Theorem events_write_bound_keys_only
    (window : MateUiWindow) (event : GdkEvent)
    (backend : gmap (N * list ascii) SettingsValue)
    (key : N * list ascii) :
  key ∉ bound_keys window →
  gtk_widget_event window event backend !! key = backend !! key.
Proof. apply dispatch_frame. Qed.

Lemma events_write_bound_keys_only_witness :
  gtk_widget_event
    (mate_ui_window_bind_settings window_with_content
       (Some some_settings) (Some (lit "width")) (Some (lit "height"))
       None)
    (EvConfigure {| ev_width := 640; ev_height := 480 |}) stored_size
    !! (64%N, lit "sidebar-width")
  = stored_size !! (64%N, lit "sidebar-width").
Proof.
  apply events_write_bound_keys_only.
  apply (bool_decide_unpack _). vm_compute. reflexivity.
Defined.



(** X12. Only the last binding counts.  Binding a window to settings a
    second time disconnects the handlers of the first binding: from then
    on every event writes what it would write had the window been bound
    the second time only.  A binding that is refused (NULL, or not a
    [GSettings]) leaves the window, and so its earlier binding, as it
    was. *)
Theorem rebinding_replaces
    (window : MateUiWindow) (s1 s2 : GObject)
    (wk1 hk1 mk1 wk2 hk2 mk2 : option (list ascii)) :
  handlers_recorded window →
  g_type_is_a (g_class s1) G_TYPE_SETTINGS = true →
  g_type_is_a (g_class s2) G_TYPE_SETTINGS = true →
  let once := mate_ui_window_bind_settings window (Some s2) wk2 hk2 mk2 in
  let twice :=
    mate_ui_window_bind_settings
      (mate_ui_window_bind_settings window (Some s1) wk1 hk1 mk1)
      (Some s2) wk2 hk2 mk2 in
  (∀ state event backend,
     gtk_widget_event (with_gdk_window twice state) event backend
     = gtk_widget_event (with_gdk_window once state) event backend)
  ∧ length (handlers twice) = 2
  ∧ (∀ refused,
       instance_of refused G_TYPE_SETTINGS = false →
       mate_ui_window_bind_settings once refused wk1 hk1 mk1 = once).
Proof.
  intros Hrec Hs1 Hs2 once twice. subst once twice.
  pose proof (bind_handlers_recorded window (Some s1) wk1 hk1 mk1 Hrec)
    as Hrec1.
  rewrite (bind_settings_fields _ _ _ _ _ Hrec1 Hs2).
  rewrite (bind_settings_fields _ _ _ _ _ Hrec Hs2).
  split; [|split].
  - intros state event backend. unfold gtk_widget_event.
    cbn [handlers with_gdk_window with_binding].
    unfold dispatch, run_handler, mate_ui_window_configure_event,
      mate_ui_window_state_event, window_maximized.
    by cbn [settings width_key height_key maximized_key gdk_window
              with_gdk_window with_binding].
  - done.
  - intros [r|] Hr; [|done]. unfold mate_ui_window_bind_settings.
    cbn [instance_of] in Hr. by rewrite Hr.
Qed.

Lemma rebinding_replaces_witness :
  length
    (handlers
       (mate_ui_window_bind_settings
          (mate_ui_window_bind_settings window_with_content
             (Some some_settings) (Some (lit "w")) None None)
          (Some some_settings) (Some (lit "width")) (Some (lit "height"))
          None))
  = 2.
Proof.
  apply (rebinding_replaces window_with_content some_settings
           some_settings (Some (lit "w")) None None (Some (lit "width"))
           (Some (lit "height")) None).
  - unfold handlers_recorded. cbn. repeat split; try lia. by left.
  - reflexivity.
  - reflexivity.
Defined.

(** X13. The size a window saves is the size it gets back.  After a
    binding with two different keys, a configure-event with a positive
    width and height on a window that is not maximized stores a size
    that [mate_ui_window_set_default_size_from_settings], called later
    with the same settings and keys on any window, sets as the default
    size, whatever the fallback values. *)
Theorem saved_size_is_restored
    (window restored : MateUiWindow) (s : GObject) (wk hk : list ascii)
    (mk : option (list ascii)) (state : option N)
    (event : GdkEventConfigure)
    (backend : gmap (N * list ascii) SettingsValue)
    (default_width default_height : Z) :
  handlers_recorded window →
  g_type_is_a (g_class s) G_TYPE_SETTINGS = true →
  wk ≠ hk →
  (0 < ev_width event)%Z → (0 < ev_height event)%Z →
  let bound :=
    with_gdk_window
      (mate_ui_window_bind_settings window (Some s) (Some wk) (Some hk) mk)
      state in
  window_maximized bound = false →
  default_size
    <$> mate_ui_window_set_default_size_from_settings
          (gtk_widget_event bound (EvConfigure event) backend)
          restored (Some s) (Some wk) (Some hk)
          default_width default_height
  = Some (Some (ev_width event, ev_height event)).
Proof.
  intros Hrec Hs Hkeys Hw Hh bound. subst bound.
  rewrite (bind_settings_fields _ _ _ _ _ Hrec Hs).
  unfold gtk_widget_event. cbn [handlers with_gdk_window with_binding].
  unfold dispatch, run_handler, mate_ui_window_configure_event.
  cbn [settings width_key height_key with_gdk_window with_binding].
  intros ->.
  unfold mate_ui_window_set_default_size_from_settings. rewrite Hs.
  unfold g_settings_get_int, g_settings_set_int.
  rewrite lookup_insert_ne by congruence.
  rewrite !lookup_insert_eq.
  destruct (Z.leb_spec (ev_width event) 0); [lia|].
  destruct (Z.leb_spec (ev_height event) 0); [lia|]. done.
Qed.

Lemma saved_size_is_restored_witness :
  default_size
    <$> mate_ui_window_set_default_size_from_settings
          (gtk_widget_event
             (with_gdk_window
                (mate_ui_window_bind_settings window_with_content
                   (Some some_settings) (Some (lit "width"))
                   (Some (lit "height")) None)
                (Some 0%N))
             (EvConfigure {| ev_width := 640; ev_height := 480 |})
             stored_size)
          (mate_ui_window_init a_box) (Some some_settings)
          (Some (lit "width")) (Some (lit "height")) 1024 768
  = Some (Some (640%Z, 480%Z)).
Proof.
  apply (saved_size_is_restored window_with_content
           (mate_ui_window_init a_box) some_settings (lit "width")
           (lit "height") None (Some 0%N)
           {| ev_width := 640; ev_height := 480 |} stored_size 1024 768).
  - unfold handlers_recorded. cbn. repeat split; try lia. by left.
  - reflexivity.
  - apply (bool_decide_unpack _). vm_compute. reflexivity.
  - reflexivity.
  - reflexivity.
  - reflexivity.
Defined.

(** ** Session: flags and the calls of an inhibition *)

Lemma land_pow2_eqb (n i : N) :
  negb (N.land n (2 ^ i) =? 0)%N = N.testbit n i.
Proof.
  destruct (N.testbit n i) eqn:E.
  - apply negb_true_iff, N.eqb_neq. intros H0.
    assert (N.testbit (N.land n (2 ^ i)) i = false) as Hz
      by (rewrite H0; apply N.bits_0).
    by rewrite N.land_spec, N.pow2_bits_true, E in Hz.
  - apply negb_false_iff, N.eqb_eq. apply N.bits_inj. intros j.
    rewrite N.land_spec, N.bits_0.
    destruct (decide (i = j)) as [->|Hj].
    + by rewrite E.
    + by rewrite N.pow2_bits_false, andb_false_r.
Qed.

Lemma or_if_set_testbit (flags acc i n : N) :
  N.testbit (or_if_set flags (2 ^ i) (2 ^ i) acc) n
  = N.testbit acc n || (bool_decide (n = i) && N.testbit flags i).
Proof.
  unfold or_if_set. rewrite land_pow2_eqb.
  destruct (N.testbit flags i).
  - rewrite N.lor_spec. case_bool_decide as Hn.
    + subst n. by rewrite N.pow2_bits_true.
    + rewrite N.pow2_bits_false by done. by rewrite andb_false_l.
  - by rewrite andb_false_r, orb_false_r.
Qed.

Lemma four_flags_land (flags : N) :
  or_if_set flags (2 ^ 3) (2 ^ 3)
    (or_if_set flags (2 ^ 2) (2 ^ 2)
       (or_if_set flags (2 ^ 1) (2 ^ 1)
          (or_if_set flags (2 ^ 0) (2 ^ 0) 0)))
  = N.land flags 15.
Proof.
  apply N.bits_inj. intros n.
  rewrite !or_if_set_testbit, N.bits_0, N.land_spec.
  change 15%N with (N.ones 4).
  destruct (decide (n < 4)%N) as [Hlt|Hge].
  - rewrite N.ones_spec_low by done. rewrite andb_true_r.
    assert (n = 0 ∨ n = 1 ∨ n = 2 ∨ n = 3)%N as [-> | [-> | [-> | ->]]] by lia;
      repeat (case_bool_decide; try lia);
      cbn; by destruct (N.testbit flags _).
  - rewrite N.ones_spec_high by lia. rewrite andb_false_r.
    repeat (rewrite bool_decide_eq_false_2 by lia). done.
Qed.

(** X14. The flags sent to the toolkit and to the session manager: both
    conversions keep the four defined bits (logout, user switch,
    suspend, idle) where they are and drop every other bit, so a
    combination of the defined flags is passed as it is and the two
    mechanisms are always asked to inhibit the same things. *)
Theorem inhibit_flags_conversions (flags : N) :
  convert_inhibit_flags flags = N.land flags 15
  ∧ gtk_inhibit_flags flags = N.land flags 15
  ∧ ((flags < 16)%N → convert_inhibit_flags flags = flags).
Proof.
  split; [apply four_flags_land|]. split; [apply four_flags_land|].
  intros Hlt. rewrite (four_flags_land flags : convert_inhibit_flags _ = _).
  change 15%N with (N.ones 4). rewrite N.land_ones.
  by apply N.mod_small.
Qed.

Lemma inhibit_flags_conversions_witness :
  convert_inhibit_flags 12 = 12%N.
Proof.
  apply (inhibit_flags_conversions 12). reflexivity.
Defined.

Lemma inhibit_via_dbus_calls env app window flags reason st :
  let result := inhibit_via_dbus env app window flags reason st in
  calls st `prefix_of` calls result.2
  ∧ (∀ p id xid r f,
       call_dbus_inhibit p id xid r f ∈ calls result.2 →
       call_dbus_inhibit p id xid r f ∈ calls st
       ∨ f = N.land flags 15 ∧ r = reason)
  ∧ (∀ handle, result.1 = Some handle → Session.flags handle = flags).
Proof.
  intros result. subst result.
  unfold inhibit_via_dbus, get_session_manager_proxy, bind, emit, ret.
  rewrite (four_flags_land flags : convert_inhibit_flags _ = _).
  destruct (proxy st) as [p|]; [|destruct (env_dbus_proxy_new env) as [p|]].
  - destruct (env_dbus_inhibit env p _ _ reason _) as [c|];
      cbn [fst snd calls proxy];
      (split; [by apply prefix_app_r|]);
      (split; [|by intros ? [= <-]]);
      intros p0 id xid r f [Hin|Hin]%elem_of_app; try (by left);
      apply list_elem_of_singleton in Hin; injection Hin as _ _ _ ? ?;
      right; by subst.
  - destruct (env_dbus_inhibit env p _ _ reason _) as [c|];
      cbn [fst snd calls proxy];
      (split; [rewrite <- app_assoc; by apply prefix_app_r|]);
      (split; [|by intros ? [= <-]]);
      intros p0 id xid r f [[Hin|Hin]%elem_of_app|Hin]%elem_of_app;
      try (by left);
      apply list_elem_of_singleton in Hin; try discriminate Hin;
      injection Hin as _ _ _ ? ?; right; by subst.
  - cbn [fst snd calls proxy]. split; [by apply prefix_app_r|].
    split; [|done].
    intros p0 id xid r f [Hin|Hin]%elem_of_app; [by left|].
    apply list_elem_of_singleton in Hin. discriminate Hin.
Qed.

(** X15. The calls of [mate_ui_session_inhibit].  When the toolkit path
    succeeds, the one external call made is [gtk_application_inhibit]:
    the session bus is not contacted and the stored proxy is unchanged.
    In every case the calls made before are kept, a D-Bus "Inhibit" call
    is made only if the toolkit path failed, and a handle, when one is
    returned, records the flags that were asked for. *)
Theorem inhibit_calls
    (env : Environment) (app window : option GObject) (flags : N)
    (reason : list ascii) (st : SessionState) :
  let result :=
    mate_ui_session_inhibit env app window flags (Some reason) st in
  calls st `prefix_of` calls result.2
  ∧ (∀ a c,
       toolkit_acquires env app window flags reason = Some (a, c) →
       result.2
       = {| proxy := proxy st;
            calls := calls st
                     ++ [call_gtk_application_inhibit a window
                           (N.land flags 15) reason] |})
  ∧ (∀ p id xid r f,
       call_dbus_inhibit p id xid r f ∈ calls result.2 →
       call_dbus_inhibit p id xid r f ∈ calls st
       ∨ toolkit_acquires env app window flags reason = None
         ∧ f = N.land flags 15 ∧ r = reason)
  ∧ (∀ handle, result.1 = Some handle → Session.flags handle = flags).
Proof.
  intros result. subst result.
  pose proof (inhibit_via_dbus_calls env app window flags reason) as Hdbus.
  unfold mate_ui_session_inhibit, toolkit_acquires.
  rewrite !(four_flags_land flags : gtk_inhibit_flags _ = _).
  assert (∀ st0 : SessionState,
            calls st `prefix_of` calls st0 →
            (∀ p id xid r f,
               call_dbus_inhibit p id xid r f ∈ calls st0 →
               call_dbus_inhibit p id xid r f ∈ calls st) →
            let result := inhibit_via_dbus env app window flags reason st0 in
            calls st `prefix_of` calls result.2
            ∧ (∀ p id xid r f,
                 call_dbus_inhibit p id xid r f ∈ calls result.2 →
                 call_dbus_inhibit p id xid r f ∈ calls st
                 ∨ f = N.land flags 15 ∧ r = reason)
            ∧ (∀ handle, result.1 = Some handle →
                         Session.flags handle = flags)) as Hfall.
  { intros st0 Hpre Hold. destruct (Hdbus st0) as (H1 & H2 & H3).
    split; [by etrans|]. split; [|done].
    intros p id xid r f Hin. destruct (H2 _ _ _ _ _ Hin) as [?|?]; auto. }
  destruct app as [a|].
  2: { destruct (Hfall st) as (H1 & H2 & H3); [done|done|].
       split; [done|]. split; [done|]. split; [|done].
       intros p id xid r f Hin. destruct (H2 _ _ _ _ _ Hin); auto. }
  destruct (g_type_is_a (g_class a) GTK_TYPE_APPLICATION).
  2: { destruct (Hfall st) as (H1 & H2 & H3); [done|done|].
       split; [done|]. split; [done|]. split; [|done].
       intros p id xid r f Hin. destruct (H2 _ _ _ _ _ Hin); auto. }
  unfold bind, emit.
  destruct (env_gtk_application_inhibit env a window (N.land flags 15)
              reason =? 0)%N eqn:Hc; cbn [negb].
  - set (st1 := {| proxy := proxy st; calls := _ |}).
    destruct (Hfall st1) as (H1 & H2 & H3).
    { by apply prefix_app_r. }
    { intros p id xid r f [Hin|Hin]%elem_of_app; [done|].
      apply list_elem_of_singleton in Hin. discriminate Hin. }
    split; [done|]. split; [done|]. split; [|done].
    intros p id xid r f Hin. destruct (H2 _ _ _ _ _ Hin); auto.
  - cbn [fst snd ret calls]. split; [by apply prefix_app_r|].
    split; [by intros ?? [= <- <-]|]. split; [|by intros ? [= <-]].
    intros p id xid r f [Hin|Hin]%elem_of_app; [by left|].
    apply list_elem_of_singleton in Hin. discriminate Hin.
Qed.

Lemma inhibit_calls_witness :
  (mate_ui_session_inhibit toolkit_works (Some an_app) None 4
     (Some (lit "writing a disc")) start).2
  = {| proxy := proxy start;
       calls := calls start
                ++ [call_gtk_application_inhibit an_app None (N.land 4 15)
                      (lit "writing a disc")] |}.
Proof.
  destruct (inhibit_calls toolkit_works (Some an_app) None 4
              (lit "writing a disc") start) as (_ & Htoolkit & _).
  apply (Htoolkit an_app 3%N). reflexivity.
Defined.

(** ** Session: requests to the session manager *)

Import SessionRequests RequestSamples.

Lemma get_proxy_none env st :
  session_manager env (session st) = None →
  (get_proxy env st).1 = None
  ∧ requests (get_proxy env st).2 = requests st
  ∧ proxy (session (get_proxy env st).2) = None.
Proof.
  unfold session_manager, get_proxy, get_session_manager_proxy.
  destruct (proxy (session st)) as [p|]; [done|]. by intros ->.
Qed.

Lemma get_proxy_some env st p :
  proxy (session st) = Some p → get_proxy env st = (Some p, st).
Proof.
  intros H. unfold get_proxy. rewrite (get_proxy_stored env _ p H).
  by destruct st.
Qed.

(** X16. Without a session manager (no proxy is stored and none can be
    created), [mate_ui_session_is_inhibited], [mate_ui_session_register]
    and [mate_ui_session_request_save] return FALSE, and no function
    sends a request; no proxy is stored, so the next call tries
    again. *)
Theorem requests_without_session_manager
    (env : Environment) (reply : GObject → Request → option bool)
    (c : session_call) (st : RequestState) :
  session_manager env (session st) = None →
  (run_session_call env reply c st).1 = false
  ∧ requests (run_session_call env reply c st).2 = requests st
  ∧ proxy (session (run_session_call env reply c st).2) = None.
Proof.
  intros Hnone. destruct (get_proxy_none env st Hnone) as (Hp & Hr & Hs).
  assert (proxy (session st) = None) as Hst.
  { unfold session_manager in Hnone. by destruct (proxy (session st)). }
  destruct c as [flags|app cid|app|prompt|prompt|prompt];
    cbn [run_session_call];
    unfold mate_ui_session_is_inhibited, mate_ui_session_register,
      mate_ui_session_request_save, mate_ui_session_request_logout,
      mate_ui_session_request_shutdown, mate_ui_session_request_reboot;
    try (destruct app as [a|]; [|done]);
    try (cbn [instance_of]);
    try (destruct (g_type_is_a (g_class a) GTK_TYPE_APPLICATION); [|done]);
    destruct (get_proxy env st) as [p st1]; cbn [fst snd] in *;
    subst p; done.
Qed.

Lemma requests_without_session_manager_witness :
  (run_session_call toolkit_works answers (do_is_inhibited 4)
     not_connected).1 = false.
Proof.
  apply (requests_without_session_manager toolkit_works answers
           (do_is_inhibited 4) not_connected).
  reflexivity.
Defined.

Lemma run_session_call_stored env reply c st p :
  proxy (session st) = Some p →
  session (run_session_call env reply c st).2 = session st
  ∧ (requests (run_session_call env reply c st).2 = requests st
     ∨ ∃ r, requests (run_session_call env reply c st).2
            = requests st ++ [(p, r)]).
Proof.
  intros Hp.
  destruct c as [flags|app cid|app|prompt|prompt|prompt];
    cbn [run_session_call];
    unfold mate_ui_session_is_inhibited, mate_ui_session_register,
      mate_ui_session_request_save, mate_ui_session_request_logout,
      mate_ui_session_request_shutdown, mate_ui_session_request_reboot;
    try (destruct app as [a|]; [|by split; [|left]]);
    try (cbn [instance_of]);
    try (destruct (g_type_is_a (g_class a) GTK_TYPE_APPLICATION);
         [|by split; [|left]]);
    rewrite (get_proxy_some env st p Hp); unfold send;
    repeat (match goal with
            | |- context [reply ?p ?r] => destruct (reply p r)
            end);
    cbn [fst snd session requests];
    (split; [done|right; by eexists]).
Qed.

(** X17. Once a proxy of the session manager is stored it is the one
    used: through any sequence of calls to the request functions, the
    stored proxy and the calls recorded by the inhibition functions stay
    as they are (no new connection is made), every request is sent on
    the stored proxy, and each call sends at most one request. *)
Theorem requests_use_stored_proxy
    (env : Environment) (reply : GObject → Request → option bool)
    (p : GObject) (cs : list session_call) (st : RequestState) :
  proxy (session st) = Some p →
  let st' :=
    fold_left (λ s c, (run_session_call env reply c s).2) cs st in
  session st' = session st
  ∧ ∃ sent,
      requests st' = requests st ++ sent
      ∧ Forall (λ request, request.1 = p) sent
      ∧ length sent ≤ length cs.
Proof.
  intros Hp st'. subst st'. revert st Hp.
  induction cs as [|c cs IH]; intros st Hp.
  - split; [done|]. exists []. by rewrite app_nil_r.
  - cbn [fold_left].
    destruct (run_session_call_stored env reply c st p Hp) as [Hs Hr].
    destruct (IH (run_session_call env reply c st).2) as (Hs' & sent & Hsent & Hall & Hlen).
    { by rewrite Hs. }
    split; [by rewrite Hs'|].
    destruct Hr as [Hr|(r & Hr)]; rewrite Hsent, Hr.
    + exists sent. split; [done|]. split; [done|]. cbn. lia.
    + exists ((p, r) :: sent). rewrite <- app_assoc. split; [done|].
      split; [by constructor|]. cbn. lia.
Qed.

Lemma requests_use_stored_proxy_witness :
  session
    (fold_left (λ s c, (run_session_call toolkit_works answers c s).2)
       [do_request_save (Some an_app); do_request_logout true] connected)
  = session connected.
Proof.
  apply (requests_use_stored_proxy toolkit_works answers a_proxy
           [do_request_save (Some an_app); do_request_logout true]
           connected).
  reflexivity.
Defined.

(** X18. [mate_ui_session_is_inhibited] returns TRUE exactly when the
    session manager can be reached and its reply to "IsInhibited", asked
    with the four defined bits of the flags, is TRUE: an error or a
    missing session manager reads as not inhibited.
    [mate_ui_session_register] returns TRUE exactly when it is given a
    [GtkApplication], the session manager can be reached and it replies
    to "RegisterClient", sent with the application id (or
    "mate-application" when the application has none) and the client id
    (or the empty string when it is NULL). *)
Theorem session_replies
    (env : Environment) (reply : GObject → Request → option bool)
    (flags : N) (app : option GObject) (client_id : option (list ascii))
    (st : RequestState) :
  ((mate_ui_session_is_inhibited env reply flags st).1 = true ↔
   ∃ p, session_manager env (session st) = Some p
        ∧ reply p (IsInhibited (N.land flags 15)) = Some true)
  ∧ ((mate_ui_session_register env reply app client_id st).1 = true ↔
     ∃ a p,
       app = Some a
       ∧ g_type_is_a (g_class a) GTK_TYPE_APPLICATION = true
       ∧ session_manager env (session st) = Some p
       ∧ is_Some
           (reply p
              (RegisterClient
                 (default (lit "mate-application")
                    (env_application_id env a))
                 (default [] client_id)))).
Proof.
  unfold mate_ui_session_is_inhibited, mate_ui_session_register.
  rewrite (four_flags_land flags : convert_inhibit_flags _ = _).
  assert ((get_proxy env st).1 = session_manager env (session st)) as Hp.
  { unfold get_proxy.
    destruct (get_proxy_result env (session st)) as [H _].
    by destruct (get_session_manager_proxy env (session st)). }
  destruct (get_proxy env st) as [p st1]. cbn [fst] in Hp. subst p.
  split.
  - destruct (session_manager env (session st)) as [p|].
    + unfold send. destruct (reply p _) as [[|]|] eqn:E; cbn [fst]; split;
        try done.
      * intros _. by exists p.
      * by intros (? & [= <-] & H'); rewrite E in H'.
      * by intros (? & [= <-] & H'); rewrite E in H'.
    + split; [done|]. by intros (? & ? & _).
  - destruct app as [a|]; [|split; [done|by intros (? & ? & ? & _)]].
    destruct (g_type_is_a (g_class a) GTK_TYPE_APPLICATION) eqn:Ha.
    2: { split; [done|]. intros (? & ? & [= <-] & H' & _). congruence. }
    destruct (session_manager env (session st)) as [p|].
    2: { split; [done|]. by intros (? & ? & _ & _ & ? & _). }
    unfold send.
    assert (match env_application_id env a with
            | Some id => id
            | None => lit "mate-application"
            end = default (lit "mate-application")
                    (env_application_id env a)) as -> by done.
    assert (match client_id with Some c => c | None => [] end
            = default [] client_id) as -> by done.
    destruct (reply p _) as [b|] eqn:E; cbn [fst]; split; try done.
    + intros _. exists a, p. by rewrite E.
    + intros (? & ? & [= <-] & _ & [= <-] & H'). rewrite E in H'.
      by destruct H'.
Qed.

Lemma session_replies_witness :
  (mate_ui_session_is_inhibited toolkit_works answers 4 connected).1
  = true.
Proof.
  apply (session_replies toolkit_works answers 4 None None connected).
  exists a_proxy. split; reflexivity.
Defined.

(** ** Menus: the compaction loop, missing labels, the two builders *)

Import MenuWidgets.

Lemma remove_mnemonic_total l :
  remove_mnemonic (Some l) = Some (without_underscores (c_str l)).
Proof.
  pose proof (remove_mnemonic_spec (c_str l) (c_str_c_string l)) as H.
  unfold remove_mnemonic, Menu.g_strdup in *.
  by rewrite (c_str_id _ (c_str_c_string l)) in H.
Qed.

Lemma without_underscores_idemp s :
  without_underscores (without_underscores s) = without_underscores s.
Proof.
  unfold without_underscores. induction s as [|c s IH]; [done|].
  destruct (decide (c ≠ "_")).
  - rewrite filter_cons_True by done. rewrite filter_cons_True by done.
    by rewrite IH.
  - by rewrite filter_cons_False by done.
Qed.

Lemma without_underscores_id s : ("_" ∉ s) → without_underscores s = s.
Proof.
  unfold without_underscores. induction s as [|c s IH]; [done|].
  intros [Hc Hs]%not_elem_of_cons.
  rewrite filter_cons_True by congruence. by rewrite IH.
Qed.

(** X19. The underscore-removing loop of
    [mate_ui_menu_model_new_from_entries], on any label: it always
    terminates inside its buffer with a result; the result is never
    longer than the label and holds no '_'; a label without '_' is
    returned as it is; and running the loop on its result changes
    nothing. *)
Theorem remove_mnemonic_facts (l : list ascii) :
  ∃ l',
    remove_mnemonic (Some l) = Some l'
    ∧ length l' ≤ length l
    ∧ ("_" ∉ l')
    ∧ remove_mnemonic (Some l') = Some l'
    ∧ (c_string l → ("_" ∉ l) → l' = l).
Proof.
  exists (without_underscores (c_str l)).
  split; [apply remove_mnemonic_total|]. split; [|split; [|split]].
  - unfold without_underscores. etrans; [apply length_filter|].
    clear. induction l as [|c l IH]; cbn; [done|].
    destruct (Ascii.eqb c NUL); cbn; lia.
  - unfold without_underscores. by intros [? _]%list_elem_of_filter.
  - rewrite remove_mnemonic_total.
    rewrite c_str_id
      by apply without_underscores_c_string, c_str_c_string.
    by rewrite without_underscores_idemp.
  - intros Hl Hu. rewrite (c_str_id _ Hl). by apply without_underscores_id.
Qed.

Lemma remove_mnemonic_facts_witness :
  ∃ l',
    remove_mnemonic (Some (lit "Open")) = Some l' ∧ l' = lit "Open".
Proof.
  destruct (remove_mnemonic_facts (lit "Open"))
    as (l' & Heq & _ & _ & _ & Hid).
  exists l'. split; [exact Heq|]. apply Hid.
  - apply (bool_decide_unpack _). vm_compute. reflexivity.
  - apply (bool_decide_unpack _). vm_compute. reflexivity.
Defined.

(** *** When the GMenu builder reads through NULL *)

Lemma append_item_None e : append_item None e = None.
Proof. done. Qed.

Lemma fold_append_item_None es : fold_left append_item es None = None.
Proof. induction es as [|e es IH]; [done|]. by cbn. Qed.

Lemma append_item_cases items e :
  append_item (Some items) e
  = if entry_fatal e then None
    else Some (items
               ++ [match label e with
                   | Some l =>
                       menu_item (without_underscores (c_str l))
                         (action_name e) (icon_name e) (Menu.accel e)
                   | None => menu_section
                   end]).
Proof.
  unfold append_item, entry_fatal.
  destruct (label e) as [l|], (action_name e) as [a|]; try done;
    by rewrite remove_mnemonic_total.
Qed.

Lemma fold_append_item_cases es items :
  fold_left append_item es (Some items)
  = if existsb entry_fatal es then None
    else Some (items
               ++ ((λ e, match label e with
                         | Some l =>
                             menu_item (without_underscores (c_str l))
                               (action_name e) (icon_name e) (Menu.accel e)
                         | None => menu_section
                         end) <$> es)).
Proof.
  revert items. induction es as [|e es IH]; intros items.
  - cbn. by rewrite app_nil_r.
  - cbn [fold_left existsb]. rewrite append_item_cases.
    destruct (entry_fatal e); cbn [orb].
    + apply fold_append_item_None.
    + rewrite IH. destruct (existsb entry_fatal es); [done|].
      by rewrite fmap_cons, <- app_assoc.
Qed.

Lemma fold_append_submenu_None sms :
  fold_left append_submenu sms None = None.
Proof. induction sms as [|sm sms IH]; [done|]. by cbn. Qed.

Lemma append_submenu_cases subs sm :
  append_submenu (Some subs) sm
  = if submenu_fatal sm then None
    else Some (subs
               ++ [{| g_label :=
                        without_underscores
                          (c_str (default [] (submenu_label sm)));
                      g_items :=
                        (λ e, match label e with
                              | Some l =>
                                  menu_item (without_underscores (c_str l))
                                    (action_name e) (icon_name e)
                                    (Menu.accel e)
                              | None => menu_section
                              end) <$> entries sm |}]).
Proof.
  unfold append_submenu, submenu_fatal.
  rewrite fold_append_item_cases.
  destruct (submenu_label sm) as [l|].
  - destruct (existsb entry_fatal (entries sm)); [done|].
    cbn [app]. by rewrite remove_mnemonic_total.
  - by destruct (existsb entry_fatal (entries sm)).
Qed.

(** X20. [mate_ui_menu_model_new_from_entries] reads through a NULL
    pointer exactly when some submenu has no label or holds an entry
    that has an action and no label.  On every other table it returns a
    model with one submenu per submenu of the table and, in each, one
    item or section per entry. *)
Theorem menu_model_null_label (submenus : list MateUiSubmenu) :
  (mate_ui_menu_model_new_from_entries submenus = None ↔
   existsb submenu_fatal submenus = true)
  ∧ ∀ model,
      mate_ui_menu_model_new_from_entries submenus = Some model →
      length model = length submenus
      ∧ (length ∘ g_items) <$> model
        = (length ∘ entries) <$> submenus.
Proof.
  unfold mate_ui_menu_model_new_from_entries.
  assert (∀ subs,
            (fold_left append_submenu submenus (Some subs) = None ↔
             existsb submenu_fatal submenus = true)
            ∧ ∀ model,
                fold_left append_submenu submenus (Some subs) = Some model →
                length model = length subs + length submenus
                ∧ (length ∘ g_items) <$> model
                  = ((length ∘ g_items) <$> subs)
                    ++ ((length ∘ entries) <$> submenus)) as Hgen.
  { induction submenus as [|sm sms IH]; intros subs.
    - cbn. split; [done|]. intros model [= <-].
      by rewrite Nat.add_0_r, app_nil_r.
    - cbn [fold_left existsb]. rewrite append_submenu_cases.
      destruct (submenu_fatal sm); cbn [orb].
      + rewrite fold_append_submenu_None. done.
      + destruct (IH (subs ++ [{|
                   g_label :=
                     without_underscores
                       (c_str (default [] (submenu_label sm)));
                   g_items :=
                     (λ e, match label e with
                           | Some l =>
                               menu_item (without_underscores (c_str l))
                                 (action_name e) (icon_name e)
                                 (Menu.accel e)
                           | None => menu_section
                           end) <$> entries sm |}])) as [Hnone Hsome].
        split; [done|]. intros model Hm.
        destruct (Hsome model Hm) as [Hlen Hitems].
        rewrite Hlen, Hitems, length_app, fmap_app, fmap_cons.
        cbn [length fmap list_fmap compose g_items].
        rewrite length_fmap, <- app_assoc. split; [lia|done]. }
  destruct (Hgen []) as [Hnone Hsome]. split; [done|].
  intros model Hm. by destruct (Hsome model Hm).
Qed.

Lemma menu_model_null_label_witness :
  length <$> mate_ui_menu_model_new_from_entries [file_menu] = Some 1.
Proof.
  destruct (menu_model_null_label [file_menu]) as [_ Hsome].
  destruct (mate_ui_menu_model_new_from_entries [file_menu])
    as [model|] eqn:E; [|discriminate E].
  cbn. f_equal. apply (Hsome model). reflexivity.
Defined.

(** *** GtkMenu widgets *)

Section Widgets.
Variable parse : list ascii → N * N.

Lemma add_parsed_accelerator_facts item group accel :
  match add_parsed_accelerator parse (Some item) group accel with
  | Some item' =>
      item_action item' = item_action item
      ∧ item_label item' = item_label item
      ∧ (item_accelerator item' = item_accelerator item
         ∨ ∃ s, accel = Some s ∧ is_Some group
                ∧ item_accelerator item' = Some (parse s)
                ∧ (parse s).1 ≠ 0%N)
  | None => False
  end.
Proof.
  unfold add_parsed_accelerator.
  destruct accel as [s|], group as [g|]; try (by repeat split; left).
  destruct (parse s) as [key mods] eqn:E.
  destruct (key =? 0)%N eqn:Hk; cbn [negb]; [by repeat split; left|].
  apply N.eqb_neq in Hk.
  destruct item; cbn; repeat split; try (by left);
    right; exists s; rewrite E; by repeat split.
Qed.

Lemma add_parsed_accelerator_None group accel :
  add_parsed_accelerator parse None group accel = None.
Proof.
  unfold add_parsed_accelerator.
  destruct accel as [s|], group as [g|]; try done.
  destruct (parse s) as [key mods]. by destruct (negb (key =? 0)%N).
Qed.

Lemma entry_widget_cases group e :
  match entry_widget parse group e with
  | Some item =>
      entry_shown e = true
      ∧ item_action item = action_name e
      ∧ item_label item = label e
      ∧ (item_accelerator item = None
         ∨ ∃ s, Menu.accel e = Some s ∧ is_Some group
                ∧ item_accelerator item = Some (parse s)
                ∧ (parse s).1 ≠ 0%N)
  | None => entry_shown e = false
  end.
Proof.
  unfold entry_widget, entry_shown, mate_ui_menu_item_new_with_icon,
    mate_ui_menu_item_new_with_action.
  destruct (label e) as [l|], (action_name e) as [a|].
  - destruct (icon_name e) as [icon|].
    + pose proof (add_parsed_accelerator_facts
                    (icon_item l (Some icon) a None) group (Menu.accel e))
        as H.
      destruct (add_parsed_accelerator _ _ _ _) as [item'|]; [|done].
      destruct H as (Ha & Hl & Hacc). by repeat split.
    + pose proof (add_parsed_accelerator_facts (mnemonic_item l a None)
                    group (Menu.accel e)) as H.
      destruct (add_parsed_accelerator _ _ _ _) as [item'|]; [|done].
      destruct H as (Ha & Hl & Hacc). by repeat split.
  - destruct (icon_name e); [|done].
    by rewrite add_parsed_accelerator_None.
  - destruct (icon_name e); [|done].
    by rewrite add_parsed_accelerator_None.
  - repeat split. by left.
Qed.

Lemma menu_new_omap group es :
  mate_ui_menu_new_from_entries parse es group
  = omap (entry_widget parse group) es.
Proof.
  unfold mate_ui_menu_new_from_entries.
  assert (∀ items,
            fold_left (append_widget parse group) es items
            = items ++ omap (entry_widget parse group) es) as Hgen.
  { induction es as [|e es IH]; intros items.
    - by rewrite app_nil_r.
    - cbn [fold_left omap list_omap]. rewrite IH.
      unfold append_widget, gtk_menu_shell_append.
      destruct (entry_widget parse group e); [|done].
      by rewrite <- app_assoc. }
  apply (Hgen []).
Qed.

Lemma menu_new_items group es :
  item_action <$> mate_ui_menu_new_from_entries parse es group
  = action_name <$> filter (λ e, entry_shown e = true) es
  ∧ item_label <$> mate_ui_menu_new_from_entries parse es group
    = label <$> filter (λ e, entry_shown e = true) es.
Proof.
  rewrite menu_new_omap.
  induction es as [|e es [IHa IHl]]; [done|].
  cbn [omap list_omap].
  pose proof (entry_widget_cases group e) as H.
  destruct (entry_widget parse group e) as [item|].
  - destruct H as (Hshown & Ha & Hl & _).
    rewrite filter_cons_True by done. rewrite !fmap_cons.
    by rewrite IHa, IHl, Ha, Hl.
  - rewrite filter_cons_False by (by rewrite H). done.
Qed.

Lemma menu_bar_new_map submenus accel_group :
  mate_ui_menu_bar_new_from_entries parse submenus accel_group
  = (λ sm, (submenu_label sm,
            mate_ui_menu_new_from_entries parse (Menu.entries sm)
              accel_group)) <$> submenus.
Proof.
  unfold mate_ui_menu_bar_new_from_entries.
  assert (∀ bar,
            fold_left
              (λ menubar submenu,
                 menubar
                 ++ [(submenu_label submenu,
                      mate_ui_menu_new_from_entries parse
                        (Menu.entries submenu) accel_group)])
              submenus bar
            = bar
              ++ ((λ sm, (submenu_label sm,
                          mate_ui_menu_new_from_entries parse
                            (Menu.entries sm) accel_group))
                    <$> submenus)) as Hgen.
  { induction submenus as [|sm sms IH]; intros bar.
    - by rewrite app_nil_r.
    - cbn [fold_left]. rewrite IH, fmap_cons. by rewrite <- app_assoc. }
  apply (Hgen []).
Qed.

(** X21. [mate_ui_menu_new_from_entries] makes one item per entry that
    is a separator or has both a label and an action, in the order of
    the table, each with the label and the action of its entry; an
    entry with a label and no action, or an action and no label, gives
    no item at all (the constructor refuses it and the NULL item is not
    appended).  The menu bar has one item per submenu, in order, each
    with the menu of its entries. *)
Theorem menu_widgets_follow_entries
    (entries : list MateUiMenuEntry) (submenus : list MateUiSubmenu)
    (accel_group : option GObject) :
  let menu := mate_ui_menu_new_from_entries parse entries accel_group in
  item_action <$> menu
  = action_name <$> filter (λ e, entry_shown e = true) entries
  ∧ item_label <$> menu
    = label <$> filter (λ e, entry_shown e = true) entries
  ∧ length menu ≤ length entries
  ∧ (length menu = length entries ↔
     Forall (λ e, entry_shown e = true) entries)
  ∧ mate_ui_menu_bar_new_from_entries parse submenus accel_group
    = (λ sm, (submenu_label sm,
              mate_ui_menu_new_from_entries parse (Menu.entries sm)
                accel_group)) <$> submenus.
Proof.
  intros menu. subst menu.
  destruct (menu_new_items accel_group entries) as [Ha Hl].
  split; [done|]. split; [done|].
  assert (length (mate_ui_menu_new_from_entries parse entries accel_group)
          = length (filter (λ e, entry_shown e = true) entries)) as Hlen.
  { by rewrite <- (length_fmap item_action), Ha, length_fmap. }
  rewrite Hlen. split; [apply length_filter|]. split.
  - clear. induction entries as [|e es IH]; [done|].
    destruct (entry_shown e) eqn:E.
    + rewrite filter_cons_True by done. cbn [length].
      rewrite Forall_cons. split.
      * intros [= H]. split; [done|]. by apply IH.
      * intros [_ H]. f_equal. by apply IH.
    + rewrite filter_cons_False by (by rewrite E). cbn [length].
      split.
      * intros H.
        pose proof (length_filter (λ e, entry_shown e = true) es). lia.
      * intros [H _]%Forall_cons. congruence.
  - apply menu_bar_new_map.
Qed.

(** X22. Accelerators of the items of [mate_ui_menu_new_from_entries]:
    without an accelerator group no item has one; and an item has one
    only if its entry names an accelerator that parses to a key that is
    not 0, and then it is that key with its modifiers. *)
Theorem menu_widget_accelerators
    (entries : list MateUiMenuEntry) (accel_group : option GObject)
    (item : GtkMenuItem) (key mods : N) :
  item ∈ mate_ui_menu_new_from_entries parse entries accel_group →
  item_accelerator item = Some (key, mods) →
  key ≠ 0%N
  ∧ is_Some accel_group
  ∧ ∃ e s,
      e ∈ entries ∧ Menu.accel e = Some s ∧ parse s = (key, mods)
      ∧ item_action item = action_name e.
Proof.
  rewrite menu_new_omap. intros (e & He & Hitem)%list_elem_of_omap Hacc.
  pose proof (entry_widget_cases accel_group e) as H.
  rewrite Hitem in H. destruct H as (_ & Ha & _ & [Hnone|Hsome]).
  - congruence.
  - destruct Hsome as (s & Hs & Hg & Hparse & Hk).
    rewrite Hacc in Hparse. injection Hparse as Hparse.
    rewrite <- Hparse in Hk. cbn in Hk.
    split; [done|]. split; [done|]. by exists e, s.
Qed.

End Widgets.

Lemma menu_widget_accelerators_witness :
  115%N ≠ 0%N ∧ is_Some (Some WidgetSamples.an_accel_group)
  ∧ ∃ e s,
      e ∈ Menu.entries file_menu ∧ Menu.accel e = Some s
      ∧ WidgetSamples.parse_one s = (115%N, 5%N)
      ∧ item_action
          (mnemonic_item (lit "Save _As...") (lit "win.save-as")
             (Some (115%N, 5%N)))
        = action_name e.
Proof.
  apply (menu_widget_accelerators WidgetSamples.parse_one
           (Menu.entries file_menu) (Some WidgetSamples.an_accel_group)
           (mnemonic_item (lit "Save _As...") (lit "win.save-as")
              (Some (115%N, 5%N))) 115 5).
  - apply list_elem_of_lookup. exists 0. reflexivity.
  - reflexivity.
Defined.

Lemma menu_widgets_follow_entries_witness :
  length (mate_ui_menu_new_from_entries WidgetSamples.parse_one
            (Menu.entries file_menu) None)
  = length (Menu.entries file_menu).
Proof.
  destruct (menu_widgets_follow_entries WidgetSamples.parse_one
              (Menu.entries file_menu) [] None) as (_ & _ & _ & Hall & _).
  apply Hall. repeat constructor.
Defined.

Lemma spec_items_match_widgets parse group es :
  Forall entry_ok es →
  Forall (λ e, entry_shown e = true) es →
  model_item_action <$> (spec_item <$> es)
  = item_action <$> mate_ui_menu_new_from_entries parse es group
  ∧ model_item_label <$> (spec_item <$> es)
    = (fmap without_underscores ∘ item_label)
        <$> mate_ui_menu_new_from_entries parse es group.
Proof.
  intros Hok Hshown.
  destruct (menu_new_items parse group es) as [Ha Hl].
  rewrite list_fmap_compose, Ha, Hl.
  assert (filter (λ e, entry_shown e = true) es = es) as ->.
  { clear -Hshown. induction Hshown as [|e es He _ IH]; [done|].
    by rewrite filter_cons_True, IH. }
  rewrite <- !list_fmap_compose. split.
  - apply list_fmap_ext. intros i e He. cbn. unfold spec_item.
    destruct (label e) eqn:El; [done|]. cbn.
    rewrite Forall_forall in Hok.
    assert (e ∈ es) as Hin by (by eapply list_elem_of_lookup_2).
    specialize (Hok e Hin). unfold entry_ok in Hok. by rewrite El in Hok.
  - apply list_fmap_ext. intros i e He. cbn. unfold spec_item.
    by destruct (label e).
Qed.

(** X23. The two builders agree.  For a table whose submenus have a
    label and whose entries are separators or have both a label and an
    action, the GMenu model of [mate_ui_menu_model_new_from_entries]
    has, submenu by submenu and item by item, the actions of the items
    [mate_ui_menu_bar_new_from_entries] makes, and their labels with
    every '_' removed; separators of the one are the sections of the
    other. *)
Theorem model_matches_widgets
    (parse : list ascii → N * N) (accel_group : option GObject)
    (submenus : list MateUiSubmenu) :
  Forall submenu_ok submenus →
  Forall (λ sm, Forall (λ e, entry_shown e = true) (Menu.entries sm))
    submenus →
  ∃ model,
    mate_ui_menu_model_new_from_entries submenus = Some model
    ∧ (λ sub, model_item_action <$> g_items sub) <$> model
      = (λ bar, item_action <$> bar.2)
          <$> mate_ui_menu_bar_new_from_entries parse submenus accel_group
    ∧ (λ sub, model_item_label <$> g_items sub) <$> model
      = (λ bar, (fmap without_underscores ∘ item_label) <$> bar.2)
          <$> mate_ui_menu_bar_new_from_entries parse submenus accel_group
    ∧ Some ∘ g_label <$> model
      = (λ bar, without_underscores <$> bar.1)
          <$> mate_ui_menu_bar_new_from_entries parse submenus accel_group.
Proof.
  intros Hok Hshown. exists (spec_submenu <$> submenus).
  split.
  { unfold mate_ui_menu_model_new_from_entries.
    by rewrite fold_append_submenu_spec. }
  rewrite menu_bar_new_map.
  rewrite <- !list_fmap_compose.
  split; [|split]; apply list_fmap_ext; intros i sm Hsm; cbn.
  - rewrite Forall_forall in Hok, Hshown.
    assert (sm ∈ submenus) as Hin by (by eapply list_elem_of_lookup_2).
    destruct (Hok sm Hin) as [_ Hes].
    by apply spec_items_match_widgets, Hshown.
  - rewrite Forall_forall in Hok, Hshown.
    assert (sm ∈ submenus) as Hin by (by eapply list_elem_of_lookup_2).
    destruct (Hok sm Hin) as [_ Hes].
    by apply spec_items_match_widgets, Hshown.
  - rewrite Forall_forall in Hok.
    assert (sm ∈ submenus) as Hin by (by eapply list_elem_of_lookup_2).
    destruct (Hok sm Hin) as [(l & -> & _) _]. done.
Qed.

Lemma model_matches_widgets_witness :
  ∃ model,
    mate_ui_menu_model_new_from_entries [file_menu] = Some model
    ∧ (λ sub, model_item_action <$> g_items sub) <$> model
      = (λ bar, item_action <$> bar.2)
          <$> mate_ui_menu_bar_new_from_entries WidgetSamples.parse_one
                [file_menu] None
    ∧ (λ sub, model_item_label <$> g_items sub) <$> model
      = (λ bar, (fmap without_underscores ∘ item_label) <$> bar.2)
          <$> mate_ui_menu_bar_new_from_entries WidgetSamples.parse_one
                [file_menu] None
    ∧ Some ∘ g_label <$> model
      = (λ bar, without_underscores <$> bar.1)
          <$> mate_ui_menu_bar_new_from_entries WidgetSamples.parse_one
                [file_menu] None.
Proof.
  apply model_matches_widgets.
  - repeat constructor;
      try (eexists; split; [reflexivity|]);
      try (apply (bool_decide_unpack _); vm_compute; reflexivity).
  - repeat constructor.
Defined.

(** ** Durations *)

Import Util SettingsBinding SettingsSamples.

Lemma print_uint_inj a b : print_uint a = print_uint b → a = b.
Proof.
  unfold print_uint. intros H.
  apply (f_equal string_of_list_ascii) in H.
  rewrite !string_of_list_ascii_of_string in H.
  apply DecimalN.Unsigned.to_uint_inj.
  assert (∀ n, DecimalString.NilZero.uint_of_string
                 (DecimalString.NilZero.string_of_uint (N.to_uint n))
               = Some (N.to_uint n)) as Husu.
  { intros n. apply DecimalString.NilZero.usu.
    destruct n as [|p]; [done|]. cbn.
    intros Hnil. pose proof (DecimalPos.Unsigned.to_uint_nonnil p). done. }
  pose proof (Husu a) as Ha. rewrite H, Husu in Ha. by injection Ha.
Qed.

Lemma digits_no_space d :
  " " ∉ list_ascii_of_string (DecimalString.NilEmpty.string_of_uint d).
Proof.
  induction d; cbn; [by intros ?%elem_of_nil|..];
    (intros [?|?]%elem_of_cons; [discriminate|done]).
Qed.

Lemma print_uint_no_space n : " " ∉ print_uint n.
Proof.
  unfold print_uint, DecimalString.NilZero.string_of_uint.
  destruct (N.to_uint n) eqn:E; try apply digits_no_space.
  cbn. intros [?|?%elem_of_nil]%elem_of_cons; [discriminate|done].
Qed.

Lemma words_field n unit rest :
  (" " ∉ unit) →
  split_tokens " " None (print_uint n ++ " " :: unit ++ " " :: rest)
  = print_uint n :: unit :: split_tokens " " None rest.
Proof.
  intros Hunit.
  rewrite split_tokens_cut_all by apply print_uint_no_space.
  by rewrite split_tokens_cut_all.
Qed.

Lemma words_last n unit :
  (" " ∉ unit) →
  split_tokens " " None (print_uint n ++ " " :: unit)
  = [print_uint n; unit].
Proof.
  intros Hunit.
  rewrite split_tokens_cut_all by apply print_uint_no_space.
  by rewrite split_tokens_no_delim.
Qed.

(** The words of a formatted duration. *)
Lemma format_time_words seconds :
  split_tokens " " None (mate_ui_util_format_time seconds)
  = if (seconds <? 60)%N then [print_uint seconds; lit "sec"]
    else if (seconds <? 3600)%N then
      [print_uint (seconds / 60); lit "min";
       print_uint (seconds mod 60); lit "sec"]
    else
      [print_uint (seconds / 3600); lit "hr";
       print_uint ((seconds mod 3600) / 60); lit "min";
       print_uint (seconds mod 60); lit "sec"].
Proof.
  assert (" " ∉ lit "sec") as Hsec
    by (apply (bool_decide_unpack _); vm_compute; reflexivity).
  assert (" " ∉ lit "min") as Hmin
    by (apply (bool_decide_unpack _); vm_compute; reflexivity).
  assert (" " ∉ lit "hr") as Hhr
    by (apply (bool_decide_unpack _); vm_compute; reflexivity).
  unfold mate_ui_util_format_time.
  destruct (seconds <? 60)%N; [|destruct (seconds <? 3600)%N].
  - by apply words_last.
  - replace (print_uint (seconds / 60) ++ lit " min "
             ++ print_uint (seconds mod 60) ++ lit " sec")
      with (print_uint (seconds / 60)
            ++ " " :: lit "min"
            ++ " " :: (print_uint (seconds mod 60) ++ " " :: lit "sec"))
      by done.
    by rewrite words_field, words_last.
  - cbv zeta.
    replace (print_uint (seconds / 3600) ++ lit " hr "
             ++ print_uint (seconds mod 3600 / 60) ++ lit " min "
             ++ print_uint (seconds mod 60) ++ lit " sec")
      with (print_uint (seconds / 3600)
            ++ " " :: lit "hr"
            ++ " " :: (print_uint (seconds mod 3600 / 60)
                       ++ " " :: lit "min"
                       ++ " " :: (print_uint (seconds mod 60)
                                  ++ " " :: lit "sec")))
      by done.
    by rewrite !words_field, words_last.
Qed.

(** X24. The fields of a formatted duration.  Below one minute
    [mate_ui_util_format_time] prints the seconds alone; below one hour
    it prints minutes and seconds; from one hour on it prints hours,
    minutes and seconds.  The minutes and seconds printed are below 60
    and, with the hours, they add up to the duration. *)
Theorem format_time_fields (seconds : N) :
  ∃ hours mins secs,
    (hours * 3600 + mins * 60 + secs = seconds)%N
    ∧ (mins < 60)%N ∧ (secs < 60)%N
    ∧ mate_ui_util_format_time seconds
      = if (seconds <? 60)%N then print_uint secs ++ lit " sec"
        else if (seconds <? 3600)%N then
          print_uint mins ++ lit " min " ++ print_uint secs ++ lit " sec"
        else
          print_uint hours ++ lit " hr " ++ print_uint mins ++ lit " min "
          ++ print_uint secs ++ lit " sec".
Proof.
  exists (seconds / 3600)%N, ((seconds mod 3600) / 60)%N,
    (seconds mod 60)%N.
  pose proof (N.div_mod' seconds 3600) as H1.
  pose proof (N.div_mod' (seconds mod 3600) 60) as H2.
  pose proof (N.mod_lt seconds 3600 ltac:(done)) as H3.
  pose proof (N.mod_lt seconds 60 ltac:(done)) as H4.
  pose proof (N.mod_lt (seconds mod 3600) 60 ltac:(done)) as H5.
  assert ((seconds mod 3600) mod 60 = seconds mod 60)%N as H6.
  { change 3600%N with (60 * 60)%N. rewrite N.Div0.mod_mul_r.
    rewrite N.mul_comm, N.Div0.mod_add. by rewrite N.Div0.mod_mod. }
  assert ((seconds mod 3600) / 60 < 60)%N as H7.
  { apply N.Div0.div_lt_upper_bound. lia. }
  split; [lia|]. split; [done|]. split; [done|].
  unfold mate_ui_util_format_time.
  destruct (N.ltb_spec seconds 60) as [Hlt|Hge].
  - by rewrite (N.mod_small seconds 60).
  - destruct (N.ltb_spec seconds 3600) as [Hlt'|Hge']; [|done].
    by rewrite (N.mod_small seconds 3600).
Qed.

(** X25. Two durations are displayed alike only if they are the same
    duration: [mate_ui_util_format_time] is injective. *)
Theorem format_time_injective (a b : N) :
  mate_ui_util_format_time a = mate_ui_util_format_time b → a = b.
Proof.
  intros H. apply (f_equal (split_tokens " " None)) in H.
  rewrite !format_time_words in H.
  pose proof (N.div_mod' a 60) as Ha60.
  pose proof (N.div_mod' b 60) as Hb60.
  pose proof (N.div_mod' a 3600) as Ha3600.
  pose proof (N.div_mod' b 3600) as Hb3600.
  pose proof (N.div_mod' (a mod 3600) 60) as Ha'.
  pose proof (N.div_mod' (b mod 3600) 60) as Hb'.
  assert (∀ n, (n mod 3600) mod 60 = n mod 60)%N as Hmod.
  { intros n. change 3600%N with (60 * 60)%N. rewrite N.Div0.mod_mul_r.
    rewrite N.mul_comm, N.Div0.mod_add. by rewrite N.Div0.mod_mod. }
  rewrite Hmod in Ha', Hb'.
  destruct (a <? 60)%N, (b <? 60)%N;
    [|destruct (b <? 3600)%N; apply (f_equal length) in H; discriminate H
     |destruct (a <? 3600)%N; apply (f_equal length) in H; discriminate H
     |destruct (a <? 3600)%N, (b <? 3600)%N;
      [| apply (f_equal length) in H; discriminate H
       | apply (f_equal length) in H; discriminate H |]].
  - injection H as H. by apply print_uint_inj.
  - injection H as Hm Hs. apply print_uint_inj in Hm, Hs. lia.
  - injection H as Hh Hm Hs. apply print_uint_inj in Hh, Hm, Hs. lia.
Qed.

Lemma format_time_injective_witness :
  mate_ui_util_format_time 3725 = lit "1 hr 2 min 5 sec"
  ∧ (60 * 62 + 5 = 3725)%N.
Proof.
  split; [reflexivity|].
  apply format_time_injective. reflexivity.
Defined.

(** ** The combo box mapping *)

Lemma get_mapping_from_spec rows str index :
  match combo_box_get_mapping_from rows str index with
  | Some i =>
      index ≤ i
      ∧ rows !! (i - index) = Some (Some str)
      ∧ ∀ j, j < i - index → rows !! j ≠ Some (Some str)
  | None => Some str ∉ rows
  end.
Proof.
  revert index. induction rows as [|item rows IH]; intros index; cbn.
  - by intros ?%elem_of_nil.
  - unfold g_strcmp0_equal. case_bool_decide as Hitem.
    + subst item. rewrite Nat.sub_diag. split; [done|]. split; [done|].
      intros j Hj. lia.
    + specialize (IH (S index)).
      destruct (combo_box_get_mapping_from rows str (S index)) as [i|].
      * destruct IH as (Hle & Hrow & Hfirst). split; [lia|].
        replace (i - index) with (S (i - S index)) by lia.
        split; [done|]. intros [|j] Hj; cbn; [congruence|].
        apply Hfirst. lia.
      * by apply not_elem_of_cons.
Qed.

(** X26. [combo_box_get_mapping] never stores an index.  It takes the
    combo box from the [GValue] it is to fill and stores the index in
    the same [GValue]: when the value is an int, as it is for the
    property "active" the mapping is installed for, no combo box is
    found and the function returns FALSE whatever the rows hold; and
    when the value holds the combo box, the function returns TRUE
    exactly when a row holds the string, and [g_value_set_int] is
    refused.  In every case the [GValue] is left as it was. *)
Theorem combo_box_get_mapping_stores_nothing
    (combos : gmap GObject GtkComboBox) (value : GValue)
    (str : list ascii) :
  (combo_box_get_mapping combos value str).2 = value
  ∧ (∀ i, value = GValueInt i →
          (combo_box_get_mapping combos value str).1 = false)
  ∧ ((combo_box_get_mapping combos value str).1 = true ↔
     ∃ o c rows,
       value = GValueObject (Some o) ∧ combos !! o = Some c
       ∧ combo_model c = Some rows ∧ Some str ∈ rows).
Proof.
  unfold combo_box_get_mapping.
  split; [|split].
  - destruct (combo_box_get_mapping_from _ _ _) as [index|] eqn:E; [|done].
    destruct value as [i|o]; [|done]. by cbn in E.
  - by intros i ->.
  - pose proof (get_mapping_from_spec
                  (model_rows
                     (gtk_combo_box_get_model combos
                        (g_value_get_object value))) str 0) as Hspec.
    destruct (combo_box_get_mapping_from _ _ _) as [index|]; cbn [fst].
    + split; [intros _|done].
      destruct Hspec as (_ & Hrow & _). rewrite Nat.sub_0_r in Hrow.
      destruct value as [i|[o|]]; cbn in Hrow; try done.
      destruct (combos !! o) as [c|] eqn:Hc; [|done].
      destruct (combo_model c) as [rows|] eqn:Hm; [|done].
      exists o, c, rows. cbn in Hrow.
      repeat split; try done. by eapply list_elem_of_lookup_2.
    + split; [done|]. intros (o & c & rows & -> & Hc & Hm & Hin).
      cbn in Hspec. by rewrite Hc, Hm in Hspec.
Qed.

Lemma combo_box_get_mapping_stores_nothing_witness :
  (combo_box_get_mapping
     {[ a_combo_box := sizes_combo ]} property_value_init (lit "large")).1
  = false.
Proof.
  destruct (combo_box_get_mapping_stores_nothing
              {[ a_combo_box := sizes_combo ]} property_value_init
              (lit "large")) as (_ & Hint & _).
  apply (Hint 0%Z). reflexivity.
Defined.

(** X27. The string binding of a combo box does not round-trip.
    [combo_box_set_mapping] takes the combo box from the [GValue] of the
    property: for the int property "active" it finds none and writes the
    empty string, whatever row is active; it writes the string of the
    active row only for a value that holds the combo box.  So the string
    stored when the user selects a row is empty, and reading any stored
    string back selects no row. *)
Theorem combo_box_mapping_no_round_trip
    (combos : gmap GObject GtkComboBox) :
  (∀ i, combo_box_set_mapping combos (GValueInt i) = [])
  ∧ (∀ value str,
       combo_box_set_mapping combos value = str → str ≠ [] →
       ∃ o c rows i,
         value = GValueObject (Some o) ∧ combos !! o = Some c
         ∧ combo_model c = Some rows ∧ combo_active c = Some i
         ∧ rows !! i = Some (Some str))
  ∧ (∀ c str,
       combo_box_set_mapping combos (property_value_active c) = []
       ∧ combo_box_get_mapping combos property_value_init str
         = (false, property_value_init)).
Proof.
  split; [done|]. split; [|done].
  intros value str Hset Hne. unfold combo_box_set_mapping in Hset.
  destruct value as [i|[o|]]; cbn in Hset; try congruence.
  destruct (combos !! o) as [c|] eqn:Hc; [|congruence].
  destruct (combo_active c) as [i|] eqn:Ha; [|congruence].
  destruct (combo_model c) as [rows|] eqn:Hm; cbn in Hset;
    [|rewrite lookup_nil in Hset; congruence].
  destruct (rows !! i) as [[s|]|] eqn:Hrow; try congruence.
  subst s. by exists o, c, rows, i.
Qed.

Lemma combo_box_mapping_no_round_trip_witness :
  ∃ o c rows i,
    GValueObject (Some a_combo_box) = GValueObject (Some o)
    ∧ ({[ a_combo_box := sizes_combo ]} : gmap GObject GtkComboBox) !! o
      = Some c
    ∧ combo_model c = Some rows ∧ combo_active c = Some i
    ∧ rows !! i = Some (Some (lit "large")).
Proof.
  destruct (combo_box_mapping_no_round_trip
              {[ a_combo_box := sizes_combo ]}) as (_ & Hobj & _).
  apply (Hobj (GValueObject (Some a_combo_box)) (lit "large")).
  - vm_compute. reflexivity.
  - discriminate.
Defined.

(** The binding at work on a combo box with the rows "small", no string
    and "large", the last one active: the string written is empty and
    "large", read back, selects nothing. *)
Example combo_box_binding_sample :
  combo_box_set_mapping {[ a_combo_box := sizes_combo ]}
    (property_value_active sizes_combo) = []
  ∧ combo_box_get_mapping {[ a_combo_box := sizes_combo ]}
      property_value_init (lit "large")
    = (false, GValueInt 0).
Proof. split; vm_compute; reflexivity. Qed.

(** ** The layout of the box *)

Import Layout LayoutSpec.

Lemma fold_and_then_failed {A} (f : A → GtkState → Outcome) l e :
  fold_left (λ acc x, and_then acc (f x)) l (failed e) = failed e.
Proof. by induction l. Qed.

Lemma and_then_defined m : and_then m defined = m.
Proof. by destruct m. Qed.

Lemma remove_child_sublist w cs : remove_child w cs `sublist_of` cs.
Proof.
  induction cs as [|c cs IH]; cbn; [done|].
  case_bool_decide; [by apply sublist_cons|by apply sublist_skip].
Qed.

Lemma remove_child_elem_of w cs x :
  x ≠ w → x ∈ child <$> remove_child w cs ↔ x ∈ child <$> cs.
Proof.
  intros Hx. induction cs as [|c cs IH]; cbn; [done|].
  case_bool_decide as Hc; rewrite ?fmap_cons, !elem_of_cons.
  - split; [by right|]. intros [->|?]; [congruence|done].
  - by rewrite IH.
Qed.

Lemma remove_child_not_elem_of w cs :
  NoDup (child <$> cs) → w ∉ child <$> remove_child w cs.
Proof.
  induction cs as [|c cs IH]; cbn; [intros _ ?%elem_of_nil; done|].
  intros [Hc Hnd]%NoDup_cons. case_bool_decide as Hw.
  - by subst w.
  - rewrite fmap_cons, not_elem_of_cons. split; [congruence|by apply IH].
Qed.

Lemma remove_child_NoDup w cs :
  NoDup (child <$> cs) → NoDup (child <$> remove_child w cs).
Proof.
  intros Hnd.
  eapply sublist_NoDup; [done|apply fmap_sublist, remove_child_sublist].
Qed.

Lemma ref_count_live gtk o :
  1 ≤ ref_count_of gtk o →
  ∃ st, live gtk !! o = Some st ∧ 1 ≤ ref_count st.
Proof.
  unfold ref_count_of. destruct (live gtk !! o) as [st|]; cbn; [|lia].
  by exists st.
Qed.

Lemma consistent_child box gtk w :
  box_consistent box gtk → w ∈ children_of gtk →
  w ≠ box ∧ is_widget w = true
  ∧ ∃ st, live gtk !! w = Some st ∧ parent st = Some box
          ∧ floating st = false ∧ 1 ≤ ref_count st.
Proof.
  intros (_ & _ & Hbox & _ & Hall) Hw.
  split; [by intros ->|].
  rewrite Forall_forall in Hall.
  destruct (Hall w Hw) as (Hwid & Hpar & Hfl & Hrc). split; [done|].
  unfold parent_of, is_floating, ref_count_of in *.
  destruct (live gtk !! w) as [st|]; [|done]. by exists st.
Qed.

(** One round of the removal loop. *)
Lemma remove_step box gtk w :
  box_consistent box gtk → w ∈ children_of gtk →
  ∃ gtk',
    gtk_container_remove (Some box) w gtk = defined gtk'
    ∧ box_children gtk' = remove_child w (box_children gtk)
    ∧ (∀ st, live gtk !! w = Some st →
             live gtk' !! w
             = if (ref_count st =? 1)%nat then None
               else Some {| ref_count := pred (ref_count st);
                            floating := floating st; parent := None;
                            visible := visible st |})
    ∧ (∀ x, x ≠ w → live gtk' !! x = live gtk !! x).
Proof.
  intros Hc Hw.
  destruct (consistent_child _ _ _ Hc Hw)
    as (Hne & Hwid & st & Hst & Hpar & Hfl & Hrc).
  destruct Hc as (Hbox & [stb Hstb] & _).
  unfold gtk_container_remove. rewrite Hstb, Hst, Hbox.
  unfold is_widget in Hwid. rewrite Hwid. cbn [andb].
  unfold g_object_ref. rewrite Hst. cbn [and_then].
  unfold gtk_box_remove. cbn [with_object box_children].
  rewrite bool_decide_eq_true_2 by done.
  unfold gtk_widget_unparent. cbn [with_object live].
  rewrite lookup_insert_eq. cbn [parent]. rewrite Hpar.
  unfold g_object_unref at 1. cbn [with_object live ref_count].
  rewrite lookup_insert_eq. cbn [ref_count].
  destruct (ref_count st) as [|n] eqn:Hn; [lia|].
  cbn [Nat.leb and_then with_object with_children live box_children
       floating parent visible pred].
  unfold g_object_unref, with_children, with_object.
  cbn [live box_children]. rewrite lookup_insert_eq. cbn [ref_count].
  destruct n as [|n]; cbn [Nat.leb Nat.eqb].
  - eexists. split; [reflexivity|]. cbn [live box_children].
    split; [done|]. split.
    + intros st' [= <-]. rewrite lookup_delete_eq. by rewrite Hn.
    + intros x Hx. by rewrite lookup_delete_ne, !lookup_insert_ne.
  - eexists. split; [reflexivity|]. cbn [live box_children].
    split; [done|]. split.
    + intros st' [= <-]. rewrite lookup_insert_eq. by rewrite Hn.
    + intros x Hx. by rewrite !lookup_insert_ne.
Qed.

Lemma remove_step_consistent box gtk gtk' w :
  box_consistent box gtk → w ∈ children_of gtk →
  box_children gtk' = remove_child w (box_children gtk) →
  (∀ x, x ≠ w → live gtk' !! x = live gtk !! x) →
  box_consistent box gtk'.
Proof.
  intros Hc Hw Hch Hlive.
  pose proof (consistent_child _ _ _ Hc Hw) as (Hne & _).
  destruct Hc as (Hbox & Hstb & Hnb & Hnd & Hall).
  assert (∀ x, x ∈ children_of gtk' → x ∈ children_of gtk ∧ x ≠ w)
    as Hsub.
  { unfold children_of. rewrite Hch. intros x Hx. split.
    - eapply elem_of_sublist; [done|].
      apply fmap_sublist, remove_child_sublist.
    - intros ->. by apply (remove_child_not_elem_of w (box_children gtk)). }
  split; [done|]. split; [by rewrite Hlive|].
  split; [intros Hin; by apply Hsub in Hin as [? _]|].
  split; [unfold children_of; rewrite Hch; by apply remove_child_NoDup|].
  apply Forall_forall. intros x Hx. apply Hsub in Hx as [Hx Hxw].
  rewrite Forall_forall in Hall. specialize (Hall x Hx).
  unfold parent_of, is_floating, ref_count_of in *.
  by rewrite (Hlive x Hxw).
Qed.

(** The removal loop of [mate_ui_window_rebuild_layout]. *)
Lemma remove_all box l :
  ∀ gtk,
    box_consistent box gtk → NoDup l → l ⊆ children_of gtk →
    ∃ gtk1,
      fold_left
        (λ acc widget,
           and_then acc (gtk_container_remove (Some box) widget))
        l (defined gtk)
      = defined gtk1
      ∧ box_consistent box gtk1
      ∧ (∀ x, x ∈ children_of gtk1 ↔ x ∈ children_of gtk ∧ x ∉ l)
      ∧ (∀ x st,
           x ∈ l → live gtk !! x = Some st →
           live gtk1 !! x
           = if (ref_count st =? 1)%nat then None
             else Some {| ref_count := pred (ref_count st);
                          floating := floating st; parent := None;
                          visible := visible st |})
      ∧ (∀ x, x ∉ l → live gtk1 !! x = live gtk !! x).
Proof.
  induction l as [|w l IH]; intros gtk Hc Hnd Hsub.
  - exists gtk. split; [done|]. split; [done|]. split.
    + intros x. split; [intros ?; split; [done|apply not_elem_of_nil]|].
      by intros [? _].
    + split; [by intros x st ?%elem_of_nil|done].
  - apply NoDup_cons in Hnd as [Hwl Hnd].
    assert (w ∈ children_of gtk) as Hw by (apply Hsub; left).
    destruct (remove_step _ _ _ Hc Hw) as (gtk' & Hrm & Hch & Hw' & Hoth).
    pose proof (remove_step_consistent _ _ _ _ Hc Hw Hch Hoth) as Hc'.
    assert (∀ x, x ≠ w → x ∈ children_of gtk' ↔ x ∈ children_of gtk)
      as Hmem.
    { intros x Hx. unfold children_of. rewrite Hch.
      by apply remove_child_elem_of. }
    assert (w ∉ children_of gtk') as Hwgone.
    { unfold children_of. rewrite Hch. apply remove_child_not_elem_of.
      by destruct Hc as (_ & _ & _ & ? & _). }
    destruct (IH gtk' Hc' Hnd) as (gtk1 & Hfold & Hc1 & Hmem1 & Hin1 & Hout1).
    { intros x Hx. apply Hmem; [by intros ->|]. apply Hsub. by right. }
    exists gtk1. cbn [fold_left and_then]. rewrite Hrm.
    split; [done|]. split; [done|]. split; [|split].
    + intros x. rewrite Hmem1, not_elem_of_cons.
      destruct (decide (x = w)) as [->|Hx].
      * split; [by intros [? _]|]. by intros [_ [? _]].
      * rewrite (Hmem x Hx). tauto.
    + intros x st [->|Hx]%elem_of_cons Hst.
      * rewrite (Hout1 w Hwl). by apply Hw'.
      * apply Hin1; [done|]. rewrite Hoth; [done|]. by intros ->.
    + intros x [Hxw Hxl]%not_elem_of_cons. rewrite (Hout1 x Hxl).
      by apply Hoth.
Qed.

Lemma get_children_permutation box gtk :
  gtk_container_get_children (Some box) gtk ≡ₚ children_of gtk.
Proof.
  unfold gtk_container_get_children, children_of.
  rewrite reverse_Permutation, <- fmap_app.
  apply fmap_Permutation.
  induction (box_children gtk) as [|c cs IH]; [done|].
  rewrite !filter_cons. destruct (pack c); repeat case_decide; try done.
  - cbn. by rewrite IH.
  - rewrite <- Permutation_middle. by rewrite IH.
Qed.

(** Packing one part that is set. *)
Lemma pack_step box gtk p e f pk :
  box_consistent box gtk → packable box gtk p →
  ∃ gtk',
    pack_part (Some box) (Some p) e f pk gtk = defined gtk'
    ∧ box_children gtk'
      = box_children gtk
        ++ (if bool_decide (is_widget p = true ∧ p ∉ children_of gtk)
            then [{| child := p; expand := e; fill := f; pack := pk |}]
            else [])
    ∧ (∀ x, x ≠ p → live gtk' !! x = live gtk !! x)
    ∧ (is_widget p = false → live gtk' !! p = live gtk !! p)
    ∧ (is_widget p = true →
       ∀ st, live gtk !! p = Some st →
             live gtk' !! p
             = Some {| ref_count :=
                         if bool_decide (p ∈ children_of gtk)
                         then ref_count st
                         else if floating st then ref_count st
                              else S (ref_count st);
                       floating := false; parent := Some box;
                       visible := true |}).
Proof.
  intros Hc (Hne & Htop & (st & Hst & _)%ref_count_live & Hpar).
  pose proof Hc as (Hbox & [stb Hstb] & _).
  unfold pack_part, gtk_box_pack. rewrite Hstb, Hst, Hbox. cbn [negb].
  unfold is_widget in *.
  destruct (g_type_is_a (g_class p) GTK_TYPE_WIDGET) eqn:Hwid; cbn [negb].
  - destruct (decide (p ∈ children_of gtk)) as [Hin|Hnin].
    + (* a part packed before: it has a parent *)
      destruct (consistent_child _ _ _ Hc Hin)
        as (_ & _ & st' & Hst' & Hp' & Hfl' & Hrc').
      rewrite Hst in Hst'. injection Hst' as <-.
      rewrite Hp'. rewrite bool_decide_eq_true_2 by (by rewrite Hstb).
      cbn [and_then]. unfold gtk_widget_show. rewrite Hst, Hwid.
      eexists. split; [reflexivity|]. cbn [with_object live box_children].
      rewrite bool_decide_eq_false_2 by (intros [_ ?]; done).
      split; [by rewrite app_nil_r|].
      split; [intros x Hx; by rewrite lookup_insert_ne|].
      split; [done|]. intros _ st' [= <-]. rewrite lookup_insert_eq.
      rewrite bool_decide_eq_true_2 by done. by rewrite Hfl', Hp'.
    + specialize (Hpar eq_refl Hnin). unfold parent_of in Hpar.
      rewrite Hst in Hpar. cbn in Hpar. rewrite Hpar.
      rewrite Htop. rewrite bool_decide_eq_false_2 by done. cbn [orb].
      unfold g_object_ref_sink, with_object, with_children.
      cbn [live box_children]. rewrite lookup_insert_eq.
      cbn [and_then ref_count floating parent visible].
      unfold gtk_widget_show. cbn [live]. rewrite lookup_insert_eq, Hwid.
      eexists. split; [reflexivity|]. cbn [with_object live box_children].
      rewrite bool_decide_eq_true_2 by done.
      split; [done|].
      split; [intros x Hx; by rewrite !lookup_insert_ne|].
      split; [done|]. intros _ st' [= <-]. rewrite lookup_insert_eq.
      by rewrite bool_decide_eq_false_2 by done.
  - cbn [and_then]. unfold gtk_widget_show. rewrite Hst, Hwid.
    exists gtk. split; [done|].
    rewrite bool_decide_eq_false_2 by (intros [? _]; done).
    split; [by rewrite app_nil_r|]. done.
Qed.

Lemma pack_step_consistent box gtk gtk' p e f pk :
  box_consistent box gtk → packable box gtk p →
  pack_part (Some box) (Some p) e f pk gtk = defined gtk' →
  box_consistent box gtk'
  ∧ (∀ q, packable box gtk q → packable box gtk' q)
  ∧ (∀ q, live gtk !! q = None → live gtk' !! q = None).
Proof.
  intros Hc Hp Hpack.
  destruct (pack_step box gtk p e f pk Hc Hp)
    as (gtk2 & Hpack2 & Hch & Hoth & Hnw & Hwid).
  rewrite Hpack in Hpack2. injection Hpack2 as <-.
  pose proof Hp as (Hne & Htop & (st & Hst & Hrc)%ref_count_live & Hpar).
  pose proof Hc as (Hbox & Hstb & Hnb & Hnd & Hall).
  assert (∀ x, x ∈ children_of gtk → x ∈ children_of gtk') as Hmono.
  { intros x Hx. unfold children_of. rewrite Hch, fmap_app.
    apply elem_of_app. by left. }
  assert (∀ x, x ∈ children_of gtk' →
               x ∈ children_of gtk
               ∨ x = p ∧ is_widget p = true ∧ p ∉ children_of gtk)
    as Hnew.
  { intros x. unfold children_of at 1. rewrite Hch, fmap_app.
    intros [?|Hx]%elem_of_app; [by left|]. right.
    case_bool_decide as Hcase; [|by apply elem_of_nil in Hx].
    cbn in Hx. apply list_elem_of_singleton in Hx as ->. tauto. }
  assert (is_widget p = true → p ∈ children_of gtk') as Hpacked.
  { intros Hw. destruct (decide (p ∈ children_of gtk)); [by apply Hmono|].
    unfold children_of. rewrite Hch, fmap_app.
    rewrite bool_decide_eq_true_2 by done. apply elem_of_app. right.
    cbn. left. }
  split; [|split].
  - split; [done|]. split; [by rewrite Hoth|].
    split; [intros [?|(-> & _)]%Hnew; done|].
    split.
    + unfold children_of. rewrite Hch, fmap_app. apply NoDup_app.
      split; [done|]. split; [|case_bool_decide; cbn;
                                [apply NoDup_singleton|apply NoDup_nil_2]].
      intros x Hx. case_bool_decide as Hcase; [|apply not_elem_of_nil].
      cbn. intros ->%list_elem_of_singleton. by destruct Hcase.
    + apply Forall_forall. intros x Hx.
      rewrite Forall_forall in Hall.
      destruct (decide (x = p)) as [->|Hxp].
      * assert (is_widget p = true) as Hw.
        { destruct (Hnew p Hx) as [Hold|(_ & ? & _)]; [|done].
          by destruct (Hall p Hold). }
        unfold parent_of, is_floating, ref_count_of.
        rewrite (Hwid Hw st Hst). cbn. split; [done|]. split; [done|].
        split; [done|].
        destruct (decide (p ∈ children_of gtk)) as [Hin|Hnin].
        -- by rewrite bool_decide_eq_true_2 by done.
        -- rewrite bool_decide_eq_false_2 by done.
           destruct (floating st); lia.
      * destruct (Hnew x Hx) as [Hold|(? & _)]; [|done].
        specialize (Hall x Hold).
        unfold parent_of, is_floating, ref_count_of in *.
        by rewrite (Hoth x Hxp).
  - intros q (Hqne & Hqtop & Hqlive & Hqpar).
    split; [done|]. split; [done|]. split.
    + unfold ref_count_of in *.
      destruct (decide (q = p)) as [->|Hqp]; [|by rewrite Hoth].
      destruct (is_widget p) eqn:Hw.
      * rewrite (Hwid eq_refl st Hst). cbn.
        destruct (bool_decide (p ∈ children_of gtk)); [done|].
        destruct (floating st); lia.
      * by rewrite (Hnw eq_refl).
    + intros Hw Hnin. destruct (decide (q = p)) as [->|Hqp].
      * by destruct Hnin; apply Hpacked.
      * unfold parent_of. rewrite (Hoth q Hqp). apply Hqpar; [done|].
        intros Hin. apply Hnin. by apply Hmono.
  - intros q Hq. rewrite Hoth; [done|]. intros ->. by rewrite Hst in Hq.
Qed.

Lemma pack_list_cons box c cs gtk :
  pack_list box (c :: cs) gtk
  = and_then
      (pack_part (Some box) (Some (child c)) (expand c) (fill c) (pack c)
         gtk)
      (pack_list box cs).
Proof.
  unfold pack_list. cbn [fold_left and_then].
  destruct (pack_part _ _ _ _ _ gtk) as [gtk'|e]; [done|].
  cbn [and_then]. apply fold_and_then_failed.
Qed.

(** The packing half of [mate_ui_window_rebuild_layout]. *)
Lemma pack_list_ok box cs :
  ∀ gtk,
    box_consistent box gtk →
    Forall (λ c, packable box gtk (child c)) cs →
    ∃ gtk' added,
      pack_list box cs gtk = defined gtk'
      ∧ box_consistent box gtk'
      ∧ box_children gtk' = box_children gtk ++ added
      ∧ added `sublist_of` cs
      ∧ (∀ c, c ∈ cs → is_widget (child c) = true →
              child c ∈ children_of gtk')
      ∧ (∀ x, x ∉ child <$> cs → live gtk' !! x = live gtk !! x)
      ∧ (∀ x, is_widget x = false → live gtk' !! x = live gtk !! x)
      ∧ (∀ x st,
           x ∈ child <$> cs → is_widget x = true →
           live gtk !! x = Some st →
           live gtk' !! x
           = Some {| ref_count :=
                       if bool_decide (x ∈ children_of gtk)
                       then ref_count st
                       else if floating st then ref_count st
                            else S (ref_count st);
                     floating := false; parent := Some box;
                     visible := true |}).
Proof.
  induction cs as [|c cs IH]; intros gtk Hc Hall.
  - exists gtk, []. split; [done|]. split; [done|].
    split; [by rewrite app_nil_r|]. split; [done|].
    split; [by intros c ?%elem_of_nil|]. split; [done|]. split; [done|].
    by intros x st ?%elem_of_nil.
  - apply Forall_cons in Hall as [Hp Hall].
    destruct (pack_step box gtk (child c) (expand c) (fill c) (pack c) Hc Hp)
      as (gtk1 & Hpack & Hch & Hoth & Hnw & Hwid).
    destruct (pack_step_consistent _ _ _ _ _ _ _ Hc Hp Hpack)
      as (Hc1 & Hkeep & _).
    destruct (IH gtk1 Hc1) as (gtk' & added & Hlist & Hc' & Hch' & Hsub
                               & Hin' & Hout' & Hnw' & Hwid').
    { eapply Forall_impl; [exact Hall|]. intros c0. apply Hkeep. }
    assert ({| child := child c; expand := expand c; fill := fill c;
               pack := pack c |} = c) as Heta by (by destruct c).
    rewrite Heta in Hch.
    assert (∀ x, x ≠ child c →
                 x ∈ children_of gtk1 ↔ x ∈ children_of gtk) as Hmem.
    { intros x Hx. unfold children_of. rewrite Hch, fmap_app, elem_of_app.
      split; [|by left]. intros [?|Hin]; [done|].
      case_bool_decide; [|by apply elem_of_nil in Hin].
      cbn in Hin. by apply list_elem_of_singleton in Hin. }
    assert (is_widget (child c) = true → child c ∈ children_of gtk1)
      as Hpacked.
    { intros Hw. unfold children_of. rewrite Hch, fmap_app, elem_of_app.
      destruct (decide (child c ∈ children_of gtk)); [by left|]. right.
      rewrite bool_decide_eq_true_2 by done. cbn. left. }
    exists gtk',
      ((if bool_decide (is_widget (child c) = true
                        ∧ child c ∉ children_of gtk)
        then [c] else []) ++ added).
    rewrite pack_list_cons, Hpack. cbn [and_then].
    split; [done|]. split; [done|].
    split; [by rewrite Hch', Hch, app_assoc|].
    split; [|split; [|split; [|split]]].
    + destruct (bool_decide (is_widget (child c) = true
                             ∧ child c ∉ children_of gtk)); cbn;
        [by apply sublist_skip|by apply sublist_cons].
    + intros c0 [->|Hc0]%elem_of_cons Hw; [|by apply Hin'].
      unfold children_of. rewrite Hch', fmap_app, elem_of_app. left.
      by apply Hpacked.
    + intros x. rewrite fmap_cons, not_elem_of_cons. intros [Hx Hxs].
      rewrite (Hout' x Hxs). by apply Hoth.
    + intros x Hx. rewrite (Hnw' x Hx).
      destruct (decide (x = child c)) as [->|Hne]; [by apply Hnw|].
      by apply Hoth.
    + intros x st Hx Hw Hst.
      destruct (decide (x = child c)) as [->|Hne].
      * pose proof (Hwid Hw st Hst) as Hst1.
        destruct (decide (child c ∈ child <$> cs)) as [Hlater|Hnot].
        -- rewrite (Hwid' _ _ Hlater Hw Hst1). cbn.
           by rewrite (bool_decide_eq_true_2 _ (Hpacked Hw)).
        -- by rewrite (Hout' _ Hnot).
      * rewrite fmap_cons in Hx.
        apply elem_of_cons in Hx as [?|Hx]; [done|].
        rewrite <- (Hoth x Hne) in Hst.
        rewrite (Hwid' _ _ Hx Hw Hst).
        by rewrite (bool_decide_ext _ _ (Hmem x Hne)).
Qed.

(** Packing a part that was finalized. *)
Lemma pack_list_dead box cs :
  ∀ gtk,
    box_consistent box gtk →
    Forall (λ c, packable box gtk (child c) ∨ live gtk !! child c = None)
      cs →
    Exists (λ c, live gtk !! child c = None) cs →
    pack_list box cs gtk = failed use_after_free.
Proof.
  induction cs as [|c cs IH]; intros gtk Hc Hall Hex.
  - by apply Exists_nil in Hex.
  - apply Forall_cons in Hall as [Hp Hall]. rewrite pack_list_cons.
    destruct (live gtk !! child c) as [st|] eqn:Hst.
    + destruct Hp as [Hp|?]; [|done].
      destruct (pack_step box gtk (child c) (expand c) (fill c) (pack c)
                  Hc Hp) as (gtk1 & Hpack & _).
      destruct (pack_step_consistent _ _ _ _ _ _ _ Hc Hp Hpack)
        as (Hc1 & Hkeep & Hdead).
      rewrite Hpack. cbn [and_then]. apply IH; [done| |].
      * eapply Forall_impl; [exact Hall|]. intros c0 [?|?].
        -- left. by apply Hkeep.
        -- right. by apply Hdead.
      * apply Exists_cons in Hex as [?|Hex]; [congruence|].
        eapply Exists_impl; [exact Hex|]. intros c0. apply Hdead.
    + destruct Hc as (_ & [stb Hstb] & _).
      unfold pack_part, gtk_box_pack. by rewrite Hstb, Hst.
Qed.

Lemma and_then_pack_none m box e f pk :
  and_then m (pack_part box None e f pk) = m.
Proof. by destruct m. Qed.

(** The two halves of [mate_ui_window_rebuild_layout]. *)
Lemma rebuild_layout_halves self box gtk :
  main_box self = Some box →
  mate_ui_window_rebuild_layout self gtk
  = and_then
      (fold_left
         (λ acc widget,
            and_then acc (gtk_container_remove (Some box) widget))
         (gtk_container_get_children (Some box) gtk) (defined gtk))
      (pack_list box (full_layout self)).
Proof.
  intros Hbox. unfold mate_ui_window_rebuild_layout. rewrite Hbox.
  set (removed := fold_left _ _ _).
  unfold full_layout.
  destruct (menubar self), (toolbar self), (content self),
    (statusbar self); cbn [fmap option_fmap option_map omap list_omap id];
    rewrite ?and_then_pack_none;
    destruct removed as [gtk1|e]; try done.
Qed.

Lemma children_full_layout self :
  child <$> full_layout self = parts_of self.
Proof.
  unfold full_layout, parts_of.
  by destruct (menubar self), (toolbar self), (content self),
    (statusbar self).
Qed.

(** The state after the removal loop. *)
Lemma after_removal box gtk :
  box_consistent box gtk →
  ∃ gtk1,
    fold_left
      (λ acc widget, and_then acc (gtk_container_remove (Some box) widget))
      (gtk_container_get_children (Some box) gtk) (defined gtk)
    = defined gtk1
    ∧ box_consistent box gtk1
    ∧ box_children gtk1 = []
    ∧ (∀ x st,
         x ∈ children_of gtk → live gtk !! x = Some st →
         live gtk1 !! x
         = if (ref_count st =? 1)%nat then None
           else Some {| ref_count := pred (ref_count st);
                        floating := floating st; parent := None;
                        visible := visible st |})
    ∧ (∀ x, x ∉ children_of gtk → live gtk1 !! x = live gtk !! x)
    ∧ (∀ q, part_ready box gtk q → packable box gtk1 q)
    ∧ (∀ q, part_owned_by_box gtk q → live gtk1 !! q = None).
Proof.
  intros Hc.
  pose proof (get_children_permutation box gtk) as Hperm.
  destruct (remove_all box (gtk_container_get_children (Some box) gtk)
              gtk Hc) as (gtk1 & Hfold & Hc1 & Hmem & Hin & Hout).
  { rewrite Hperm. by destruct Hc as (_ & _ & _ & ? & _). }
  { intros x. by rewrite Hperm. }
  assert (box_children gtk1 = []) as Hnil.
  { apply (fmap_nil_inv child). apply elem_of_nil_inv. intros x Hx.
    apply Hmem in Hx as [Hx Hnx]. apply Hnx. by rewrite Hperm. }
  assert (∀ x st,
            x ∈ children_of gtk → live gtk !! x = Some st →
            live gtk1 !! x
            = if (ref_count st =? 1)%nat then None
              else Some {| ref_count := pred (ref_count st);
                           floating := floating st; parent := None;
                           visible := visible st |}) as Hin1.
  { intros x st Hx. apply Hin. by rewrite Hperm. }
  assert (∀ x, x ∉ children_of gtk → live gtk1 !! x = live gtk !! x)
    as Hout1.
  { intros x Hx. apply Hout. by rewrite Hperm. }
  exists gtk1. split; [done|]. split; [done|]. split; [done|].
  split; [done|]. split; [done|]. split.
  - intros q (Hne & Htop & Hrc & Hchild & Hpar).
    split; [done|]. split; [done|].
    destruct (decide (q ∈ children_of gtk)) as [Hq|Hq].
    + specialize (Hchild Hq).
      destruct (ref_count_live gtk q) as (st & Hst & _); [lia|].
      unfold ref_count_of in Hchild. rewrite Hst in Hchild.
      cbn in Hchild. pose proof (Hin1 q st Hq Hst) as Hst1.
      destruct (Nat.eqb_spec (ref_count st) 1) as [?|_]; [lia|].
      unfold ref_count_of, parent_of. rewrite Hst1. cbn.
      split; [lia|done].
    + unfold ref_count_of, parent_of in *. rewrite (Hout1 q Hq).
      split; [done|]. intros Hw _. by apply Hpar.
  - intros q [Hq Hrc].
    destruct (ref_count_live gtk q) as (st & Hst & _); [lia|].
    unfold ref_count_of in Hrc. rewrite Hst in Hrc. cbn in Hrc.
    rewrite (Hin1 q st Hq Hst). by rewrite Hrc.
Qed.


(** What a call of [mate_ui_window_rebuild_layout] does when every part
    can be packed. *)
Lemma rebuild_layout_result
    (self : MateUiWindow) (box : GObject) (gtk : GtkState) :
  main_box self = Some box →
  box_consistent box gtk →
  Forall (part_ready box gtk) (parts_of self) →
  ∃ gtk',
    mate_ui_window_rebuild_layout self gtk = defined gtk'
    ∧ box_consistent box gtk'
    ∧ (∀ w, w ∈ children_of gtk' ↔ w ∈ parts_of self ∧ is_widget w = true)
    ∧ box_children gtk' `sublist_of` full_layout self
    ∧ Forall
        (λ w,
           parent_of gtk' w = Some box
           ∧ is_visible gtk' w = true
           ∧ ref_count_of gtk' w
             = if bool_decide (w ∈ children_of gtk) then ref_count_of gtk w
               else if is_floating gtk w then ref_count_of gtk w
                    else S (ref_count_of gtk w))
        (children_of gtk')
    ∧ (∀ w,
         w ∈ children_of gtk → w ∉ parts_of self →
         live gtk' !! w
         = if (ref_count_of gtk w =? 1)%nat then None
           else (λ st, {| ref_count := pred (ref_count st);
                          floating := floating st; parent := None;
                          visible := visible st |}) <$> live gtk !! w)
    ∧ (∀ x,
         x ∉ children_of gtk →
         x ∉ parts_of self ∨ is_widget x = false →
         live gtk' !! x = live gtk !! x).
Proof.
  intros Hbox Hc Hready.
  destruct (after_removal box gtk Hc)
    as (gtk1 & Hfold & Hc1 & Hnil & Hin1 & Hout1 & Hpackable & _).
  destruct (pack_list_ok box (full_layout self) gtk1 Hc1)
    as (gtk' & added & Hpack & Hc' & Hch & Hsub & Hin' & Hout' & Hnw'
        & Hwid').
  { apply Forall_forall. intros c Hcin. apply Hpackable.
    rewrite Forall_forall in Hready. apply Hready.
    rewrite <- children_full_layout. by apply list_elem_of_fmap_2. }
  rewrite Hnil in Hch. cbn in Hch.
  assert (∀ w, w ∈ children_of gtk' →
               w ∈ parts_of self ∧ is_widget w = true) as Hparts.
  { intros w Hw. split.
    - rewrite <- children_full_layout. unfold children_of in Hw.
      rewrite Hch in Hw. eapply elem_of_sublist; [exact Hw|].
      by apply fmap_sublist.
    - by destruct (consistent_child _ _ _ Hc' Hw) as (_ & ? & _). }
  exists gtk'. rewrite (rebuild_layout_halves _ _ _ Hbox), Hfold.
  cbn [and_then].
  split; [done|]. split; [done|].
  split; [|split; [|split; [|split]]].
  - intros w. split; [apply Hparts|]. intros [Hw Hwid].
    rewrite <- children_full_layout in Hw.
    apply list_elem_of_fmap in Hw as (c & -> & Hcin). by apply Hin'.
  - by rewrite Hch.
  - apply Forall_forall. intros w Hw.
    destruct (Hparts w Hw) as [Hpart Hwid].
    rewrite Forall_forall in Hready.
    pose proof (Hready w Hpart) as Hr.
    pose proof (Hpackable w Hr) as (_ & _ & Hrc1 & _).
    destruct (ref_count_live _ _ Hrc1) as (st1 & Hst1 & _).
    assert (w ∈ child <$> full_layout self) as Hwin
      by (by rewrite children_full_layout).
    pose proof (Hwid' w st1 Hwin Hwid Hst1) as Hst'.
    rewrite bool_decide_eq_false_2 in Hst'
      by (unfold children_of; rewrite Hnil; apply not_elem_of_nil).
    unfold parent_of, is_visible, ref_count_of, is_floating.
    rewrite Hst'. cbn. split; [done|]. split; [done|].
    destruct (decide (w ∈ children_of gtk)) as [Hold|Hnew].
    + rewrite bool_decide_eq_true_2 by done.
      destruct (consistent_child _ _ _ Hc Hold)
        as (_ & _ & st & Hst & _ & Hfl & _).
      destruct Hr as (_ & _ & _ & Htwo & _). specialize (Htwo Hold).
      unfold ref_count_of in Htwo. rewrite Hst in Htwo. cbn in Htwo.
      rewrite (Hin1 w st Hold Hst) in Hst1.
      destruct (Nat.eqb_spec (ref_count st) 1) as [?|_]; [lia|].
      injection Hst1 as <-. cbn. rewrite Hfl, Hst. cbn. lia.
    + rewrite bool_decide_eq_false_2 by done.
      rewrite (Hout1 w Hnew) in Hst1. by rewrite Hst1.
  - intros w Hw Hnpart.
    rewrite Hout' by (by rewrite children_full_layout).
    destruct (consistent_child _ _ _ Hc Hw) as (_ & _ & st & Hst & _).
    rewrite (Hin1 w st Hw Hst). unfold ref_count_of. by rewrite Hst.
  - intros x Hx [Hnpart|Hnw].
    + rewrite Hout' by (by rewrite children_full_layout). by apply Hout1.
    + rewrite (Hnw' x Hnw). by apply Hout1.
Qed.

(** A part the box alone holds is used after the removal freed it. *)
Lemma rebuild_layout_dead_part
    (self : MateUiWindow) (box : GObject) (gtk : GtkState) (p : GObject) :
  main_box self = Some box →
  box_consistent box gtk →
  Forall (λ q, part_ready box gtk q ∨ part_owned_by_box gtk q)
    (parts_of self) →
  p ∈ parts_of self →
  part_owned_by_box gtk p →
  mate_ui_window_rebuild_layout self gtk = failed use_after_free.
Proof.
  intros Hbox Hc Hparts Hp Howned.
  destruct (after_removal box gtk Hc)
    as (gtk1 & Hfold & Hc1 & _ & _ & _ & Hpackable & Hdead).
  rewrite (rebuild_layout_halves _ _ _ Hbox), Hfold. cbn [and_then].
  rewrite Forall_forall in Hparts.
  apply pack_list_dead; [done| |].
  - apply Forall_forall. intros c Hcin.
    destruct (Hparts (child c)) as [Hr|Ho].
    + rewrite <- children_full_layout. by apply list_elem_of_fmap_2.
    + left. by apply Hpackable.
    + right. by apply Hdead.
  - rewrite <- children_full_layout in Hp.
    apply list_elem_of_fmap in Hp as (c & -> & Hcin).
    apply Exists_exists. exists c. split; [done|]. by apply Hdead.
Qed.


(** X28. The lifetime of the parts.  [mate_ui_window_rebuild_layout]
    first removes every child from [main_box], which drops the
    reference the box holds, and then packs the parts again.  So a part
    that the box alone holds is finalized by the removal, and the
    pointer the window keeps to it is then passed to
    [gtk_box_pack_start] or [gtk_box_pack_end]: the call uses a widget
    after it was freed.  This is what happens to a new widget (one
    floating reference) handed to [mate_ui_window_set_toolbar],
    [mate_ui_window_set_content] or [mate_ui_window_set_statusbar],
    which take no reference: the first layout is built, the box then
    holds the only reference, and every later rebuild of the layout with
    the widget still set uses it after it was freed. *)
Theorem rebuild_layout_frees_part
    (self : MateUiWindow) (box : GObject) (gtk : GtkState) (p : GObject) :
  main_box self = Some box →
  box_consistent box gtk →
  p ∈ parts_of self →
  (Forall (λ q, part_ready box gtk q ∨ part_owned_by_box gtk q)
     (parts_of self) →
   part_owned_by_box gtk p →
   mate_ui_window_rebuild_layout self gtk = failed use_after_free)
  ∧ (Forall (part_ready box gtk) (parts_of self) →
     is_widget p = true → p ∉ children_of gtk →
     is_floating gtk p = true → ref_count_of gtk p = 1 →
     ∃ gtk',
       mate_ui_window_rebuild_layout self gtk = defined gtk'
       ∧ part_owned_by_box gtk' p
       ∧ ∀ self',
           main_box self' = Some box →
           p ∈ parts_of self' →
           Forall (λ q, q ∈ parts_of self
                        ∨ (q ∉ children_of gtk) ∧ part_ready box gtk q)
             (parts_of self') →
           mate_ui_window_rebuild_layout self' gtk'
           = failed use_after_free).
Proof.
  intros Hbox Hc Hp. split.
  { intros Hparts Howned. by eapply rebuild_layout_dead_part. }
  intros Hready Hwid Hnew Hfl Hone.
  destruct (rebuild_layout_result self box gtk Hbox Hc Hready)
    as (gtk' & Hdef & Hc' & Hmem & _ & Hstate & _ & Hsame).
  rewrite Forall_forall in Hstate. rewrite Forall_forall in Hready.
  assert (part_owned_by_box gtk' p) as Howned.
  { assert (p ∈ children_of gtk') as Hin by (by apply Hmem).
    split; [done|]. destruct (Hstate p Hin) as (_ & _ & ->).
    by rewrite bool_decide_eq_false_2, Hfl by done. }
  exists gtk'. split; [done|]. split; [done|].
  intros self' Hbox' Hp' Hparts'.
  apply (rebuild_layout_dead_part self' box gtk' p); try done.
  assert (∀ x, x ∈ children_of gtk → is_widget x = true) as Hchildren.
  { intros x Hx. by destruct (consistent_child _ _ _ Hc Hx) as (_ & ? & _). }
  assert (∀ q, q ∈ parts_of self →
               part_ready box gtk' q ∨ part_owned_by_box gtk' q) as Hold.
  { intros q Hq.
    pose proof (Hready q Hq) as (Hne & Htop & Hrc & Htwo & Hpar).
    destruct (is_widget q) eqn:Hw.
    - assert (q ∈ children_of gtk') as Hin by (by apply Hmem).
      destruct (Hstate q Hin) as (_ & _ & Hcount).
      assert (1 ≤ ref_count_of gtk' q) as Hpos.
      { rewrite Hcount.
        destruct (decide (q ∈ children_of gtk)) as [Hch|Hch].
        - rewrite bool_decide_eq_true_2 by done. specialize (Htwo Hch). lia.
        - rewrite bool_decide_eq_false_2 by done.
          destruct (is_floating gtk q); lia. }
      destruct (decide (ref_count_of gtk' q = 1)) as [Hq1|Hq1];
        [by right|left].
      split; [done|]. split; [done|]. split; [done|].
      split; [intros _; lia|done].
    - left. assert (q ∉ children_of gtk) as Hnin.
      { intros Hin. apply Hchildren in Hin. congruence. }
      assert (live gtk' !! q = live gtk !! q) as Hlive
        by (apply Hsame; [done|by right]).
      split; [done|]. split; [done|].
      unfold ref_count_of, parent_of in *. rewrite Hlive.
      split; [done|]. split; [|intros _ ?; congruence].
      intros Hin. apply Hmem in Hin as [_ ?]. congruence. }
  apply Forall_forall. intros q Hq. rewrite Forall_forall in Hparts'.
  destruct (Hparts' q Hq) as [Hq0|[Hfresh Hr]]; [by apply Hold|].
  destruct (decide (q ∈ parts_of self)) as [Hq0|Hnot]; [by apply Hold|].
  left. destruct Hr as (Hne & Htop & Hrc & _ & Hpar).
  assert (live gtk' !! q = live gtk !! q) as Hlive
    by (apply Hsame; [done|by left]).
  split; [done|]. split; [done|].
  unfold ref_count_of, parent_of in *. rewrite Hlive.
  split; [done|]. split.
  - intros Hin. apply Hmem in Hin as [? _]. done.
  - intros _ Hw. by apply Hpar.
Qed.

Import LayoutSamples.


Lemma rebuild_layout_frees_part_witness :
  ∃ gtk',
    mate_ui_window_rebuild_layout window_with_parts fresh_widgets
    = defined gtk'
    ∧ part_owned_by_box gtk' a_label
    ∧ mate_ui_window_rebuild_layout
        (mate_ui_window_set_statusbar window_with_parts (Some a_statusbar))
        gtk'
      = failed use_after_free.
Proof.
  destruct (rebuild_layout_frees_part window_with_parts a_box
              fresh_widgets a_label) as [_ Hnew].
  - reflexivity.
  - apply (bool_decide_unpack _). vm_compute. reflexivity.
  - apply (bool_decide_unpack _). vm_compute. reflexivity.
  - destruct Hnew as (gtk' & Hdef & Howned & Hlater).
    + apply (bool_decide_unpack _). vm_compute. reflexivity.
    + reflexivity.
    + apply (bool_decide_unpack _). vm_compute. reflexivity.
    + reflexivity.
    + reflexivity.
    + exists gtk'. split; [exact Hdef|]. split; [exact Howned|].
      apply Hlater.
      * reflexivity.
      * apply (bool_decide_unpack _). vm_compute. reflexivity.
      * apply (bool_decide_unpack _). vm_compute. reflexivity.
Defined.

(** The layout of a window with a menubar and a new label as content;
    the state of GTK afterwards is [packed_widgets]. *)
Example rebuild_layout_first :
  mate_ui_window_rebuild_layout window_with_parts fresh_widgets
  = defined packed_widgets.
Proof. vm_compute. reflexivity. Qed.

(** Setting the statusbar next rebuilds the layout: the label, which the
    box alone held, is used after it was freed. *)
Example rebuild_layout_second :
  and_then (mate_ui_window_rebuild_layout window_with_parts fresh_widgets)
    (mate_ui_window_rebuild_layout
       (mate_ui_window_set_statusbar window_with_parts (Some a_statusbar)))
  = failed use_after_free.
Proof. vm_compute. reflexivity. Qed.

(** One widget set as content and as statusbar is packed once: the
    second [gtk_box_pack_end] is refused, the widget having a parent. *)
Example rebuild_layout_same_widget_twice :
  children_of
  <$> match
        mate_ui_window_rebuild_layout
          (mate_ui_window_set_statusbar window_with_parts (Some a_label))
          fresh_widgets
      with
      | defined gtk => Some gtk
      | failed _ => None
      end
  = Some [a_menubar; a_label].
Proof. vm_compute. reflexivity. Qed.

(** A statusbar that is no widget is not packed. *)
Example rebuild_layout_no_widget :
  children_of
  <$> match
        mate_ui_window_rebuild_layout
          (mate_ui_window_set_statusbar window_with_parts
             (Some some_settings))
          fresh_widgets
      with
      | defined gtk => Some gtk
      | failed _ => None
      end
  = Some [a_menubar; a_label].
Proof. vm_compute. reflexivity. Qed.
